(** * maplibre-contour: option codec, level resolution, isolines/isobands
      post-processing, request timeout and spot-sounding grid.

    A shallow embedding of [src/utils.ts], [src/isobands-ms.ts] and the
    [generateIsolinesMS] part of [src/types.ts].

    Conventions of the embedding.
    - A JavaScript string is a [string] of code units; only the ASCII part of
      the white-space and URI tables is spelled out, other code units are
      passed through (escaped, respectively kept) as opaque units.
    - In the option codec, the level resolution and [Contour], a JavaScript
      number is [NaN] or an integer ([Int z]); [ToString] and [Number] are
      the integer fragment of the ECMAScript conversions there.
    - In [Levels], which reads the level string, a number is whatever the
      engine's [Number] returns: the conversions are taken from the engine.
    - In [Spots] a number is an IEEE 754 binary64 value, the kernel's
      [float], and the variable captured by a closure is a cell of a heap.
    - A JavaScript object used as a dictionary is a [gmap]. *)

From Stdlib Require Import ZArith QArith Qround Lia Lqa Ascii String List.
From Stdlib Require Floats Uint63.
From stdpp Require Import base option list gmap strings sorting.

Local Open Scope string_scope.
Local Open Scope Z_scope.

(* ================================================================== *)
(** ** The JavaScript primitives used by the sources *)
(* ================================================================== *)

Module JS.

(** Numbers: the integer fragment, plus [NaN]. *)
Inductive number : Type :=
  | NaN : number
  | Int : Z -> number.

#[global] Instance number_eq_dec : EqDecision number.
Proof. solve_decision. Defined.

Definition number_to_option (n : number) : option Z :=
  match n with NaN => None | Int z => Some z end.

Definition number_of_option (o : option Z) : number :=
  match o with None => NaN | Some z => Int z end.

#[global] Instance number_countable : Countable number.
Proof.
  apply (inj_countable' number_to_option number_of_option).
  by intros [|z].
Defined.

Definition isNaN (n : number) : bool :=
  match n with NaN => true | Int _ => false end.

(** *** Decimal digits *)

Definition digit_char (d : N) : ascii :=
  ascii_of_N (48 + d).

Definition digit_of_char (c : ascii) : option N :=
  let n := N_of_ascii c in
  if ((48 <=? n) && (n <=? 57))%N then Some (n - 48)%N else None.

(** Least significant digit first. *)
Fixpoint lsd_digits (fuel : nat) (n : N) : list N :=
  match fuel with
  | O => []
  | S f => (n mod 10)%N :: (if (n / 10 =? 0)%N then [] else lsd_digits f (n / 10)%N)
  end.

Definition digits_of_N (n : N) : list N :=
  rev (lsd_digits (S (N.to_nat (N.log2 n))) n).

Definition string_of_chars (l : list ascii) : string :=
  fold_right String EmptyString l.

Fixpoint chars_of_string (s : string) : list ascii :=
  match s with
  | EmptyString => []
  | String a r => a :: chars_of_string r
  end.

Definition N_to_string (n : N) : string :=
  string_of_chars (map digit_char (digits_of_N n)).

(** [ToString] applied to a number (ECMAScript Number::toString, radix 10). *)
Definition ToString (n : number) : string :=
  match n with
  | NaN => "NaN"
  | Int z =>
      if z <? 0 then String "-" (N_to_string (Z.abs_N z))
      else N_to_string (Z.abs_N z)
  end.

(** *** White space and [String.prototype.trim] *)

Definition is_ws (c : ascii) : bool :=
  let n := N_of_ascii c in
  ((9 <=? n) && (n <=? 13) || (n =? 32))%N.

Fixpoint trimStart (s : string) : string :=
  match s with
  | EmptyString => EmptyString
  | String a r => if is_ws a then trimStart r else s
  end.

Fixpoint trimEnd (s : string) : string :=
  match s with
  | EmptyString => EmptyString
  | String a r =>
      match trimEnd r with
      | EmptyString => if is_ws a then EmptyString else String a EmptyString
      | r' => String a r'
      end
  end.

Definition trim (s : string) : string := trimEnd (trimStart s).

(** *** [Number(s)]: StringToNumber on the integer fragment *)

Fixpoint digits_val (acc : N) (s : string) : option N :=
  match s with
  | EmptyString => Some acc
  | String a r =>
      match digit_of_char a with
      | Some d => digits_val (acc * 10 + d)%N r
      | None => None
      end
  end.

Definition unsigned_val (s : string) : option N :=
  match s with
  | EmptyString => None
  | _ => digits_val 0%N s
  end.

Definition Number (s : string) : number :=
  match trim s with
  | EmptyString => Int 0
  | String c r as t =>
      if Ascii.eqb c "-" then
        match unsigned_val r with Some n => Int (- Z.of_N n) | None => NaN end
      else if Ascii.eqb c "+" then
        match unsigned_val r with Some n => Int (Z.of_N n) | None => NaN end
      else
        match unsigned_val t with Some n => Int (Z.of_N n) | None => NaN end
  end.

(** *** [split] on a one-character separator and [join] *)

(** The first piece and the remaining pieces: [split] never yields an empty
    array. *)
Fixpoint split_ne (c : ascii) (s : string) : string * list string :=
  match s with
  | EmptyString => (EmptyString, [])
  | String a r =>
      let (h, t) := split_ne c r in
      if Ascii.eqb a c then (EmptyString, h :: t) else (String a h, t)
  end.

Definition split (c : ascii) (s : string) : list string :=
  let (h, t) := split_ne c s in h :: t.

Fixpoint join (sep : string) (parts : list string) : string :=
  match parts with
  | [] => EmptyString
  | [p] => p
  | p :: rest => p ++ sep ++ join sep rest
  end.

(** *** [encodeURIComponent] and [decodeURIComponent] *)

Definition is_alnum (c : ascii) : bool :=
  let n := N_of_ascii c in
  ((48 <=? n) && (n <=? 57) || (65 <=? n) && (n <=? 90)
   || (97 <=? n) && (n <=? 122))%N.

(** uriUnescaped: alphanumerics and the marks [- _ . ! ~ * ' ( )]. *)
Definition is_unreserved (c : ascii) : bool :=
  is_alnum c ||
  existsb (Ascii.eqb c) ["-"; "_"; "."; "!"; "~"; "*"; "'"; "("; ")"]%char.

Definition hex_char (d : N) : ascii :=
  if (d <? 10)%N then ascii_of_N (48 + d) else ascii_of_N (55 + d).

Definition hex_val (c : ascii) : option N :=
  let n := N_of_ascii c in
  if ((48 <=? n) && (n <=? 57))%N then Some (n - 48)%N
  else if ((65 <=? n) && (n <=? 70))%N then Some (n - 55)%N
  else if ((97 <=? n) && (n <=? 102))%N then Some (n - 87)%N
  else None.

Fixpoint encodeURIComponent (s : string) : string :=
  match s with
  | EmptyString => EmptyString
  | String a r =>
      if is_unreserved a then String a (encodeURIComponent r)
      else
        let n := N_of_ascii a in
        String "%" (String (hex_char (n / 16)) (String (hex_char (n mod 16))
          (encodeURIComponent r)))
  end.

(** [None] stands for the URIError thrown on a malformed escape. *)
Fixpoint decodeURIComponent (s : string) : option string :=
  match s with
  | EmptyString => Some EmptyString
  | String a r =>
      if Ascii.eqb a "%" then
        match r with
        | String h (String l r') =>
            match hex_val h, hex_val l, decodeURIComponent r' with
            | Some x, Some y, Some t => Some (String (ascii_of_N (16 * x + y)) t)
            | _, _, _ => None
            end
        | _ => None
        end
      else
        match decodeURIComponent r with
        | Some t => Some (String a t)
        | None => None
        end
  end.

(** *** [s.replace(/^.*\?/, "")] *)

Definition is_line_terminator (c : ascii) : bool :=
  let n := N_of_ascii c in ((n =? 10) || (n =? 13))%N.

(** What follows the last question mark of the first line, if there is one. *)
Fixpoint after_last_question (s : string) : option string :=
  match s with
  | EmptyString => None
  | String a r =>
      if is_line_terminator a then None
      else match after_last_question r with
           | Some t => Some t
           | None => if Ascii.eqb a "?" then Some r else None
           end
  end.

Definition strip_query (s : string) : string :=
  match after_last_question s with
  | Some t => t
  | None => s
  end.

(** *** Objects as dictionaries *)

(** [Object.fromEntries]: a later entry overwrites an earlier one. *)
Definition fromEntries {K V} `{Countable K} (l : list (K * V)) : gmap K V :=
  fold_left (fun m kv => <[kv.1 := kv.2]> m) l ∅.

(** The comparator [(a < b ? -1 : a > b ? 1 : 0)] on the keys of entries. *)
Definition entry_le {V} (x y : string * V) : Prop :=
  String.leb x.1 y.1 = true.

#[global] Instance entry_le_dec {V} : RelDecision (@entry_le V).
Proof. intros x y. unfold entry_le. apply _. Defined.

(** [entries.sort(cmp)] for that comparator. *)
Definition sort_entries {V} (l : list (string * V)) : list (string * V) :=
  merge_sort entry_le l.

(** [Object.entries] of an object whose property names are numbers: the
    names are the [ToString] of the keys. *)
Definition entries_of {V} (m : gmap number V) : list (string * V) :=
  map (fun kv => (ToString kv.1, kv.2)) (map_to_list m).

End JS.

(* ================================================================== *)
(** ** [src/utils.ts]: option codec and per-zoom resolution *)
(* ================================================================== *)

Module Utils.
Import JS.

(** [number | number[]], the value of a [thresholds] entry. *)
Inductive tvalue : Type :=
  | TNum : number -> tvalue
  | TArr : list number -> tvalue.

(** The value of a [ContourTileOptions] field: a number or a string. *)
Inductive scalar : Type :=
  | SNum : number -> scalar
  | SStr : string -> scalar.

(** Values of the properties of a decoded options object. *)
Inductive value : Type :=
  | VUndefined : value
  | VNum : number -> value
  | VStr : string -> value
  | VMap : gmap number tvalue -> value.

#[global] Instance tvalue_eq_dec : EqDecision tvalue.
Proof. solve_decision. Defined.

#[global] Instance scalar_eq_dec : EqDecision scalar.
Proof. solve_decision. Defined.

#[global] Instance value_eq_dec : EqDecision value.
Proof. solve_decision. Defined.

(** [GlobalContourTileOptions], as [encodeOptions] and [getOptionsForZoom]
    destructure it: the three level maps and the [...rest] fields. *)
Record GlobalContourTileOptions : Type := mkGlobal {
  thresholds : option (gmap number tvalue);
  lineLevels : option (gmap number (list number));
  polygonLevels : option (gmap number (list number));
  rest : gmap string scalar
}.

Record IndividualContourTileOptions : Type := mkIndividual {
  ind_lineLevels : list number;
  ind_polygonLevels : option (list number);
  ind_rest : gmap string scalar
}.

Definition sortedEntries {V} (entries : list (string * V)) : list (string * V) :=
  sort_entries entries.

Definition threshold_numbers (v : tvalue) : list number :=
  match v with
  | TNum n => [n]
  | TArr l => l
  end.

Definition encodeThresholds (thresholds : gmap number tvalue) : string :=
  join "~"
    (map (fun kv => join "*" (kv.1 :: map ToString (threshold_numbers kv.2)))
         (sortedEntries (entries_of thresholds))).

Definition decode_part (part : string) : number * list number :=
  let (key, values) := split_ne "*" part in
  (Number key, map Number values).

Definition decodeThresholds (thresholds : string) : gmap number tvalue :=
  fromEntries
    (map (fun part => let (key, values) := decode_part part in (key, TArr values))
         (split "~" thresholds)).

Definition encodeLevels (levels : gmap number (list number)) : string :=
  join "~"
    (map (fun kv => join "*" (kv.1 :: map ToString kv.2))
         (sortedEntries (entries_of levels))).

Definition decodeLevels (levels : string) : gmap number (list number) :=
  fromEntries (map decode_part (split "~" levels)).

Definition scalar_to_string (v : scalar) : string :=
  match v with
  | SNum n => ToString n
  | SStr s => s
  end.

Definition encoded_object (o : GlobalContourTileOptions) : gmap string scalar :=
  let encoded := rest o in
  let encoded :=
    match thresholds o with
    | Some t => <["thresholds" := SStr (encodeThresholds t)]> encoded
    | None => encoded
    end in
  let encoded :=
    match lineLevels o with
    | Some l => <["lineLevels" := SStr (encodeLevels l)]> encoded
    | None => encoded
    end in
  match polygonLevels o with
  | Some l => <["polygonLevels" := SStr (encodeLevels l)]> encoded
  | None => encoded
  end.

Definition encode_entry (kv : string * scalar) : string :=
  encodeURIComponent kv.1 ++ "=" ++ encodeURIComponent (scalar_to_string kv.2).

Definition encodeOptions (o : GlobalContourTileOptions) : string :=
  join "&" (map encode_entry (sortedEntries (map_to_list (encoded_object o)))).

(** One [key=value] part.  [None] stands for a thrown exception: the URIError
    of [decodeURIComponent], or the TypeError of [undefined.split]. *)
Definition decode_entry (part : string) : option (string * value) :=
  let (p0, ps) := split_ne "=" part in
  k ← decodeURIComponent p0;
  decoded ← mapM decodeURIComponent ps;
  let v := head decoded in
  if String.eqb k "thresholds" then
    s ← v; Some (k, VMap (decodeThresholds s))
  else if String.eqb k "lineLevels" || String.eqb k "polygonLevels" then
    s ← v; Some (k, VMap (TArr <$> decodeLevels s))
  else if String.eqb k "extent" || String.eqb k "multiplier"
          || String.eqb k "overzoom" || String.eqb k "buffer" then
    Some (k, VNum (match v with Some s => Number s | None => NaN end))
  else
    Some (k, match v with Some s => VStr s | None => VUndefined end).

Definition decodeOptions (options : string) : option (gmap string value) :=
  parts ← mapM decode_entry (split "&" (strip_query options));
  Some (fromEntries parts).

Definition scalar_value (v : scalar) : value :=
  match v with
  | SNum n => VNum n
  | SStr s => VStr s
  end.

(** The options object itself, as a dictionary of JavaScript values: what
    the result of [decodeOptions] is compared with. *)
Definition options_object (o : GlobalContourTileOptions) : gmap string value :=
  let obj := scalar_value <$> rest o in
  let obj :=
    match thresholds o with
    | Some t => <["thresholds" := VMap t]> obj
    | None => obj
    end in
  let obj :=
    match lineLevels o with
    | Some l => <["lineLevels" := VMap (TArr <$> l)]> obj
    | None => obj
    end in
  match polygonLevels o with
  | Some l => <["polygonLevels" := VMap (TArr <$> l)]> obj
  | None => obj
  end.

(** *** [getOptionsForZoom] *)

(** The body of the three [forEach] callbacks.  The state is
    [maxLessThanOrEqualTo] ([None] is [-Infinity]) and the value selected so
    far; comparisons with [NaN] are false. *)
Definition zoom_step {W V} (conv : W -> V) (zoom : number)
    (st : option Z * V) (e : string * W) : option Z * V :=
  match Number e.1, zoom with
  | Int z, Int zm =>
      if (z <=? zm) && (match st.1 with None => true | Some m => m <? z end)
      then (Some z, conv e.2)
      else st
  | _, _ => st
  end.

Definition zoom_scan {W V} (conv : W -> V) (zoom : number) (init : V)
    (m : gmap number W) : V :=
  (fold_left (zoom_step conv zoom) (entries_of m) (None, init)).2.

Definition getOptionsForZoom (options : GlobalContourTileOptions)
    (zoom : number) : IndividualContourTileOptions :=
  let lineLevelsForZoom : list number := [] in
  let polygonLevelsForZoom : option (list number) := None in
  let lineLevelsForZoom :=
    match thresholds options with
    | Some t => zoom_scan threshold_numbers zoom lineLevelsForZoom t
    | None => lineLevelsForZoom
    end in
  let lineLevelsForZoom :=
    match lineLevels options with
    | Some l => zoom_scan id zoom lineLevelsForZoom l
    | None => lineLevelsForZoom
    end in
  let polygonLevelsForZoom :=
    match polygonLevels options with
    | Some l => zoom_scan Some zoom polygonLevelsForZoom l
    | None => polygonLevelsForZoom
    end in
  {| ind_lineLevels := lineLevelsForZoom;
     ind_polygonLevels := polygonLevelsForZoom;
     ind_rest := rest options |}.

(** *** [encodeIndividualOptions] *)

(** [String(array)] for an array of numbers: the elements joined by commas. *)
Definition array_to_string (l : list number) : string :=
  join "," (map ToString l).

(** The properties of the object [{lineLevels, polygonLevels, ...rest}] that
    [getOptionsForZoom] returns, each value as the template literal of
    [encodeIndividualOptions] converts it to a string; [polygonLevels] is a
    property also when it is [undefined]. *)
Definition individual_entries (o : IndividualContourTileOptions)
    : gmap string string :=
  (scalar_to_string <$> ind_rest o)
  ∪ {[ "lineLevels" := array_to_string (ind_lineLevels o);
       "polygonLevels" := match ind_polygonLevels o with
                          | Some l => array_to_string l
                          | None => "undefined"
                          end ]}.

Definition encodeIndividualOptions (o : IndividualContourTileOptions) : string :=
  join ","
    (map (fun kv => encodeURIComponent kv.1 ++ "=" ++ encodeURIComponent kv.2)
         (sortedEntries (map_to_list (individual_entries o)))).

End Utils.

(* ================================================================== *)
(** ** [generateIsolinesMS] and [generateIsobands] *)
(* ================================================================== *)

Module Contour.
Import JS.

(** What the two generators use of a [HeightTile]. *)
Record HeightTile : Type := mkTile {
  width : Z;
  height : Z;
  get : Z -> Z -> Q
}.

Definition Coord : Type := (Q * Q)%type.

(** The options object passed to the marching-squares functions. *)
Record MSOptions : Type := mkMSOptions {
  linearRing : bool;
  noFrame : bool
}.

(** [Math.round]: the nearest integer, halves towards plus infinity. *)
Definition Math_round (x : Q) : Z := Qfloor (x + (1 # 2)).

(** [for (let k = 0; k < n; k++)] as the list of its indices. *)
Definition indices (n : Z) : list Z :=
  map Z.of_nat (seq 0 (Z.to_nat n)).

(** The two nested loops that copy the tile into [data]. *)
Definition tile_data (tile : HeightTile) : list (list Q) :=
  map (fun y => map (fun x => get tile x y) (indices (width tile)))
      (indices (height tile)).

(** [levels.split(",").map((s) => Number(s.trim())).filter((n) => !isNaN(n))] *)
Definition parse_levels (levels : string) : list number :=
  List.filter (fun n => negb (isNaN n))
              (map (fun s => Number (trim s)) (split "," levels)).

(** The numbers of an array without [NaN] as integers. *)
Definition finite_levels (l : list number) : list Z :=
  omap number_to_option l.

(** [levelArray]: the parsed string, or the array itself. *)
Definition levelArray_of (levels : string + list Z) : list Z :=
  match levels with
  | inl s => finite_levels (parse_levels s)
  | inr l => l
  end.

(** [[...levelArray].sort((a, b) => a - b)] *)
Definition sort_levels (l : list Z) : list Z := merge_sort Z.le l.

(** [extent / (width - 1)]; [None] when the quotient is not finite. *)
Definition scale_of (extent : Q) (tile : HeightTile) : option Q :=
  if width tile - 1 =? 0 then None
  else Some (extent / inject_Z (width tile - 1))%Q.

Definition scaled (scale : option Q) (x : Q) : number :=
  match scale with
  | Some k => Int (Math_round (x * k))
  | None => NaN
  end.

(** The inner loop: [geometry.push(Math.round(x * scale), Math.round(y * scale))]. *)
Fixpoint flatten_scaled (scale : option Q) (line : list Coord) : list number :=
  match line with
  | [] => []
  | (x, y) :: r => scaled scale x :: scaled scale y :: flatten_scaled scale r
  end.

(** The loop over the paths of one level or range: keep the flat arrays of
    at least [min_len] numbers. *)
Definition collect (min_len : nat) (scale : option Q)
    (paths : list (list Coord)) : list (list number) :=
  List.filter (fun g => (min_len <=? length g)%nat)
              (map (flatten_scaled scale) paths).

Section marching_squares.

(** The two functions imported from the marching-squares package; [None]
    stands for a thrown exception. *)
Variable isoLines :
  list (list Q) -> list Z -> MSOptions -> option (list (list (list Coord))).
Variable isoBands :
  list (list Q) -> list Z -> list Z -> MSOptions ->
  option (list (list (list Coord))).

(** The body of [for (const level of sortedLevels)], [try]/[catch] included. *)
Definition isoline_step (tile : HeightTile) (extent : Q) (data : list (list Q))
    (result : gmap Z (list (list number))) (level : Z)
    : gmap Z (list (list number)) :=
  match isoLines data [level] (mkMSOptions false true) with
  | Some linesResult =>
      let geometries :=
        match linesResult with
        | lines :: _ => collect 4 (scale_of extent tile) lines
        | [] => []
        end in
      match geometries with
      | [] => result
      | _ => <[level := geometries]> result
      end
  | None => result
  end.

Definition generateIsolinesMS (levels : string + list Z) (tile : HeightTile)
    (extent : Q) : gmap Z (list (list number)) :=
  let levelArray := levelArray_of levels in
  match levelArray with
  | [] => ∅
  | _ =>
      let sortedLevels := sort_levels levelArray in
      let data := tile_data tile in
      fold_left (isoline_step tile extent data) sortedLevels ∅
  end.

(** [`${lowerLevel}:${upperLevel}`] *)
Definition rangeKey (lowerLevel upperLevel : Z) : string :=
  ToString (Int lowerLevel) ++ ":" ++ ToString (Int upperLevel).

(** The pairs [(sortedLevels[i], sortedLevels[i + 1])] for
    [0 <= i < sortedLevels.length - 1]. *)
Fixpoint adjacent_pairs (l : list Z) : list (Z * Z) :=
  match l with
  | a :: ((b :: _) as r) => (a, b) :: adjacent_pairs r
  | _ => []
  end.

(** The body of the loop over the ranges, [try]/[catch] included. *)
Definition isoband_step (tile : HeightTile) (extent : Q) (data : list (list Q))
    (result : gmap string (list (list number))) (range : Z * Z)
    : gmap string (list (list number)) :=
  let (lowerLevel, upperLevel) := range in
  match isoBands data [lowerLevel] [upperLevel - lowerLevel]
                 (mkMSOptions true true) with
  | Some bands =>
      let polygons :=
        match bands with
        | (_ :: _) as paths :: _ => collect 6 (scale_of extent tile) paths
        | _ => []
        end in
      match polygons with
      | [] => result
      | _ => <[rangeKey lowerLevel upperLevel := polygons]> result
      end
  | None => result
  end.

Definition generateIsobands (levels : string + list Z) (tile : HeightTile)
    (extent : Q) : gmap string (list (list number)) :=
  let levelArray := levelArray_of levels in
  match levelArray with
  | [] => ∅
  | _ =>
      let sortedLevels := sort_levels levelArray in
      let data := tile_data tile in
      fold_left (isoband_step tile extent data) (adjacent_pairs sortedLevels) ∅
  end.

End marching_squares.

End Contour.

(* ================================================================== *)
(** ** The level string of [generateIsolinesMS] and [generateIsobands] *)
(* ================================================================== *)

(** The two generators for every number the engine has.  A level is a value
    of the engine's number type; [Number], [isNaN], [trim], the conversion of
    a number to a property key or into a template literal, [-] and the sort
    with the comparator [(a, b) => a - b] are the engine's own and are taken
    as they are.  The tile and the geometry are those of [Contour]. *)
Module Levels.
Import JS.

Section engine.
Variable number : Type.
Variable Number : string -> number.
Variable isNaN : number -> bool.
Variable trim : string -> string.
Variable ToString : number -> string.
Variable minus : number -> number -> number.
Variable sort : list number -> list number.

(** The two functions imported from the marching-squares package; [None]
    stands for a thrown exception. *)
Variable isoLines :
  list (list Q) -> list number -> Contour.MSOptions ->
  option (list (list (list Contour.Coord))).
Variable isoBands :
  list (list Q) -> list number -> list number -> Contour.MSOptions ->
  option (list (list (list Contour.Coord))).

(** [levels.split(",").map((s) => Number(s.trim())).filter((n) => !isNaN(n))] *)
Definition parse_levels (levels : string) : list number :=
  List.filter (fun n => negb (isNaN n))
              (map (fun s => Number (trim s)) (split "," levels)).

(** [levelArray]: the parsed string, or the array itself. *)
Definition levelArray_of (levels : string + list number) : list number :=
  match levels with
  | inl s => parse_levels s
  | inr l => l
  end.

(** The body of [for (const level of sortedLevels)], [try]/[catch] included;
    the key of [result[level]] is the level as a string. *)
Definition isoline_step (tile : Contour.HeightTile) (extent : Q)
    (data : list (list Q)) (result : gmap string (list (list JS.number)))
    (level : number) : gmap string (list (list JS.number)) :=
  match isoLines data [level] (Contour.mkMSOptions false true) with
  | Some linesResult =>
      let geometries :=
        match linesResult with
        | lines :: _ => Contour.collect 4 (Contour.scale_of extent tile) lines
        | [] => []
        end in
      match geometries with
      | [] => result
      | _ => <[ToString level := geometries]> result
      end
  | None => result
  end.

Definition generateIsolinesMS (levels : string + list number)
    (tile : Contour.HeightTile) (extent : Q)
    : gmap string (list (list JS.number)) :=
  let levelArray := levelArray_of levels in
  match levelArray with
  | [] => ∅
  | _ =>
      let sortedLevels := sort levelArray in
      let data := Contour.tile_data tile in
      fold_left (isoline_step tile extent data) sortedLevels ∅
  end.

(** [`${lowerLevel}:${upperLevel}`] *)
Definition rangeKey (lowerLevel upperLevel : number) : string :=
  ToString lowerLevel ++ ":" ++ ToString upperLevel.

(** The pairs [(sortedLevels[i], sortedLevels[i + 1])] for
    [0 <= i < sortedLevels.length - 1]. *)
Fixpoint adjacent_pairs (l : list number) : list (number * number) :=
  match l with
  | a :: ((b :: _) as r) => (a, b) :: adjacent_pairs r
  | _ => []
  end.

(** The body of the loop over the ranges, [try]/[catch] included. *)
Definition isoband_step (tile : Contour.HeightTile) (extent : Q)
    (data : list (list Q)) (result : gmap string (list (list JS.number)))
    (range : number * number) : gmap string (list (list JS.number)) :=
  let (lowerLevel, upperLevel) := range in
  match isoBands data [lowerLevel] [minus upperLevel lowerLevel]
                 (Contour.mkMSOptions true true) with
  | Some bands =>
      let polygons :=
        match bands with
        | (_ :: _) as paths :: _ =>
            Contour.collect 6 (Contour.scale_of extent tile) paths
        | _ => []
        end in
      match polygons with
      | [] => result
      | _ => <[rangeKey lowerLevel upperLevel := polygons]> result
      end
  | None => result
  end.

Definition generateIsobands (levels : string + list number)
    (tile : Contour.HeightTile) (extent : Q)
    : gmap string (list (list JS.number)) :=
  let levelArray := levelArray_of levels in
  match levelArray with
  | [] => ∅
  | _ =>
      let sortedLevels := sort levelArray in
      let data := Contour.tile_data tile in
      fold_left (isoband_step tile extent data) (adjacent_pairs sortedLevels) ∅
  end.

End engine.

End Levels.


(* ================================================================== *)
(** ** [withTimeout] and [onAbort] *)
(* ================================================================== *)

Module Abortable.

(** How a promise settled: with a value, or with [new Error(message)]. *)
Inductive outcome (T : Type) : Type :=
  | Fulfilled : T -> outcome T
  | Rejected : string -> outcome T.
Arguments Fulfilled {T} _.
Arguments Rejected {T} _.

(** What one call of [withTimeout] owns.  Between two events the promise
    reactions of the earlier one have run to completion. *)
Record state (T : Type) : Type := mkState {
  timeout : bool;                  (* the timer is pending: not fired, not cleared *)
  controller : option bool;        (* [abortController?]: its [signal.aborted] *)
  listener : bool;                 (* the action registered by [onAbort] *)
  cancelPromise : option string;   (* rejected with that message, else pending *)
  value : option (outcome T);      (* the promise passed in *)
  returned : option (outcome T)    (* [Promise.race([cancelPromise, value.finally(..)])] *)
}.
Arguments mkState {T} _ _ _ _ _ _.
Arguments timeout {T} _.
Arguments controller {T} _.
Arguments listener {T} _.
Arguments cancelPromise {T} _.
Arguments value {T} _.
Arguments returned {T} _.

(** What can happen after the call. *)
Inductive event (T : Type) : Type :=
  | TimerExpires : event T             (* [timeoutMs] have elapsed *)
  | AbortCalled : event T              (* somebody calls [abortController.abort()] *)
  | ValueSettles : outcome T -> event T.
Arguments TimerExpires {T}.
Arguments AbortCalled {T}.
Arguments ValueSettles {T} _.

Section with_T.
Context {T : Type}.

(** The race takes the outcome of whichever promise settles first. *)
Definition race_settle (o : outcome T) (st : state T) : state T :=
  match returned st with
  | Some _ => st
  | None => mkState (timeout st) (controller st) (listener st)
                    (cancelPromise st) (value st) (Some o)
  end.

(** [reject(new Error(message))], the [rej] of [cancelPromise]. *)
Definition reject (message : string) (st : state T) : state T :=
  match cancelPromise st with
  | Some _ => st
  | None =>
      race_settle (Rejected message)
        (mkState (timeout st) (controller st) (listener st)
                 (Some message) (value st) (returned st))
  end.

Definition clearTimeout (st : state T) : state T :=
  mkState false (controller st) (listener st) (cancelPromise st)
          (value st) (returned st).

(** The action given to [onAbort]. *)
Definition abort_action (st : state T) : state T :=
  clearTimeout (reject "aborted" st).

(** [abortController?.abort()]: the first call on a controller sets
    [signal.aborted] and dispatches the abort event to the listeners. *)
Definition abort (st : state T) : state T :=
  match controller st with
  | Some false =>
      let st' := mkState (timeout st) (Some true) (listener st)
                         (cancelPromise st) (value st) (returned st) in
      if listener st' then abort_action st' else st'
  | _ => st
  end.

(** The callback given to [setTimeout]. *)
Definition timeout_action (st : state T) : state T :=
  abort (reject "timed out" st).

(** [onAbort(abortController, action)]: the listener is added when there is
    a controller. *)
Definition onAbort (st : state T) : state T :=
  match controller st with
  | Some _ => mkState (timeout st) (controller st) true (cancelPromise st)
                      (value st) (returned st)
  | None => st
  end.

(** The state right after [withTimeout(timeoutMs, value, abortController)]
    returns; [aborted] is the controller's [signal.aborted] at that moment,
    [None] when no controller is passed. *)
Definition withTimeout (aborted : option bool) : state T :=
  onAbort (mkState true aborted false None None None).

Definition step (st : state T) (e : event T) : state T :=
  match e with
  | TimerExpires =>
      if timeout st
      then timeout_action (mkState false (controller st) (listener st)
                             (cancelPromise st) (value st) (returned st))
      else st
  | AbortCalled => abort st
  | ValueSettles o =>
      match value st with
      | Some _ => st
      | None =>
          race_settle o
            (clearTimeout (mkState (timeout st) (controller st) (listener st)
                             (cancelPromise st) (Some o) (returned st)))
      end
  end.

Definition run (st : state T) (trace : list (event T)) : state T :=
  fold_left step trace st.

End with_T.

End Abortable.

(* ================================================================== *)
(** ** The numbers of [generateJitteredGrid] *)
(* ================================================================== *)

(** The numbers of the grid are IEEE 754 binary64 values, the kernel's
    [float]: [+], [-], [*], [/], [<] and [<=] are the primitive operations.
    [Math.floor] and [%] are computed exactly on the mantissa and exponent
    that [Prim2SF] gives; both results are binary64 values. *)
Module Float64.
Import Floats.

Definition of_int (n : Z) : float := of_uint63 (Uint63.of_Z n).

(** [Math.floor(x)] *)
Definition Math_floor (x : float) : float :=
  match Prim2SF x with
  | S754_finite s m e =>
      if 0 <=? e then x
      else
        let n := Z.shiftr (Zpos m) (- e) in
        if s then
          if Z.shiftl n (- e) =? Zpos m then (- of_int n)%float
          else (- of_int (n + 1))%float
        else of_int n
  | _ => x
  end.

(** [x % y]: the remainder of the truncating division, with the sign of
    [x]. *)
Definition rem (x y : float) : float :=
  match Prim2SF x, Prim2SF y with
  | S754_nan, _ | _, S754_nan => nan
  | S754_infinity _, _ => nan
  | _, S754_zero _ => nan
  | S754_zero _, _ => x
  | _, S754_infinity _ => x
  | S754_finite sx mx ex, S754_finite _ my ey =>
      let e0 := Z.min ex ey in
      let r := (Z.shiftl (Zpos mx) (ex - e0)) mod (Z.shiftl (Zpos my) (ey - e0)) in
      let f := Z.ldexp (of_int r) e0 in
      if sx then (- f)%float else f
  end.

End Float64.

(* ================================================================== *)
(** ** [seededRandom] and [generateJitteredGrid] *)
(* ================================================================== *)

Module Spots.
Import Floats Float64.
Local Open Scope float_scope.

(** The variables captured by closures: every call of [seededRandom]
    creates a new variable [state]. *)
Abbreviation heap := (gmap nat float).

Definition point : Type := (float * float)%type.

(** A call of the closure whose [state] is the variable [l]. *)
Definition random (l : nat) (h : heap) : float * heap :=
  let state := default nan (h !! l) in
  let state' := rem (state * 1664525 + 1013904223) 4294967296 in
  (state' / 4294967296, <[l := state']> h).

(** [seededRandom(seed)]: the closure over a new variable. *)
Definition seededRandom (seed : float) (h : heap)
    : (heap -> float * heap) * heap :=
  let l := fresh (dom h) in
  (random l, <[l := seed]> h).

(** [for (let i = i0; i <= n; i++) body]; [None] when the loop has not
    ended after [fuel] rounds. *)
Fixpoint for_le {S : Type} (fuel : nat) (n : float)
    (body : float -> S -> option S) (i : float) (s : S) : option S :=
  if i <=? n then
    match fuel with
    | O => None
    | Datatypes.S fuel' =>
        match body i s with
        | Some s' => for_le fuel' n body (i + 1) s'
        | None => None
        end
    end
  else Some s.

Section grid.
Variables minx miny maxx maxy spacing : float.
Variable random : heap -> float * heap.

(** The body of the inner loop; the state is [points] and the heap. *)
Definition cell (i j : float) (s : list point * heap) : list point * heap :=
  let '(points, h) := s in
  let '(r1, h1) := random h in
  let dx := (r1 * spacing) / 2 in
  let '(r2, h2) := random h1 in
  let dy := (r2 * spacing) / 2 in
  let x := minx + i * spacing + dx + spacing / 4 in
  let y := miny + j * spacing + dy + spacing / 4 in
  if (x <? maxx) && (y <? maxy)
  then ((points ++ [(x, y)])%list, h2)
  else (points, h2).

End grid.

(** The points returned and the heap after the call; [None] when a loop has
    not ended after [fuel] rounds. *)
Definition generateJitteredGrid (fuel : nat)
    (minx miny maxx maxy spacing tileX tileY tileZ : float) (h : heap)
    : option (list point * heap) :=
  let nx := Math_floor ((maxx - minx) / spacing) in
  let ny := Math_floor ((maxy - miny) / spacing) in
  let seed := tileZ * 1000000 + tileX * 1000 + tileY in
  let '(random, h0) := seededRandom seed h in
  for_le fuel nx
    (fun i s =>
       for_le fuel ny
         (fun j s => Some (cell minx miny maxx maxy spacing random i j s)) 0 s)
    0 ([], h0).

End Spots.

(* ================================================================== *)
(** ** The vocabulary of the statements *)
(* ================================================================== *)

Section vocabulary.
Import JS Utils Contour.

(** *** Strings *)

(** The characters of a string all satisfy [P]. *)
Fixpoint all_chars (P : ascii -> bool) (s : string) : bool :=
  match s with
  | EmptyString => true
  | String a r => P a && all_chars P r
  end.

Definition is_digit (c : ascii) : bool :=
  match digit_of_char c with Some _ => true | None => false end.

Definition all_ascii : list ascii := map ascii_of_nat (seq 0 256).

Definition lacks (c : ascii) (s : string) : Prop :=
  all_chars (fun a => negb (Ascii.eqb a c)) s = true.

Definition is_num_char (c : ascii) : bool :=
  is_digit c || Ascii.eqb c "-" || Ascii.eqb c "N" || Ascii.eqb c "a".

(** The characters that [encodeURIComponent] can produce. *)
Definition is_uri_char (c : ascii) : bool :=
  is_unreserved c || Ascii.eqb c "%".

Definition encode_part (key : number) (values : list number) : string :=
  join "*" (ToString key :: map ToString values).

(** What the [switch] of [decodeOptions] makes of the string [s] read for
    the key [k]. *)
Definition decoded_value (k : string) (s : string) : value :=
  if String.eqb k "thresholds" then VMap (decodeThresholds s)
  else if String.eqb k "lineLevels" || String.eqb k "polygonLevels" then
    VMap (TArr <$> decodeLevels s)
  else if String.eqb k "extent" || String.eqb k "multiplier"
          || String.eqb k "overzoom" || String.eqb k "buffer" then
    VNum (Number s)
  else VStr s.


(** *** Level resolution *)

(** [r] is what a level map holds at its largest zoom key that is at most
    [zoom]; [None] when the map is absent or has no such key. *)
Definition selected {W} (m : option (gmap number W)) (zoom : Z) (r : option W) : Prop :=
  match r with
  | Some w =>
      exists m' k, m = Some m' /\ m' !! Int k = Some w /\ k <= zoom /\
        forall k', is_Some (m' !! Int k') -> k' <= zoom -> k' <= k
  | None =>
      forall m' k', m = Some m' -> is_Some (m' !! Int k') -> zoom < k'
  end.


(** What the loop knows after the entries [seen]. *)
Definition scan_inv {W V} (conv : W -> V) (zoom : Z) (init : V)
    (seen : list (number * W)) (st : option Z * V) : Prop :=
  match st.1 with
  | None =>
      st.2 = init /\ forall k w, (Int k, w) ∈ seen -> zoom < k
  | Some k =>
      k <= zoom /\ (exists w, (Int k, w) ∈ seen /\ st.2 = conv w) /\
      forall k' w', (Int k', w') ∈ seen -> k' <= zoom -> k' <= k
  end.


(** *** Contour geometries *)

(** A flat array that holds the two coordinates of each of at least [n]
    points. *)
Definition has_points (n : nat) (g : list number) : Prop :=
  (2 * n <= length g)%nat /\
  exists scale line, g = flatten_scaled scale line /\ (n <= length line)%nat.

(** An entry of a result: a non-empty list of arrays of at least [n] points. *)
Definition entry_ok (n : nat) (geometries : list (list number)) : Prop :=
  geometries <> [] /\ Forall (has_points n) geometries.


(** A stand-in for the marching-squares functions, to run the generators:
    one triangle whatever the data. *)
Definition one_triangle : list (list (list Coord)) :=
  [[[(0, 0); (1, 0); (0, 1)]%Q]].

End vocabulary.

(** *** The options on which the codec round-trips *)

Definition level_keys : list string :=
  ["thresholds"; "lineLevels"; "polygonLevels"].

(** The keys that [decodeOptions] converts back with [Number]. *)
Definition numeric_keys : list string :=
  ["extent"; "multiplier"; "overzoom"; "buffer"].

Definition is_array (v : Utils.tvalue) : bool :=
  match v with Utils.TArr _ => true | Utils.TNum _ => false end.

Definition is_number (v : Utils.scalar) : bool :=
  match v with Utils.SNum _ => true | Utils.SStr _ => false end.

(** Every thresholds entry is an array; a level map that is present has an
    entry; the other fields are the numbers [extent], [multiplier],
    [overzoom], [buffer] and strings under any other name; and at least one
    field is present. *)
Definition round_trip_domain (o : Utils.GlobalContourTileOptions) : Prop :=
  match Utils.thresholds o with
  | Some t => t <> ∅ /\ map_Forall (fun _ v => is_array v = true) t
  | None => True
  end /\
  match Utils.lineLevels o with Some l => l <> ∅ | None => True end /\
  match Utils.polygonLevels o with Some l => l <> ∅ | None => True end /\
  map_Forall (fun k v => (k ∉ level_keys) /\
                         is_number v = bool_decide (k ∈ numeric_keys))
             (Utils.rest o) /\
  Utils.encoded_object o <> ∅.

#[global] Instance round_trip_domain_dec o : Decision (round_trip_domain o).
Proof.
  unfold round_trip_domain.
  destruct (Utils.thresholds o), (Utils.lineLevels o), (Utils.polygonLevels o);
    apply _.
Defined.

Definition bathymetry_options : Utils.GlobalContourTileOptions :=
  Utils.mkGlobal
    None
    (Some {[ JS.Int 11 := [JS.Int (-100); JS.Int (-75); JS.Int 0] ]})
    (Some {[ JS.Int 9 := [JS.Int (-100); JS.Int 0];
             JS.Int 11 := [JS.Int (-100); JS.Int (-50); JS.Int 0] ]})
    {[ "extent" := Utils.SNum (JS.Int 4096);
       "polygonLayer" := Utils.SStr "depth & area=1" ]}.

Definition scalar_threshold_options : Utils.GlobalContourTileOptions :=
  Utils.mkGlobal (Some {[ JS.Int 11 := Utils.TNum (JS.Int 50) ]}) None None ∅.


(** *** Further vocabulary *)

(** The event is a call of [abortController.abort()]. *)
Definition is_abort {T} (e : Abortable.event T) : bool :=
  match e with Abortable.AbortCalled => true | _ => false end.

(** Where the outcome [r] of the promise returned by [withTimeout] can come
    from, for a controller in the state [c] at the call and the events
    [trace] after it. *)
Definition outcome_source {T} (c : option bool) (trace : list (Abortable.event T))
    (r : Abortable.outcome T) : Prop :=
  (r = Abortable.Rejected "aborted" /\ c = Some false
   /\ In Abortable.AbortCalled trace)
  \/ (r = Abortable.Rejected "timed out" /\ In Abortable.TimerExpires trace)
  \/ In (Abortable.ValueSettles r) trace.

(** The source of the outcome, as an invariant of the state. *)
Definition source_inv {T} (c : option bool) (seen : list (Abortable.event T))
    (st : Abortable.state T) : Prop :=
  (Abortable.controller st = Some false -> c = Some false)
  /\ (Abortable.listener st = true -> Abortable.controller st <> None)
  /\ forall r, Abortable.returned st = Some r -> outcome_source c seen r.


(** What [generateIsolinesMS] stores for one level: the lines that survive,
    if the call of [isoLines] returns and some line survives. *)
Definition isoline_entry
    (isoLines : list (list Q) -> list Z -> Contour.MSOptions ->
                option (list (list (list Contour.Coord))))
    (tile : Contour.HeightTile) (extent : Q) (level : Z)
    : option (list (list JS.number)) :=
  match isoLines (Contour.tile_data tile) [level] (Contour.mkMSOptions false true) with
  | Some (lines :: _) =>
      match Contour.collect 4 (Contour.scale_of extent tile) lines with
      | [] => None
      | geometries => Some geometries
      end
  | _ => None
  end.

(** What [generateIsobands] stores for one range. *)
Definition isoband_entry
    (isoBands : list (list Q) -> list Z -> list Z -> Contour.MSOptions ->
                option (list (list (list Contour.Coord))))
    (tile : Contour.HeightTile) (extent : Q) (range : Z * Z)
    : option (list (list JS.number)) :=
  match isoBands (Contour.tile_data tile) [range.1] [range.2 - range.1]
                 (Contour.mkMSOptions true true) with
  | Some (((_ :: _) as paths) :: _) =>
      match Contour.collect 6 (Contour.scale_of extent tile) paths with
      | [] => None
      | polygons => Some polygons
      end
  | _ => None
  end.

(** No zoom key of the level map lies above [z1] and at most at [z2]. *)
Definition no_key_between {W} (m : option (gmap JS.number W)) (z1 z2 : Z) : Prop :=
  forall m' k, m = Some m' -> is_Some (m' !! JS.Int k) -> ~ (z1 < k <= z2).

(** *** The level string *)

(** The number [n] is that of an entry of the level string [s], and is not
    [NaN]: an entry that is kept. *)
Definition kept_entry {number : Type} (Number : string -> number)
    (isNaN : number -> bool) (trim : string -> string) (s : string)
    (n : number) : Prop :=
  exists e, In e (JS.split "," s) /\ Number (trim e) = n /\ isNaN n = false.

(** What [generateIsolinesMS] stores for one level of the engine's numbers:
    the lines that survive, if the call of [isoLines] returns and some line
    survives. *)
Definition line_entry {number : Type}
    (isoLines : list (list Q) -> list number -> Contour.MSOptions ->
                option (list (list (list Contour.Coord))))
    (tile : Contour.HeightTile) (extent : Q) (level : number)
    : option (list (list JS.number)) :=
  match isoLines (Contour.tile_data tile) [level] (Contour.mkMSOptions false true) with
  | Some (lines :: _) =>
      match Contour.collect 4 (Contour.scale_of extent tile) lines with
      | [] => None
      | geometries => Some geometries
      end
  | _ => None
  end.

(** An engine to run the level string on: the numbers of [JS] with their
    conversions, sorted by value with [NaN] anywhere. *)
Definition number_leb (a b : JS.number) : bool :=
  match a, b with
  | JS.Int x, JS.Int y => x <=? y
  | _, _ => true
  end.

Definition number_minus (a b : JS.number) : JS.number :=
  match a, b with
  | JS.Int x, JS.Int y => JS.Int (x - y)
  | _, _ => JS.NaN
  end.

Definition sort_numbers (l : list JS.number) : list JS.number :=
  merge_sort (fun a b => Is_true (number_leb a b)) l.

(** *** Binary64 numbers *)

Section float_vocabulary.
Import Floats.

Definition sign_false (x : spec_float) : Prop :=
  match x with
  | S754_nan => False
  | S754_zero s | S754_infinity s | S754_finite s _ _ => s = false
  end.

Definition rank (x : spec_float) : Z * Z * Z :=
  match x with
  | S754_infinity true => (-2, 0, 0)
  | S754_finite true m e => (-1, - e, - Zpos m)
  | S754_zero _ => (0, 0, 0)
  | S754_finite false m e => (1, e, Zpos m)
  | S754_infinity false => (2, 0, 0)
  | S754_nan => (3, 0, 0)
  end.

Definition lex_le (a b : Z * Z * Z) : Prop :=
  a.1.1 < b.1.1
  \/ (a.1.1 = b.1.1 /\ (a.1.2 < b.1.2 \/ (a.1.2 = b.1.2 /\ a.2 <= b.2))).

Definition lex_lt (a b : Z * Z * Z) : Prop :=
  a.1.1 < b.1.1
  \/ (a.1.1 = b.1.1 /\ (a.1.2 < b.1.2 \/ (a.1.2 = b.1.2 /\ a.2 < b.2))).

(** The number is not negative: [NaN] or a number whose sign bit is clear. *)
Definition nonneg (x : spec_float) : Prop :=
  match x with
  | S754_nan => True
  | S754_zero s | S754_infinity s | S754_finite s _ _ => s = false
  end.

(** The same, or [-0]. *)
Definition ge0 (x : spec_float) : Prop :=
  match x with
  | S754_nan | S754_zero _ => True
  | S754_infinity s | S754_finite s _ _ => s = false
  end.

(** The first [n] numbers that a generator returns, from the heap [h]. *)
Fixpoint random_stream (n : nat) (random : Spots.heap -> float * Spots.heap)
    (h : Spots.heap) : list float :=
  match n with
  | O => []
  | S n' => (random h).1 :: random_stream n' random (random h).2
  end.

End float_vocabulary.

(* ================================================================== *)
(** ** Facts about the JavaScript primitives *)
(* ================================================================== *)

Section js_facts.
Import JS.

(** *** Characters *)

Lemma N_of_ascii_of_N (n : N) : (n < 256)%N -> N_of_ascii (ascii_of_N n) = n.
Proof. apply N_ascii_embedding. Qed.

Lemma digit_of_digit_char (d : N) : (d < 10)%N -> digit_of_char (digit_char d) = Some d.
Proof.
  intros Hd. unfold digit_of_char, digit_char.
  rewrite N_of_ascii_of_N by lia.
  replace ((48 <=? 48 + d)%N) with true by (symmetry; apply N.leb_le; lia).
  replace ((48 + d <=? 57)%N) with true by (symmetry; apply N.leb_le; lia).
  cbn. f_equal. lia.
Qed.

Lemma all_chars_app (P : ascii -> bool) (s t : string) :
  all_chars P (s ++ t) = all_chars P s && all_chars P t.
Proof.
  induction s as [|a s IH]; [done|].
  change (String a s ++ t) with (String a (s ++ t)).
  cbn [all_chars]. by rewrite IH, andb_assoc.
Qed.

Lemma all_chars_weaken (P Q : ascii -> bool) (s : string) :
  (forall c, P c = true -> Q c = true) ->
  all_chars P s = true -> all_chars Q s = true.
Proof.
  intros HPQ. induction s as [|a s IH]; cbn; [done|].
  intros [Ha Hs]%andb_true_iff. rewrite (HPQ _ Ha). cbn. auto.
Qed.

(** *** Decimal digits of a natural number *)

Lemma lsd_digits_value (fuel : nat) (n : N) :
  (n < 2 ^ N.of_nat fuel)%N ->
  fold_right (fun d v => (v * 10 + d)%N) 0%N (lsd_digits fuel n) = n.
Proof.
  revert n. induction fuel as [|f IH]; intros n Hn.
  - cbn in Hn. cbn. lia.
  - cbn [lsd_digits]. destruct (N.eqb_spec (n / 10) 0) as [E|E].
    + cbn. pose proof (N.div_mod n 10 ltac:(lia)). lia.
    + cbn [fold_right]. rewrite IH.
      * pose proof (N.div_mod n 10 ltac:(lia)). lia.
      * rewrite Nat2N.inj_succ, N.pow_succ_r' in Hn.
        apply N.Div0.div_lt_upper_bound.
        lia.
Qed.

Lemma lsd_digits_small (fuel : nat) (n : N) :
  Forall (fun d => (d < 10)%N) (lsd_digits fuel n).
Proof.
  revert n. induction fuel as [|f IH]; intros n; cbn; [constructor|].
  constructor; [apply N.mod_lt; lia|].
  destruct (n / 10 =? 0)%N; [constructor|apply IH].
Qed.

Lemma N_lt_pow2_log2 (n : N) : (n < 2 ^ N.of_nat (S (N.to_nat (N.log2 n))))%N.
Proof.
  rewrite Nat2N.inj_succ, N2Nat.id.
  destruct n as [|p]; [cbn; lia|].
  apply N.log2_spec. lia.
Qed.

Lemma digits_of_N_value (n : N) :
  fold_left (fun v d => (v * 10 + d)%N) (digits_of_N n) 0%N = n.
Proof.
  unfold digits_of_N. rewrite <- fold_left_rev_right, rev_involutive.
  apply lsd_digits_value, N_lt_pow2_log2.
Qed.

Lemma digits_of_N_small (n : N) : Forall (fun d => (d < 10)%N) (digits_of_N n).
Proof.
  unfold digits_of_N. apply Forall_forall. intros d Hd.
  apply list_elem_of_In, in_rev, list_elem_of_In in Hd.
  revert d Hd. apply Forall_forall, lsd_digits_small.
Qed.

Lemma digits_of_N_nonempty (n : N) : digits_of_N n <> [].
Proof.
  unfold digits_of_N. cbn [lsd_digits]. intros H.
  apply (f_equal (@length N)) in H. rewrite length_rev in H. cbn in H. lia.
Qed.

Lemma digits_val_chars (ds : list N) (acc : N) :
  Forall (fun d => (d < 10)%N) ds ->
  digits_val acc (string_of_chars (map digit_char ds))
  = Some (fold_left (fun v d => (v * 10 + d)%N) ds acc).
Proof.
  intros H. revert acc. induction H as [|d ds Hd _ IH]; intros acc; cbn; [done|].
  rewrite digit_of_digit_char by done. apply IH.
Qed.

Lemma all_chars_digits (ds : list N) :
  Forall (fun d => (d < 10)%N) ds ->
  all_chars is_digit (string_of_chars (map digit_char ds)) = true.
Proof.
  induction 1 as [|d ds Hd _ IH]; cbn; [done|].
  unfold is_digit at 1. rewrite digit_of_digit_char by done. done.
Qed.

Lemma N_to_string_digits (n : N) : all_chars is_digit (N_to_string n) = true.
Proof. apply all_chars_digits, digits_of_N_small. Qed.

Lemma N_to_string_nonempty (n : N) : N_to_string n <> EmptyString.
Proof.
  unfold N_to_string. pose proof (digits_of_N_nonempty n).
  by destruct (digits_of_N n).
Qed.

Lemma unsigned_val_N_to_string (n : N) : unsigned_val (N_to_string n) = Some n.
Proof.
  pose proof (N_to_string_nonempty n) as Hne.
  unfold unsigned_val. destruct (N_to_string n) eqn:E; [done|]. rewrite <- E.
  unfold N_to_string. rewrite digits_val_chars by apply digits_of_N_small.
  by rewrite digits_of_N_value.
Qed.

(** *** [trim] *)

Lemma trimEnd_id (s : string) :
  all_chars (fun c => negb (is_ws c)) s = true -> trimEnd s = s.
Proof.
  induction s as [|a s IH]; cbn; [done|].
  intros [Ha Hs]%andb_true_iff. rewrite (IH Hs).
  apply negb_true_iff in Ha. rewrite Ha. by destruct s.
Qed.

Lemma trim_id (s : string) :
  all_chars (fun c => negb (is_ws c)) s = true -> trim s = s.
Proof.
  intros H. unfold trim.
  assert (trimStart s = s) as ->; [|by apply trimEnd_id].
  destruct s as [|a s]; cbn in *; [done|].
  apply andb_true_iff in H as [Ha _]. apply negb_true_iff in Ha. by rewrite Ha.
Qed.

Lemma is_digit_range (c : ascii) :
  is_digit c = true -> (48 <= N_of_ascii c <= 57)%N.
Proof.
  unfold is_digit, digit_of_char.
  destruct (48 <=? N_of_ascii c)%N eqn:E1; [|done].
  destruct (N_of_ascii c <=? 57)%N eqn:E2; [|done].
  intros _. apply N.leb_le in E1, E2. lia.
Qed.

Lemma ascii_eqb_N (a b : ascii) :
  Ascii.eqb a b = (N_of_ascii a =? N_of_ascii b)%N.
Proof.
  destruct (Ascii.eqb_spec a b) as [->|Hne].
  - by rewrite N.eqb_refl.
  - symmetry. apply N.eqb_neq. intros H. apply Hne.
    by rewrite <- (ascii_N_embedding a), <- (ascii_N_embedding b), H.
Qed.

Lemma is_digit_not_ws (c : ascii) : is_digit c = true -> negb (is_ws c) = true.
Proof.
  intros H%is_digit_range. unfold is_ws.
  apply negb_true_iff, orb_false_iff. split.
  - apply andb_false_iff. right. apply N.leb_gt. lia.
  - apply N.eqb_neq. lia.
Qed.

(** *** [Number(ToString(n))] *)

Theorem Number_ToString (n : number) : Number (ToString n) = n.
Proof.
  destruct n as [|z]; [reflexivity|].
  unfold ToString. pose proof (N_to_string_digits (Z.abs_N z)) as Hd.
  pose proof (N_to_string_nonempty (Z.abs_N z)) as Hne.
  pose proof (unsigned_val_N_to_string (Z.abs_N z)) as Hv.
  assert (Hws : all_chars (fun c => negb (is_ws c)) (N_to_string (Z.abs_N z)) = true).
  { eapply all_chars_weaken; [apply is_digit_not_ws|exact Hd]. }
  destruct (Z.ltb_spec z 0) as [Hz|Hz]; unfold Number.
  - rewrite trim_id by (cbn [all_chars]; by rewrite Hws).
    rewrite Ascii.eqb_refl, Hv. f_equal. lia.
  - rewrite trim_id by done.
    destruct (N_to_string (Z.abs_N z)) as [|c r] eqn:E; [done|].
    cbn in Hd. apply andb_true_iff in Hd as [Hc _].
    apply is_digit_range in Hc.
    rewrite !ascii_eqb_N.
    replace (N_of_ascii c =? N_of_ascii "-")%N with false
      by (symmetry; apply N.eqb_neq; cbn; lia).
    replace (N_of_ascii c =? N_of_ascii "+")%N with false
      by (symmetry; apply N.eqb_neq; cbn; lia).
    rewrite Hv. f_equal. lia.
Qed.

Lemma ToString_inj (m n : number) : ToString m = ToString n -> m = n.
Proof. intros H. by rewrite <- (Number_ToString m), <- (Number_ToString n), H. Qed.

End js_facts.

Section string_facts.
Import JS.

(** *** Checking a property on every character *)

Lemma ascii_forall (P : ascii -> bool) :
  forallb P all_ascii = true -> forall a, P a = true.
Proof.
  intros H a. rewrite forallb_forall in H. apply H.
  unfold all_ascii. apply in_map_iff. exists (nat_of_ascii a).
  split; [apply ascii_nat_embedding|].
  apply in_seq. pose proof (nat_ascii_bounded a). lia.
Qed.

(** *** [split] and [join] *)

Lemma split_ne_lacks (c : ascii) (s : string) :
  lacks c s -> split_ne c s = (s, []).
Proof.
  unfold lacks. induction s as [|a s IH]; cbn; [done|].
  intros [Ha Hs]%andb_true_iff. rewrite (IH Hs).
  apply negb_true_iff in Ha. by rewrite Ha.
Qed.

Lemma split_ne_app (c : ascii) (p r : string) :
  lacks c p ->
  split_ne c (p ++ String c r) = (p, (split_ne c r).1 :: (split_ne c r).2).
Proof.
  unfold lacks. induction p as [|a p IH].
  - intros _. change (EmptyString ++ String c r) with (String c r).
    cbn [split_ne]. destruct (split_ne c r) as [h t]. by rewrite Ascii.eqb_refl.
  - change (String a p ++ String c r) with (String a (p ++ String c r)).
    cbn [all_chars split_ne]. intros [Ha Hp]%andb_true_iff.
    rewrite (IH Hp). apply negb_true_iff in Ha. by rewrite Ha.
Qed.

Lemma split_ne_join (c : ascii) (p : string) (ps : list string) :
  Forall (lacks c) (p :: ps) ->
  split_ne c (join (String c EmptyString) (p :: ps)) = (p, ps).
Proof.
  revert p. induction ps as [|q ps IH]; intros p H.
  - cbn [join]. apply split_ne_lacks. by inversion H.
  - change (join (String c EmptyString) (p :: q :: ps))
      with (p ++ String c EmptyString ++ join (String c EmptyString) (q :: ps)).
    change (String c EmptyString ++ ?s) with (String c s).
    inversion H as [|? ? Hp Hrest]; subst.
    rewrite split_ne_app by done. by rewrite (IH q Hrest).
Qed.

Lemma split_join (c : ascii) (parts : list string) :
  parts <> [] -> Forall (lacks c) parts ->
  split c (join (String c EmptyString) parts) = parts.
Proof.
  destruct parts as [|p ps]; [done|]. intros _ H.
  unfold split. by rewrite split_ne_join.
Qed.

Lemma lacks_app (c : ascii) (s t : string) :
  lacks c s -> lacks c t -> lacks c (s ++ t).
Proof. unfold lacks. rewrite all_chars_app. intros -> ->. done. Qed.

Lemma lacks_join (c : ascii) (sep : string) (parts : list string) :
  lacks c sep -> Forall (lacks c) parts -> lacks c (join sep parts).
Proof.
  intros Hsep. induction 1 as [|p ps Hp Hps IH]; [done|].
  destruct ps as [|q ps]; [done|].
  change (join sep (p :: q :: ps)) with (p ++ sep ++ join sep (q :: ps)).
  auto using lacks_app.
Qed.

(** *** The characters of [ToString] *)

Lemma ToString_chars (n : number) : all_chars is_num_char (ToString n) = true.
Proof.
  assert (Hd : forall m, all_chars is_num_char (N_to_string m) = true).
  { intros m. eapply all_chars_weaken; [|apply N_to_string_digits].
    intros c Hc. unfold is_num_char. by rewrite Hc. }
  destruct n as [|z]; [reflexivity|]. unfold ToString.
  destruct (z <? 0); [|apply Hd]. cbn [all_chars]. by rewrite Hd.
Qed.

Lemma num_char_lacks (c : ascii) (s : string) :
  is_num_char c = false -> all_chars is_num_char s = true -> lacks c s.
Proof.
  intros Hc. apply all_chars_weaken. intros a Ha.
  apply negb_true_iff. destruct (Ascii.eqb_spec a c) as [->|]; congruence.
Qed.

Lemma ToString_lacks (c : ascii) (n : number) :
  is_num_char c = false -> lacks c (ToString n).
Proof. intros Hc. apply (num_char_lacks _ _ Hc), ToString_chars. Qed.

(** *** [encodeURIComponent] and [decodeURIComponent] *)

Lemma encodeURIComponent_app (s t : string) :
  encodeURIComponent (s ++ t) = encodeURIComponent s ++ encodeURIComponent t.
Proof.
  induction s as [|a s IH]; [done|].
  change (String a s ++ t) with (String a (s ++ t)).
  cbn [encodeURIComponent]. rewrite IH. by destruct (is_unreserved a).
Qed.

Lemma encode_char_chars :
  forall a, all_chars is_uri_char (encodeURIComponent (String a EmptyString)) = true.
Proof. apply ascii_forall. by vm_compute. Qed.

Lemma encodeURIComponent_chars (s : string) :
  all_chars is_uri_char (encodeURIComponent s) = true.
Proof.
  induction s as [|a s IH]; [done|].
  change (String a s) with (String a EmptyString ++ s).
  by rewrite encodeURIComponent_app, all_chars_app, encode_char_chars, IH.
Qed.

Lemma encodeURIComponent_lacks (c : ascii) (s : string) :
  is_uri_char c = false -> lacks c (encodeURIComponent s).
Proof.
  intros Hc. eapply all_chars_weaken; [|apply encodeURIComponent_chars].
  intros a Ha. apply negb_true_iff.
  destruct (Ascii.eqb_spec a c) as [->|]; congruence.
Qed.

Lemma unreserved_not_percent :
  forall a, implb (is_unreserved a) (negb (Ascii.eqb a "%")) = true.
Proof. apply ascii_forall. by vm_compute. Qed.

Lemma hex_roundtrip :
  forall a,
    match hex_val (hex_char (N_of_ascii a / 16)),
          hex_val (hex_char (N_of_ascii a mod 16)) with
    | Some x, Some y => Ascii.eqb (ascii_of_N (16 * x + y)) a
    | _, _ => false
    end = true.
Proof. apply ascii_forall. by vm_compute. Qed.

Theorem decode_encodeURIComponent (s : string) :
  decodeURIComponent (encodeURIComponent s) = Some s.
Proof.
  induction s as [|a s IH]; [done|]. cbn [encodeURIComponent].
  destruct (is_unreserved a) eqn:Ea.
  - pose proof (unreserved_not_percent a) as H. rewrite Ea in H. cbn in H.
    apply negb_true_iff in H. cbn [decodeURIComponent]. by rewrite H, IH.
  - cbn [decodeURIComponent]. rewrite Ascii.eqb_refl.
    pose proof (hex_roundtrip a) as H.
    destruct (hex_val (hex_char (N_of_ascii a / 16))) as [x|]; [|done].
    destruct (hex_val (hex_char (N_of_ascii a mod 16))) as [y|]; [|done].
    apply Ascii.eqb_eq in H. by rewrite IH, H.
Qed.

(** Every unreserved character is a number character or not; the number
    characters are unreserved, so [encodeURIComponent] leaves numbers alone. *)
Lemma num_char_unreserved :
  forall a, implb (is_num_char a) (is_unreserved a) = true.
Proof. apply ascii_forall. by vm_compute. Qed.

(** *** [strip_query] *)

Lemma strip_query_lacks (s : string) : lacks "?" s -> strip_query s = s.
Proof.
  intros H. unfold strip_query.
  assert (after_last_question s = None) as ->; [|done].
  induction s as [|a s IH]; [done|]. cbn in H |- *.
  apply andb_true_iff in H as [Ha Hs]. rewrite (IH Hs).
  apply negb_true_iff in Ha. rewrite Ha. by destruct (is_line_terminator a).
Qed.

(** *** [mapM] over a mapped list *)

Lemma mapM_map_Some {A B C} (f : B -> option C) (g : A -> B) (h : A -> C)
    (l : list A) :
  (forall x, x ∈ l -> f (g x) = Some (h x)) ->
  mapM f (map g l) = Some (map h l).
Proof.
  induction l as [|x l IH]; intros H; [done|]. cbn.
  rewrite (H x) by (by left). cbn. rewrite IH; [done|].
  intros y Hy. apply H. by right.
Qed.

End string_facts.

(* ================================================================== *)
(** ** The option codec *)
(* ================================================================== *)

Section codec_facts.
Import JS Utils.

(** *** [Object.fromEntries] of entries with distinct keys *)

Lemma fromEntries_snoc {K V} `{Countable K} (l : list (K * V)) (kv : K * V) :
  fromEntries (l ++ [kv]) = <[kv.1 := kv.2]> (fromEntries l).
Proof. unfold fromEntries. by rewrite fold_left_app. Qed.

Lemma fromEntries_rev {K V} `{Countable K} (l : list (K * V)) :
  fromEntries l = list_to_map (rev l).
Proof.
  induction l as [|kv l IH] using rev_ind; [done|].
  rewrite fromEntries_snoc, rev_unit, IH. by destruct kv.
Qed.

Lemma fromEntries_perm {K V} `{Countable K} (l l' : list (K * V)) :
  NoDup (l'.*1) -> l ≡ₚ l' -> fromEntries l = list_to_map l'.
Proof.
  intros Hnd Hp. rewrite fromEntries_rev. symmetry.
  apply list_to_map_proper; [done|]. by rewrite Hp, <- Permutation_rev.
Qed.

Lemma sortedEntries_perm {V} (l : list (string * V)) : sortedEntries l ≡ₚ l.
Proof. apply merge_sort_Permutation. Qed.

(** *** One [key*value*...] part *)

Lemma star_not_num_char : is_num_char "*" = false.
Proof. reflexivity. Qed.

Lemma tilde_not_num_char : is_num_char "~" = false.
Proof. reflexivity. Qed.

Lemma decode_encode_part (key : number) (values : list number) :
  decode_part (encode_part key values) = (key, values).
Proof.
  unfold decode_part, encode_part.
  rewrite (split_ne_join "*").
  - rewrite Number_ToString, map_map. f_equal.
    rewrite <- (map_id values) at 2. apply map_ext. apply Number_ToString.
  - change (Forall (lacks "*") (map ToString (key :: values))).
    apply Forall_forall. intros s Hs.
    apply list_elem_of_In, in_map_iff in Hs as (n & <- & _).
    apply ToString_lacks, star_not_num_char.
Qed.

Lemma encode_part_lacks (c : ascii) (key : number) (values : list number) :
  is_num_char c = false -> Ascii.eqb "*" c = false ->
  lacks c (encode_part key values).
Proof.
  intros Hc Hstar. apply lacks_join.
  - unfold lacks. cbn [all_chars]. by rewrite Hstar.
  - change (Forall (lacks c) (map ToString (key :: values))).
    apply Forall_forall. intros s Hs.
    apply list_elem_of_In, in_map_iff in Hs as (n & <- & _).
    by apply ToString_lacks.
Qed.

(** *** A whole level map *)

(** The shape shared by [encodeThresholds]/[decodeThresholds] and
    [encodeLevels]/[decodeLevels]: [numbers] lists the numbers written for a
    value, [mk] builds the value read back. *)
Lemma decode_encode_map {W W'} (numbers : W -> list number)
    (mk : list number -> W') (m : gmap number W) :
  m <> ∅ ->
  fromEntries
    (map (fun part => ((decode_part part).1, mk (decode_part part).2))
       (split "~"
          (join "~"
             (map (fun kv => join "*" (kv.1 :: map ToString (numbers kv.2)))
                  (sortedEntries (entries_of m))))))
  = (fun w => mk (numbers w)) <$> m.
Proof.
  intros Hne.
  set (L := sortedEntries (entries_of m)).
  assert (HL : L ≡ₚ entries_of m) by apply sortedEntries_perm.
  assert (Hkeys : Forall (fun kv => exists k, kv.1 = ToString k) L).
  { rewrite HL. unfold entries_of. apply Forall_forall. intros kv Hkv.
    apply list_elem_of_In, in_map_iff in Hkv as (e & <- & _). by exists e.1. }
  assert (HLne : L <> []).
  { intros E. rewrite E in HL. symmetry in HL. apply Permutation_nil_r in HL.
    unfold entries_of in HL. apply map_eq_nil in HL.
    by apply map_to_list_empty_iff in HL. }
  rewrite (split_join "~").
  - rewrite map_map.
    assert (Hmap :
      map (fun kv => ((decode_part (join "*" (kv.1 :: map ToString (numbers kv.2)))).1,
                      mk (decode_part (join "*" (kv.1 :: map ToString (numbers kv.2)))).2)) L
      = map (fun kv => (Number kv.1, mk (numbers kv.2))) L).
    { apply map_ext_in. intros kv Hkv.
      apply list_elem_of_In in Hkv.
      rewrite Forall_forall in Hkeys. destruct (Hkeys _ Hkv) as [k Hk].
      rewrite Hk. change (join "*" (ToString k :: map ToString (numbers kv.2)))
        with (encode_part k (numbers kv.2)).
      by rewrite decode_encode_part, Number_ToString. }
    rewrite Hmap.
    rewrite (fromEntries_perm _
               (prod_map id (fun w => mk (numbers w)) <$> map_to_list m)).
    + by rewrite list_to_map_fmap, list_to_map_to_list.
    + rewrite <- list_fmap_compose.
      replace (fst ∘ prod_map id (fun w => mk (numbers w)))
        with (@fst number W) by done.
      apply NoDup_fst_map_to_list.
    + rewrite HL. unfold entries_of. rewrite map_map.
      erewrite map_ext; [reflexivity|].
      intros [k w]. cbn. by rewrite Number_ToString.
  - intros E. apply map_eq_nil in E. done.
  - apply Forall_forall. intros s Hs.
    apply list_elem_of_In, in_map_iff in Hs as (kv & <- & Hkv).
    apply list_elem_of_In in Hkv.
    rewrite Forall_forall in Hkeys. destruct (Hkeys _ Hkv) as [k Hk].
    rewrite Hk. apply (encode_part_lacks "~" k (numbers kv.2)); reflexivity.
Qed.

Theorem decode_encodeLevels (m : gmap number (list number)) :
  m <> ∅ -> decodeLevels (encodeLevels m) = m.
Proof.
  intros Hne. unfold decodeLevels, encodeLevels.
  pose proof (decode_encode_map id id m Hne) as H. cbn [id] in H.
  rewrite map_fmap_id in H. rewrite <- H at 2.
  f_equal. apply map_ext. intros part. by destruct (decode_part part).
Qed.

Theorem decode_encodeThresholds (m : gmap number tvalue) :
  m <> ∅ -> map_Forall (fun _ v => exists l, v = TArr l) m ->
  decodeThresholds (encodeThresholds m) = m.
Proof.
  intros Hne Harr. unfold decodeThresholds, encodeThresholds.
  pose proof (decode_encode_map threshold_numbers TArr m Hne) as H.
  transitivity ((fun w => TArr (threshold_numbers w)) <$> m).
  - rewrite <- H. f_equal. apply map_ext. intros part. by destruct (decode_part part).
  - apply map_eq. intros k. rewrite lookup_fmap.
    destruct (m !! k) as [v|] eqn:E; [|done].
    destruct (Harr _ _ E) as [l ->]. done.
Qed.

End codec_facts.

Section options_facts.
Import JS Utils.

Lemma equals_not_uri_char : is_uri_char "=" = false.
Proof. reflexivity. Qed.

Lemma ampersand_not_uri_char : is_uri_char "&" = false.
Proof. reflexivity. Qed.

Lemma question_not_uri_char : is_uri_char "?" = false.
Proof. reflexivity. Qed.

Lemma decode_encode_entry (kv : string * scalar) :
  decode_entry (encode_entry kv)
  = Some (kv.1, decoded_value kv.1 (scalar_to_string kv.2)).
Proof.
  destruct kv as [k sv]. unfold decode_entry, encode_entry. cbn [fst snd].
  change ("=" ++ ?s) with (String "=" s).
  rewrite split_ne_app by apply encodeURIComponent_lacks, equals_not_uri_char.
  rewrite split_ne_lacks by apply encodeURIComponent_lacks, equals_not_uri_char.
  cbn [fst snd]. rewrite decode_encodeURIComponent. cbn [mbind option_bind].
  cbn [mapM]. rewrite decode_encodeURIComponent. cbn.
  unfold decoded_value.
  destruct (String.eqb k "thresholds"); [done|].
  destruct (String.eqb k "lineLevels" || String.eqb k "polygonLevels"); [done|].
  by destruct (String.eqb k "extent" || String.eqb k "multiplier"
               || String.eqb k "overzoom" || String.eqb k "buffer").
Qed.

Lemma encode_entry_lacks (c : ascii) (kv : string * scalar) :
  is_uri_char c = false -> Ascii.eqb "=" c = false ->
  lacks c (encode_entry kv).
Proof.
  intros Hc Heq. unfold encode_entry.
  apply lacks_app; [by apply encodeURIComponent_lacks|].
  apply lacks_app; [|by apply encodeURIComponent_lacks].
  unfold lacks. cbn [all_chars]. by rewrite Heq.
Qed.

(** Decoding an encoded object reads every entry back through the [switch]. *)
Lemma decodeOptions_entries (o : GlobalContourTileOptions) :
  encoded_object o <> ∅ ->
  decodeOptions (encodeOptions o)
  = Some (fromEntries
            (map (fun kv => (kv.1, decoded_value kv.1 (scalar_to_string kv.2)))
                 (sortedEntries (map_to_list (encoded_object o))))).
Proof.
  intros Hne. unfold decodeOptions, encodeOptions.
  set (L := sortedEntries (map_to_list (encoded_object o))).
  assert (HL : L <> []).
  { intros E. pose proof (sortedEntries_perm (map_to_list (encoded_object o))) as Hp.
    fold L in Hp. rewrite E in Hp. symmetry in Hp. apply Permutation_nil_r in Hp.
    by apply map_to_list_empty_iff in Hp. }
  rewrite strip_query_lacks.
  2:{ apply lacks_join; [done|]. apply Forall_forall. intros s Hs.
      apply list_elem_of_In, in_map_iff in Hs as (kv & <- & _).
      by apply encode_entry_lacks. }
  rewrite (split_join "&").
  - rewrite (mapM_map_Some _ _
      (fun kv => (kv.1, decoded_value kv.1 (scalar_to_string kv.2)))); [done|].
    intros kv _. apply decode_encode_entry.
  - intros E. by apply map_eq_nil in E.
  - apply Forall_forall. intros s Hs.
    apply list_elem_of_In, in_map_iff in Hs as (kv & <- & _).
    by apply encode_entry_lacks.
Qed.

Lemma lookup_keyed_entries {A B} (g : string -> A -> B) (m : gmap string A)
    (k : string) :
  (list_to_map (map (fun kv => (kv.1, g kv.1 kv.2)) (map_to_list m))
     : gmap string B) !! k = g k <$> m !! k.
Proof.
  assert (Hfst : (map (fun kv => (kv.1, g kv.1 kv.2)) (map_to_list m)).*1
                 = (map_to_list m).*1).
  { rewrite <- list_fmap_compose. done. }
  destruct (m !! k) as [v|] eqn:E; cbn.
  - apply elem_of_list_to_map.
    + rewrite Hfst. apply NoDup_fst_map_to_list.
    + apply list_elem_of_In, in_map_iff. exists (k, v). split; [done|].
      by apply list_elem_of_In, elem_of_map_to_list.
  - apply not_elem_of_list_to_map_1. rewrite Hfst.
    intros Hk. apply list_elem_of_fmap in Hk as ([k' v] & -> & Hin).
    apply elem_of_map_to_list in Hin. cbn in E. congruence.
Qed.

Lemma decodeOptions_lookup (o : GlobalContourTileOptions) :
  encoded_object o <> ∅ ->
  exists r, decodeOptions (encodeOptions o) = Some r /\
    forall k, r !! k
      = (fun sv => decoded_value k (scalar_to_string sv)) <$> encoded_object o !! k.
Proof.
  intros Hne. eexists. split; [by apply decodeOptions_entries|].
  intros k.
  rewrite (fromEntries_perm _
    (map (fun kv => (kv.1, decoded_value kv.1 (scalar_to_string kv.2)))
         (map_to_list (encoded_object o)))).
  - apply (lookup_keyed_entries (fun k sv => decoded_value k (scalar_to_string sv))).
  - rewrite <- list_fmap_compose. apply NoDup_fst_map_to_list.
  - apply Permutation_map, sortedEntries_perm.
Qed.

End options_facts.

Section options_round_trip.
Import JS Utils.

Lemma decoded_value_rest (k : string) (sv : scalar) :
  k ∉ level_keys -> is_number sv = bool_decide (k ∈ numeric_keys) ->
  decoded_value k (scalar_to_string sv) = scalar_value sv.
Proof.
  intros Hk Hnum. unfold decoded_value.
  destruct (String.eqb_spec k "thresholds") as [->|_].
  { exfalso. apply Hk. unfold level_keys. set_solver. }
  destruct (String.eqb_spec k "lineLevels") as [->|_].
  { exfalso. apply Hk. unfold level_keys. set_solver. }
  destruct (String.eqb_spec k "polygonLevels") as [->|_].
  { exfalso. apply Hk. unfold level_keys. set_solver. }
  cbn [orb].
  destruct sv as [n|s]; cbn [is_number scalar_to_string scalar_value] in *.
  - symmetry in Hnum. apply bool_decide_eq_true in Hnum.
    assert (String.eqb k "extent" || String.eqb k "multiplier"
            || String.eqb k "overzoom" || String.eqb k "buffer" = true) as ->.
    { unfold numeric_keys in Hnum.
      repeat (apply elem_of_cons in Hnum as [->|Hnum]; [reflexivity|]).
      by apply elem_of_nil in Hnum. }
    by rewrite Number_ToString.
  - symmetry in Hnum. apply bool_decide_eq_false in Hnum.
    assert (String.eqb k "extent" || String.eqb k "multiplier"
            || String.eqb k "overzoom" || String.eqb k "buffer" = false) as ->; [|done].
    unfold numeric_keys in Hnum.
    destruct (String.eqb_spec k "extent") as [->|_]; [exfalso; apply Hnum; set_solver|].
    destruct (String.eqb_spec k "multiplier") as [->|_]; [exfalso; apply Hnum; set_solver|].
    destruct (String.eqb_spec k "overzoom") as [->|_]; [exfalso; apply Hnum; set_solver|].
    destruct (String.eqb_spec k "buffer") as [->|_]; [exfalso; apply Hnum; set_solver|].
    done.
Qed.

Lemma rest_lookup (rs : gmap string scalar) (k : string) :
  map_Forall (fun k v => (k ∉ level_keys) /\
                         is_number v = bool_decide (k ∈ numeric_keys)) rs ->
  (fun sv => decoded_value k (scalar_to_string sv)) <$> rs !! k
  = (scalar_value <$> rs) !! k.
Proof.
  intros Hrs. rewrite lookup_fmap. destruct (rs !! k) as [sv|] eqn:E; [|done].
  cbn. f_equal. destruct (Hrs _ _ E). by apply decoded_value_rest.
Qed.

Lemma object_lookup (o : GlobalContourTileOptions) (k : string) :
  round_trip_domain o ->
  (fun sv => decoded_value k (scalar_to_string sv)) <$> encoded_object o !! k
  = options_object o !! k.
Proof.
  destruct o as [t l p rs]. unfold round_trip_domain, encoded_object, options_object.
  cbn [thresholds lineLevels polygonLevels rest].
  intros (Ht & Hl & Hp & Hrs & _).
  destruct p as [p|].
  { rewrite !(lookup_insert _ "polygonLevels"). case_decide as Ek.
    - subst k. cbn. unfold decoded_value. cbn. by rewrite decode_encodeLevels.
    - clear Ek Hp. destruct l as [l|].
      + rewrite !(lookup_insert _ "lineLevels"). case_decide as Ek.
        * subst k. cbn. unfold decoded_value. cbn. by rewrite decode_encodeLevels.
        * clear Ek Hl. destruct t as [t|]; [|by apply rest_lookup].
          rewrite !(lookup_insert _ "thresholds"). case_decide as Ek;
            [|by apply rest_lookup].
          subst k. cbn. unfold decoded_value. cbn.
          destruct Ht as [Hne Harr]. rewrite decode_encodeThresholds; [done|done|].
          intros i v Hv. specialize (Harr i v Hv). destruct v; [done|by eexists].
      + destruct t as [t|]; [|by apply rest_lookup].
        rewrite !(lookup_insert _ "thresholds"). case_decide as Ek;
          [|by apply rest_lookup].
        subst k. cbn. unfold decoded_value. cbn.
        destruct Ht as [Hne Harr]. rewrite decode_encodeThresholds; [done|done|].
        intros i v Hv. specialize (Harr i v Hv). destruct v; [done|by eexists]. }
  clear Hp. destruct l as [l|].
  - rewrite !(lookup_insert _ "lineLevels"). case_decide as Ek.
    + subst k. cbn. unfold decoded_value. cbn. by rewrite decode_encodeLevels.
    + clear Ek Hl. destruct t as [t|]; [|by apply rest_lookup].
      rewrite !(lookup_insert _ "thresholds"). case_decide as Ek;
        [|by apply rest_lookup].
      subst k. cbn. unfold decoded_value. cbn.
      destruct Ht as [Hne Harr]. rewrite decode_encodeThresholds; [done|done|].
      intros i v Hv. specialize (Harr i v Hv). destruct v; [done|by eexists].
  - destruct t as [t|]; [|by apply rest_lookup].
    rewrite !(lookup_insert _ "thresholds"). case_decide as Ek;
      [|by apply rest_lookup].
    subst k. cbn. unfold decoded_value. cbn.
    destruct Ht as [Hne Harr]. rewrite decode_encodeThresholds; [done|done|].
    intros i v Hv. specialize (Harr i v Hv). destruct v; [done|by eexists].
Qed.

End options_round_trip.

(** C1 (amended).  For every options value [x] in which every thresholds
    entry is an array, every level map that is present has at least one zoom
    entry, the numeric scalar fields are among [extent], [multiplier],
    [overzoom] and [buffer], every other field is a string, and at least one
    field is present, [decodeOptions(encodeOptions(x))] is [x]; negative
    elevations and strings that contain the delimiters are included. *)
Theorem decodeOptions_encodeOptions (o : Utils.GlobalContourTileOptions) :
  round_trip_domain o ->
  Utils.decodeOptions (Utils.encodeOptions o) = Some (Utils.options_object o).
Proof.
  intros Hdom.
  assert (Hne : Utils.encoded_object o <> ∅) by apply Hdom.
  destruct (decodeOptions_lookup o Hne) as (r & -> & Hr). f_equal.
  apply map_eq. intros k. rewrite Hr. by apply object_lookup.
Qed.

Lemma decodeOptions_encodeOptions_witness :
  Utils.decodeOptions (Utils.encodeOptions bathymetry_options)
  = Some (Utils.options_object bathymetry_options).
Proof.
  apply decodeOptions_encodeOptions.
  apply (bool_decide_unpack _). by vm_compute.
Defined.

Example encodeOptions_bathymetry :
  Utils.encodeOptions bathymetry_options
  = "extent=4096&lineLevels=11*-100*-75*0&polygonLayer=depth%20%26%20area%3D1&polygonLevels=11*-100*-50*0~9*-100*0".
Proof. by vm_compute. Qed.

(** C1, as stated, fails: a thresholds entry that is a single number, as in
    [{11: 50}], does not come back as that number. *)
Lemma decodeOptions_scalar_threshold :
  Utils.decodeOptions (Utils.encodeOptions scalar_threshold_options)
  <> Some (Utils.options_object scalar_threshold_options).
Proof. apply (bool_decide_eq_false_1 _). by vm_compute. Qed.

(** It comes back as a one-element array. *)
Example scalar_threshold_comes_back_as_array :
  Utils.decodeOptions (Utils.encodeOptions scalar_threshold_options)
  = Some {[ "thresholds" :=
              Utils.VMap {[ JS.Int 11 := Utils.TArr [JS.Int 50] ]} ]}.
Proof. apply (bool_decide_unpack _). by vm_compute. Qed.

(** [subsampleBelow] and [spotGridSpacing] are not among the keys converted
    back with [Number]: they come back as strings. *)
Example decodeOptions_subsampleBelow :
  let x := Utils.mkGlobal None None None
             {[ "subsampleBelow" := Utils.SNum (JS.Int 100) ]} in
  Utils.decodeOptions (Utils.encodeOptions x)
  = Some {[ "subsampleBelow" := Utils.VStr "100" ]}.
Proof. apply (bool_decide_unpack _). by vm_compute. Qed.

(** An empty level map comes back with the key [0] and no levels. *)
Example decodeOptions_empty_map :
  let x := Utils.mkGlobal None (Some ∅) None ∅ in
  Utils.decodeOptions (Utils.encodeOptions x)
  = Some {[ "lineLevels" := Utils.VMap {[ JS.Int 0 := Utils.TArr [] ]} ]}.
Proof. apply (bool_decide_unpack _). by vm_compute. Qed.

(** The options without any field come back with an empty key. *)
Example decodeOptions_no_field :
  Utils.decodeOptions (Utils.encodeOptions (Utils.mkGlobal None None None ∅))
  = Some {[ "" := Utils.VUndefined ]}.
Proof. apply (bool_decide_unpack _). by vm_compute. Qed.

(* ================================================================== *)
(** ** Properties of [getOptionsForZoom] *)
(* ================================================================== *)

Section zoom_facts.
Import JS Utils.
Context {W V : Type}.

Variable conv : W -> V.
Variable zoom : Z.
Variable init : V.

Lemma zoom_step_inv (seen : list (number * W)) (st : option Z * V) (e : number * W) :
  scan_inv conv zoom init seen st ->
  scan_inv conv zoom init (seen ++ [e]) (zoom_step conv (Int zoom) st (ToString e.1, e.2)).
Proof.
  destruct st as [mx cur], e as [key w]. unfold scan_inv, zoom_step.
  cbn [fst snd]. rewrite Number_ToString.
  destruct key as [|z].
  { destruct mx as [k|].
    - intros (Hk & (w0 & Hin & Hw0) & Hmax). split; [done|]. split.
      + exists w0. split; [|done]. apply elem_of_app. by left.
      + intros k' w' [Hin'|Hin']%elem_of_app; [by eapply Hmax|].
        by apply list_elem_of_singleton in Hin'.
    - intros [Hcur Hall]. split; [done|].
      intros k w' [Hin'|Hin']%elem_of_app; [by eapply Hall|].
      by apply list_elem_of_singleton in Hin'. }
  destruct mx as [k|]; cbn [fst snd].
  - intros (Hk & (w0 & Hin & Hw0) & Hmax).
    destruct (Z.leb_spec z zoom) as [Hz|Hz], (Z.ltb_spec k z) as [Hkz|Hkz];
      cbn [andb fst snd].
    + split; [done|]. split.
      * exists w. split; [|done]. apply elem_of_app. right. by apply list_elem_of_singleton.
      * intros k' w' [Hin'|Hin']%elem_of_app Hle.
        -- specialize (Hmax _ _ Hin' Hle). lia.
        -- apply list_elem_of_singleton in Hin'. injection Hin' as -> _. lia.
    + split; [done|]. split.
      * exists w0. split; [|done]. apply elem_of_app. by left.
      * intros k' w' [Hin'|Hin']%elem_of_app Hle; [by eapply Hmax|].
        apply list_elem_of_singleton in Hin'. injection Hin' as -> _. lia.
    + split; [done|]. split.
      * exists w0. split; [|done]. apply elem_of_app. by left.
      * intros k' w' [Hin'|Hin']%elem_of_app Hle; [by eapply Hmax|].
        apply list_elem_of_singleton in Hin'. injection Hin' as -> _. lia.
    + split; [done|]. split.
      * exists w0. split; [|done]. apply elem_of_app. by left.
      * intros k' w' [Hin'|Hin']%elem_of_app Hle; [by eapply Hmax|].
        apply list_elem_of_singleton in Hin'. injection Hin' as -> _. lia.
  - intros [Hcur Hall].
    destruct (Z.leb_spec z zoom) as [Hz|Hz]; cbn [andb fst snd].
    + split; [done|]. split.
      * exists w. split; [|done]. apply elem_of_app. right. by apply list_elem_of_singleton.
      * intros k' w' [Hin'|Hin']%elem_of_app Hle.
        -- specialize (Hall _ _ Hin'). lia.
        -- apply list_elem_of_singleton in Hin'. injection Hin' as -> _. lia.
    + split; [done|].
      intros k' w' [Hin'|Hin']%elem_of_app; [by eapply Hall|].
      apply list_elem_of_singleton in Hin'. injection Hin' as -> _. lia.
Qed.

Lemma zoom_fold_inv (l seen : list (number * W)) (st : option Z * V) :
  scan_inv conv zoom init seen st ->
  scan_inv conv zoom init (seen ++ l)
    (fold_left (zoom_step conv (Int zoom))
               (map (fun kv => (ToString kv.1, kv.2)) l) st).
Proof.
  revert seen st. induction l as [|e l IH]; intros seen st H; cbn [map fold_left].
  - by rewrite app_nil_r.
  - rewrite (cons_middle e seen l), app_assoc. apply IH. by apply zoom_step_inv.
Qed.

(** The loop over a level map returns the conversion of the selected value,
    or the value it started from. *)
Lemma zoom_scan_selected (m : gmap number W) :
  exists r, selected (Some m) zoom r /\
    zoom_scan conv (Int zoom) init m
    = match r with Some w => conv w | None => init end.
Proof.
  unfold zoom_scan, entries_of.
  pose proof (zoom_fold_inv (map_to_list m) [] (None, init)) as H.
  cbn [app] in H.
  destruct (fold_left _ _ _) as [mx cur]. unfold scan_inv in H. cbn [fst snd] in *.
  destruct mx as [k|].
  - destruct H as (Hk & (w & Hin & ->) & Hmax); [split; [done|]; intros ? ? Hx; by apply elem_of_nil in Hx|].
    exists (Some w). split; [|done].
    exists m, k. split; [done|]. split; [by apply elem_of_map_to_list in Hin|].
    split; [done|]. intros k' [w' Hw'] Hle.
    eapply Hmax; [|done]. by apply elem_of_map_to_list.
  - destruct H as [-> Hall]; [split; [done|]; intros ? ? Hx; by apply elem_of_nil in Hx|].
    exists None. split; [|done].
    intros m' k' [= <-] [w' Hw']. eapply Hall. by apply elem_of_map_to_list.
Qed.

End zoom_facts.

(** Uniqueness of the selection: a level map selects one value at most. *)
Lemma selected_unique {W} (m : option (gmap JS.number W)) (zoom : Z) (r r' : option W) :
  selected m zoom r -> selected m zoom r' -> r = r'.
Proof.
  destruct r as [w|], r' as [w'|]; cbn; try done.
  - intros (m1 & k & -> & Hw & Hk & Hmax) (m2 & k' & [= <-] & Hw' & Hk' & Hmax').
    assert (k = k') as <-.
    { pose proof (Hmax k' (mk_is_Some _ _ Hw') Hk').
      pose proof (Hmax' k (mk_is_Some _ _ Hw) Hk). lia. }
    congruence.
  - intros (m1 & k & -> & Hw & Hk & _) Hnone.
    pose proof (Hnone m1 k eq_refl (mk_is_Some _ _ Hw)). lia.
  - intros Hnone (m1 & k & -> & Hw & Hk & _).
    pose proof (Hnone m1 k eq_refl (mk_is_Some _ _ Hw)). lia.
Qed.

(** C3.  For each of the three level maps [getOptionsForZoom] selects the
    value at the largest zoom key that is at most the requested zoom, or
    nothing when the map is absent or has no such key.  [polygonLevels] is
    the selection of the polygon map ([undefined] without one); [lineLevels]
    is the selection of the line map, else the selection of the thresholds
    (a single number as a one-element list), else the empty list.  No value
    of a higher zoom key is ever returned. *)
Theorem getOptionsForZoom_selected (options : Utils.GlobalContourTileOptions) (zoom : Z) :
  exists rT rL rP,
    selected (Utils.thresholds options) zoom rT /\
    selected (Utils.lineLevels options) zoom rL /\
    selected (Utils.polygonLevels options) zoom rP /\
    Utils.getOptionsForZoom options (JS.Int zoom)
    = {| Utils.ind_lineLevels :=
           match rL, rT with
           | Some l, _ => l
           | None, Some t => Utils.threshold_numbers t
           | None, None => []
           end;
         Utils.ind_polygonLevels := rP;
         Utils.ind_rest := Utils.rest options |}.
Proof.
  destruct options as [t l p rs]. unfold Utils.getOptionsForZoom. cbn [Utils.thresholds
    Utils.lineLevels Utils.polygonLevels Utils.rest].
  assert (HT : exists rT, selected t zoom rT /\
     match t with
     | Some t' => Utils.zoom_scan Utils.threshold_numbers (JS.Int zoom) [] t'
     | None => []
     end = match rT with Some w => Utils.threshold_numbers w | None => [] end).
  { destruct t as [t'|].
    - apply zoom_scan_selected.
    - exists None. split; [|done]. by intros m' k' [=]. }
  destruct HT as (rT & HsT & ->).
  assert (HL : forall init, exists rL, selected l zoom rL /\
     match l with
     | Some l' => Utils.zoom_scan id (JS.Int zoom) init l'
     | None => init
     end = match rL with Some w => w | None => init end).
  { intros init. destruct l as [l'|].
    - apply (zoom_scan_selected id).
    - exists None. split; [|done]. by intros m' k' [=]. }
  destruct (HL (match rT with Some w => Utils.threshold_numbers w | None => [] end))
    as (rL & HsL & ->).
  assert (HP : exists rP, selected p zoom rP /\
     match p with
     | Some p' => Utils.zoom_scan Some (JS.Int zoom) None p'
     | None => None
     end = rP).
  { destruct p as [p'|].
    - destruct (zoom_scan_selected Some zoom None p') as (r & Hs & ->).
      exists r. split; [done|]. by destruct r.
    - exists None. split; [|done]. by intros m' k' [=]. }
  destruct HP as (rP & HsP & ->).
  exists rT, rL, rP. repeat (split; [done|]).
  by destruct rL, rT.
Qed.

(** The staircase of the thresholds [{8: [50], 11: [50, 100]}]. *)
Example getOptionsForZoom_staircase :
  let options :=
    Utils.mkGlobal
      (Some {[ JS.Int 8 := Utils.TArr [JS.Int 50];
               JS.Int 11 := Utils.TArr [JS.Int 50; JS.Int 100] ]})
      None None ∅ in
  Utils.ind_lineLevels (Utils.getOptionsForZoom options (JS.Int 9)) = [JS.Int 50]
  /\ Utils.ind_lineLevels (Utils.getOptionsForZoom options (JS.Int 12))
     = [JS.Int 50; JS.Int 100]
  /\ Utils.ind_lineLevels (Utils.getOptionsForZoom options (JS.Int 5)) = []
  /\ Utils.ind_polygonLevels (Utils.getOptionsForZoom options (JS.Int 12)) = None.
Proof. repeat split; by vm_compute. Qed.

(** C2.  With thresholds and line levels that both resolve at the requested
    zoom, [getOptionsForZoom] reports nothing: it returns the line levels and
    drops the thresholds. *)
Theorem getOptionsForZoom_both_modes :
  Utils.getOptionsForZoom
    (Utils.mkGlobal
       (Some {[ JS.Int 11 := Utils.TArr [JS.Int 50; JS.Int 100] ]})
       (Some {[ JS.Int 11 := [JS.Int 500] ]})
       None ∅)
    (JS.Int 11)
  = Utils.mkIndividual [JS.Int 500] None ∅.
Proof. by vm_compute. Qed.

(* ================================================================== *)
(** ** Properties of the isoline and isoband generators *)
(* ================================================================== *)

Section contour_facts.
Import JS Contour.

Lemma length_flatten_scaled (scale : option Q) (line : list Coord) :
  length (flatten_scaled scale line) = (2 * length line)%nat.
Proof. induction line as [|[x y] r IH]; cbn; [done|]. rewrite IH. lia. Qed.

Lemma collect_has_points (n : nat) (scale : option Q) (paths : list (list Coord)) :
  Forall (has_points n) (collect (2 * n) scale paths).
Proof.
  unfold collect. apply Forall_forall. intros g Hg.
  apply list_elem_of_In, filter_In in Hg as [Hin Hlen].
  apply Nat.leb_le in Hlen.
  apply in_map_iff in Hin as (line & <- & _).
  split; [exact Hlen|]. exists scale, line. split; [done|].
  rewrite length_flatten_scaled in Hlen. lia.
Qed.

Lemma sort_levels_perm (l : list Z) : sort_levels l ≡ₚ l.
Proof. apply merge_sort_Permutation. Qed.

Lemma sort_levels_sorted (l : list Z) : Sorted Z.le (sort_levels l).
Proof. apply (Sorted_merge_sort Z.le). Qed.

Lemma sort_levels_proper (l1 l2 : list Z) :
  l1 ≡ₚ l2 -> sort_levels l1 = sort_levels l2.
Proof.
  intros Hp. apply (Sorted_unique Z.le); try apply sort_levels_sorted.
  by rewrite !sort_levels_perm.
Qed.

Lemma length_adjacent_pairs (l : list Z) :
  length (adjacent_pairs l) = pred (length l).
Proof.
  induction l as [|a [|b r] IH]; cbn in *; try done. by rewrite IH.
Qed.

Lemma adjacent_pairs_lookup (l : list Z) (p : Z * Z) :
  In p (adjacent_pairs l) ->
  exists i : nat, l !! i = Some p.1 /\ l !! S i = Some p.2.
Proof.
  induction l as [|a [|b r] IH]; cbn [adjacent_pairs]; try done.
  intros [<-|Hin].
  - by exists 0%nat.
  - destruct (IH Hin) as (i & H1 & H2). by exists (S i).
Qed.

(** The finite numbers that survive the filter are those whose parse is not
    [NaN], in the order of the entries. *)
Lemma finite_parse_levels (s : string) :
  finite_levels (parse_levels s)
  = omap (fun e => number_to_option (Number (trim e))) (split "," s).
Proof.
  unfold finite_levels, parse_levels.
  induction (split "," s) as [|e l IH]; [done|].
  cbn [map List.filter]. change (omap ?f (e :: l)) with
    (match f e with Some y => y :: omap f l | None => omap f l end).
  cbv beta. destruct (Number (trim e)) as [|z]; cbn [isNaN negb number_to_option].
  - exact IH.
  - cbn [omap list_omap]. cbn [number_to_option]. by rewrite <- IH.
Qed.

Variable isoLines :
  list (list Q) -> list Z -> MSOptions -> option (list (list (list Coord))).
Variable isoBands :
  list (list Q) -> list Z -> list Z -> MSOptions ->
  option (list (list (list Coord))).

Lemma isoline_step_ok tile extent data result level :
  map_Forall (fun _ => entry_ok 2) result ->
  map_Forall (fun _ => entry_ok 2)
             (isoline_step isoLines tile extent data result level).
Proof.
  intros Hres. unfold isoline_step.
  destruct (isoLines _ _ _) as [[|lines rest]|]; try done.
  pose proof (collect_has_points 2 (scale_of extent tile) lines) as Hc.
  change (2 * 2)%nat with 4%nat in Hc.
  destruct (collect 4 _ lines) as [|g gs] eqn:E; [done|].
  apply map_Forall_insert_2; [|done]. by split.
Qed.

Lemma isoband_step_ok tile extent data result range :
  map_Forall (fun _ => entry_ok 3) result ->
  map_Forall (fun _ => entry_ok 3)
             (isoband_step isoBands tile extent data result range).
Proof.
  intros Hres. unfold isoband_step. destruct range as [lo up].
  destruct (isoBands _ _ _ _) as [[|[|p paths] rest]|]; try done.
  pose proof (collect_has_points 3 (scale_of extent tile) (p :: paths)) as Hc.
  change (2 * 3)%nat with 6%nat in Hc.
  destruct (collect 6 _ (p :: paths)) as [|g gs] eqn:E; [done|].
  apply map_Forall_insert_2; [|done]. by split.
Qed.

Lemma fold_left_invariant {A B} (P : A -> Prop) (f : A -> B -> A) (l : list B) (a : A) :
  (forall a b, P a -> P (f a b)) -> P a -> P (fold_left f l a).
Proof. intros Hf. revert a. induction l; cbn; auto. Qed.

(** The keys of the isoband loop come from the ranges it went through. *)
Lemma isoband_fold_keys tile extent data (ranges : list (Z * Z)) result key :
  is_Some (fold_left (isoband_step isoBands tile extent data) ranges result !! key) ->
  is_Some (result !! key) \/
  exists p, In p ranges /\ key = rangeKey p.1 p.2.
Proof.
  revert result. induction ranges as [|[lo up] r IH]; intros result; cbn [fold_left].
  - by left.
  - intros H. destruct (IH _ H) as [Hs|(p & Hin & ->)].
    + unfold isoband_step in Hs.
      destruct (isoBands _ _ _ _) as [[|[|q paths] rest]|]; auto.
      destruct (collect 6 _ _); auto.
      destruct (decide (rangeKey lo up = key)) as [<-|Hne].
      * right. exists (lo, up). split; [by left|done].
      * rewrite lookup_insert_ne in Hs by done. by left.
    + right. exists p. split; [by right|done].
Qed.

Lemma isoband_fold_size tile extent data (ranges : list (Z * Z)) result :
  (size (fold_left (isoband_step isoBands tile extent data) ranges result)
   <= size result + length ranges)%nat.
Proof.
  revert result. induction ranges as [|[lo up] r IH]; intros result; cbn [fold_left length].
  - lia.
  - etrans; [apply IH|].
    assert (size (isoband_step isoBands tile extent data result (lo, up))
            <= S (size result))%nat; [|lia].
    unfold isoband_step.
    destruct (isoBands _ _ _ _) as [[|[|q paths] rest]|]; try (cbn; lia).
    destruct (collect 6 _ _); [lia|].
    rewrite map_size_insert. destruct (result !! _); cbn; lia.
Qed.

End contour_facts.

Section contour_claims.
Import JS Contour.

Variable isoLines :
  list (list Q) -> list Z -> MSOptions -> option (list (list (list Coord))).
Variable isoBands :
  list (list Q) -> list Z -> list Z -> MSOptions ->
  option (list (list (list Coord))).

(** C4.  The keys of the mapping returned by [generateIsobands] come only
    from adjacent pairs [(lower, upper)] of the ascending-sorted levels, each
    key being [lower], a colon and [upper]; the mapping has at most N-1 keys
    for N levels, and is empty for a list of at most one level. *)
Theorem generateIsobands_keys (levels : string + list Z) (tile : HeightTile)
    (extent : Q) :
  let levelArray := levelArray_of levels in
  let sortedLevels := sort_levels levelArray in
  let result := generateIsobands isoBands levels tile extent in
  Sorted Z.le sortedLevels /\ sortedLevels ≡ₚ levelArray /\
  (forall key, is_Some (result !! key) ->
     exists (i : nat) (lower upper : Z),
       sortedLevels !! i = Some lower /\ sortedLevels !! S i = Some upper /\
       key = ToString (Int lower) ++ ":" ++ ToString (Int upper)) /\
  (size result <= pred (length levelArray))%nat /\
  ((length levelArray <= 1)%nat -> result = ∅).
Proof.
  intros levelArray sortedLevels result.
  split; [apply sort_levels_sorted|]. split; [apply sort_levels_perm|].
  assert (Hres : result =
    match levelArray with
    | [] => ∅
    | _ => fold_left (isoband_step isoBands tile extent (tile_data tile))
             (adjacent_pairs sortedLevels) ∅
    end) by reflexivity.
  assert (Hlen : length sortedLevels = length levelArray).
  { unfold sortedLevels. by rewrite sort_levels_perm. }
  split; [|split].
  - intros key Hkey. rewrite Hres in Hkey.
    destruct levelArray as [|a l] eqn:E.
    { rewrite lookup_empty in Hkey. by destruct Hkey. }
    apply isoband_fold_keys in Hkey as [Hkey|(p & Hin & ->)].
    { rewrite lookup_empty in Hkey. by destruct Hkey. }
    apply adjacent_pairs_lookup in Hin as (i & H1 & H2).
    by exists i, p.1, p.2.
  - rewrite Hres. destruct levelArray as [|a l] eqn:E.
    { by rewrite map_size_empty. }
    etrans; [apply isoband_fold_size|].
    rewrite map_size_empty, length_adjacent_pairs, Hlen. cbn. lia.
  - intros Hle. rewrite Hres. destruct levelArray as [|a l] eqn:E; [done|].
    destruct sortedLevels as [|b [|c r]] eqn:Es; cbn in Hlen, Hle |- *; try done.
    lia.
Qed.

(** C6.  The mapping returned by [generateIsolinesMS] is the same for every
    ordering of the levels. *)
Theorem generateIsolinesMS_order (levels levels' : string + list Z)
    (tile : HeightTile) (extent : Q) :
  levelArray_of levels ≡ₚ levelArray_of levels' ->
  generateIsolinesMS isoLines levels tile extent
  = generateIsolinesMS isoLines levels' tile extent.
Proof.
  intros Hp. unfold generateIsolinesMS.
  rewrite (sort_levels_proper _ _ Hp).
  destruct (levelArray_of levels) as [|a l], (levelArray_of levels') as [|b l'];
    first [ done
          | by apply Permutation_nil_cons in Hp
          | by symmetry in Hp; apply Permutation_nil_cons in Hp ].
Qed.

(** C7.  Every polyline of [generateIsolinesMS] has at least 2 points (4
    flat coordinates), every ring of [generateIsobands] at least 3 points (6
    flat coordinates), and no key of either mapping holds an empty list. *)
Theorem surviving_geometries (levels : string + list Z) (tile : HeightTile)
    (extent : Q) :
  map_Forall
    (fun _ lines => lines <> [] /\
       Forall (fun g => (4 <= length g)%nat /\
                 exists scale line, g = flatten_scaled scale line
                                    /\ (2 <= length line)%nat) lines)
    (generateIsolinesMS isoLines levels tile extent)
  /\
  map_Forall
    (fun _ rings => rings <> [] /\
       Forall (fun g => (6 <= length g)%nat /\
                 exists scale ring, g = flatten_scaled scale ring
                                    /\ (3 <= length ring)%nat) rings)
    (generateIsobands isoBands levels tile extent).
Proof.
  split.
  - change (map_Forall (fun _ => entry_ok 2)
              (generateIsolinesMS isoLines levels tile extent)).
    unfold generateIsolinesMS.
    destruct (levelArray_of levels) as [|a l]; [apply map_Forall_empty|].
    apply fold_left_invariant; [|apply map_Forall_empty].
    intros. by apply isoline_step_ok.
  - change (map_Forall (fun _ => entry_ok 3)
              (generateIsobands isoBands levels tile extent)).
    unfold generateIsobands.
    destruct (levelArray_of levels) as [|a l]; [apply map_Forall_empty|].
    apply fold_left_invariant; [|apply map_Forall_empty].
    intros. by apply isoband_step_ok.
Qed.

End contour_claims.

Lemma generateIsolinesMS_order_witness :
  Contour.generateIsolinesMS (fun _ _ _ => Some one_triangle)
    (inr [700; 500]) (Contour.mkTile 3 3 (fun _ _ => 0%Q)) 4096
  = Contour.generateIsolinesMS (fun _ _ _ => Some one_triangle)
    (inr [500; 700]) (Contour.mkTile 3 3 (fun _ _ => 0%Q)) 4096.
Proof. apply generateIsolinesMS_order. apply perm_swap. Defined.

(** The bathymetry levels of the documentation, given out of order. *)
Example generateIsobands_bathymetry :
  dom (Contour.generateIsobands (fun _ _ _ _ => Some one_triangle)
         (inr [0; -100; -50; -75]) (Contour.mkTile 3 3 (fun _ _ => 0%Q)) 4096)
  = ({["-100:-75"; "-75:-50"; "-50:0"]} : gset string).
Proof. by vm_compute. Qed.

(** An empty entry is not an invalid one: [Number("")] is [0]. *)
Example parse_levels_example :
  Contour.levelArray_of (inl "500, 700,abc,,-5") = [500; 700; 0; -5].
Proof. reflexivity. Qed.

(* ================================================================== *)
(** ** The level string *)
(* ================================================================== *)

Section level_string.
Import JS Levels.

Variable number : Type.
Variable Number : string -> number.
Variable isNaN : number -> bool.
Variable trim : string -> string.
Variable ToString : number -> string.
Variable minus : number -> number -> number.
Variable sort : list number -> list number.

(** What the claim needs of [Array.prototype.sort]: it permutes. *)
Hypothesis sort_permutes : forall l, sort l ≡ₚ l.

Variable isoLines :
  list (list Q) -> list number -> Contour.MSOptions ->
  option (list (list (list Contour.Coord))).
Variable isoBands :
  list (list Q) -> list number -> list number -> Contour.MSOptions ->
  option (list (list (list Contour.Coord))).

Local Abbreviation parse := (parse_levels number Number isNaN trim).
Local Abbreviation kept := (kept_entry Number isNaN trim).
Local Abbreviation line_step := (isoline_step number ToString isoLines).
Local Abbreviation band_step := (isoband_step number ToString minus isoBands).

(** The numbers of the parsed string are those of the entries that are kept. *)
Lemma parse_levels_kept (s : string) (n : number) :
  In n (parse s) <-> kept s n.
Proof.
  unfold parse_levels, kept_entry. rewrite filter_In, in_map_iff. split.
  - intros [(e & He & Hin) Hn]. exists e. apply negb_true_iff in Hn. by subst.
  - intros (e & Hin & He & Hn). split; [by exists e|]. by rewrite Hn.
Qed.

Lemma parse_levels_none (s : string) :
  (forall e, In e (split "," s) -> isNaN (Number (trim e)) = true) ->
  parse s = [].
Proof.
  intros H. destruct (parse s) as [|n l] eqn:E; [done|].
  assert (Hn : In n (parse s)) by (rewrite E; by left).
  apply parse_levels_kept in Hn as (e & Hin & <- & Hn).
  rewrite (H e Hin) in Hn. discriminate.
Qed.

(** A step of the isoline loop keeps the keys it found. *)
Lemma isoline_step_keeps tile extent data result level key :
  is_Some (result !! key) ->
  is_Some (line_step tile extent data result level !! key).
Proof.
  intros H. unfold isoline_step.
  destruct (isoLines _ _ _) as [[|lines rest]|]; try done.
  destruct (Contour.collect 4 _ lines); [done|].
  destruct (decide (ToString level = key)) as [<-|Hne].
  - by rewrite lookup_insert_eq.
  - by rewrite lookup_insert_ne.
Qed.

Lemma isoline_fold_keeps tile extent data (levels : list number) result key :
  is_Some (result !! key) ->
  is_Some (fold_left (line_step tile extent data) levels result !! key).
Proof.
  revert result. induction levels as [|n l IH]; intros result H; [done|].
  cbn [fold_left]. by apply IH, isoline_step_keeps.
Qed.

(** The keys of the isoline loop come from the levels it went through. *)
Lemma isoline_fold_key_source tile extent data (levels : list number) result key :
  is_Some (fold_left (line_step tile extent data) levels result !! key) ->
  is_Some (result !! key) \/ exists n, In n levels /\ key = ToString n.
Proof.
  revert result. induction levels as [|n l IH]; intros result; cbn [fold_left].
  - by left.
  - intros H. destruct (IH _ H) as [Hs|(n' & Hin & ->)].
    + unfold isoline_step in Hs.
      destruct (isoLines _ _ _) as [[|lines rest]|]; auto.
      destruct (Contour.collect 4 _ lines); auto.
      destruct (decide (ToString n = key)) as [<-|Hne].
      * right. exists n. split; [by left|done].
      * rewrite lookup_insert_ne in Hs by done. by left.
    + right. exists n'. split; [by right|done].
Qed.

(** A level with something to store has its key in the end. *)
Lemma isoline_fold_stores tile extent (levels : list number) result n :
  In n levels ->
  is_Some (line_entry isoLines tile extent n) ->
  is_Some (fold_left (line_step tile extent (Contour.tile_data tile)) levels result
           !! ToString n).
Proof.
  intros Hin Hentry. revert result.
  induction levels as [|m l IH]; intros result; [done|]. cbn [fold_left].
  destruct Hin as [->|Hin]; [|by apply IH].
  apply isoline_fold_keeps. unfold line_entry in Hentry. unfold isoline_step.
  destruct (isoLines _ _ _) as [[|lines rest]|]; try by destruct Hentry.
  destruct (Contour.collect 4 _ lines); [by destruct Hentry|].
  by rewrite lookup_insert_eq.
Qed.

Lemma adjacent_pairs_in (l : list number) (p : number * number) :
  In p (adjacent_pairs number l) -> In p.1 l /\ In p.2 l.
Proof.
  induction l as [|a [|b r] IH]; cbn [adjacent_pairs]; try done.
  intros [<-|Hin].
  - split; [by left|right; by left].
  - destruct (IH Hin) as [H1 H2]. split; by right.
Qed.

(** The keys of the isoband loop come from the ranges it went through. *)
Lemma isoband_fold_key_source tile extent data (ranges : list (number * number))
    result key :
  is_Some (fold_left (band_step tile extent data) ranges result !! key) ->
  is_Some (result !! key) \/
  exists p, In p ranges /\ key = ToString p.1 ++ ":" ++ ToString p.2.
Proof.
  revert result. induction ranges as [|[lo up] r IH]; intros result; cbn [fold_left].
  - by left.
  - intros H. destruct (IH _ H) as [Hs|(p & Hin & ->)].
    + unfold isoband_step in Hs.
      destruct (isoBands _ _ _ _) as [[|[|q paths] rest]|]; auto.
      destruct (Contour.collect 6 _ _); auto.
      destruct (decide (rangeKey number ToString lo up = key)) as [<-|Hne].
      * right. exists (lo, up). split; [by left|done].
      * rewrite lookup_insert_ne in Hs by done. by left.
    + right. exists p. split; [by right|done].
Qed.


End level_string.


(** The entry [abc] is dropped, the others make the keys. *)
Example generateIsolinesMS_level_string :
  dom (Levels.generateIsolinesMS JS.number JS.Number JS.isNaN JS.trim JS.ToString
         sort_numbers (fun _ _ _ => Some one_triangle)
         (inl "700, abc,500") (Contour.mkTile 3 3 (fun _ _ => 0%Q)) 4096)
  = ({["500"; "700"]} : gset string).
Proof. by vm_compute. Qed.

(* ================================================================== *)
(** ** Properties of [withTimeout] *)
(* ================================================================== *)

Section abortable_facts.
Import Abortable.
Context {T : Type}.

Lemma run_cons (st : state T) (e : event T) (trace : list (event T)) :
  run st (e :: trace) = run (step st e) trace.
Proof. reflexivity. Qed.

(** A settled race keeps its outcome. *)
Lemma step_returned (st : state T) (e : event T) (o : outcome T) :
  returned st = Some o -> returned (step st e) = Some o.
Proof.
  intros H. destruct st as [tm c l cp v r]. cbn in H. subst r.
  destruct e as [| |o']; destruct tm, cp, c as [[]|], l, v; reflexivity.
Qed.

Lemma run_returned (st : state T) (trace : list (event T)) (o : outcome T) :
  returned st = Some o -> returned (run st trace) = Some o.
Proof.
  revert st. induction trace as [|e tr IH]; intros st H; [done|].
  apply IH. by apply step_returned.
Qed.

(** An aborted controller stays aborted. *)
Lemma step_aborted (st : state T) (e : event T) :
  controller st = Some true -> controller (step st e) = Some true.
Proof.
  intros H. destruct st as [tm c l cp v r]. cbn in H. subst c.
  destruct e as [| |o']; destruct tm, cp, l, v, r; reflexivity.
Qed.

Lemma run_aborted (st : state T) (trace : list (event T)) :
  controller st = Some true -> controller (run st trace) = Some true.
Proof.
  revert st. induction trace as [|e tr IH]; intros st H; [done|].
  apply IH. by apply step_aborted.
Qed.

End abortable_facts.

(** C8, as stated, fails for a controller that was aborted before
    [withTimeout] is called: the abort event was dispatched before the
    listener was added, so the returned promise is pending after the call,
    further calls of [abort] do nothing and the promise follows the value. *)
Lemma withTimeout_aborted_earlier :
  Abortable.returned (Abortable.withTimeout (T := Z) (Some true)) = None
  /\
  let st := Abortable.run (Abortable.withTimeout (Some true))
       [Abortable.AbortCalled; Abortable.ValueSettles (Abortable.Fulfilled 7)] in
  Abortable.controller st = Some true
  /\ Abortable.returned st = Some (Abortable.Fulfilled 7)
  /\ Abortable.returned st <> Some (Abortable.Rejected "aborted").
Proof. split; [reflexivity|]. cbn. split; [reflexivity|]. split; [reflexivity|discriminate]. Qed.

(** C8.  With a controller that is not yet aborted when [withTimeout] is
    called: when the first thing to happen is a call of [abort], the returned
    promise rejects with the error [aborted].  With a controller in either
    state: when the first thing to happen is the expiry of the timeout, the
    returned promise rejects with the error [timed out] and the controller is
    aborted.  Whatever happens later changes neither. *)
Theorem withTimeout_abort_or_expiry (T : Type) (trace : list (Abortable.event T)) :
  Abortable.returned
    (Abortable.run (Abortable.withTimeout (Some false))
                   (Abortable.AbortCalled :: trace))
    = Some (Abortable.Rejected "aborted")
  /\
  (forall aborted : bool,
     let st := Abortable.run (Abortable.withTimeout (Some aborted))
                             (Abortable.TimerExpires :: trace) in
     Abortable.returned st = Some (Abortable.Rejected "timed out")
     /\ Abortable.controller st = Some true).
Proof.
  split.
  - rewrite run_cons. by apply run_returned.
  - intros aborted st. unfold st. rewrite run_cons. split.
    + apply run_returned. by destruct aborted.
    + apply run_aborted. by destruct aborted.
Qed.

(* ================================================================== *)
(** ** Binary64 arithmetic *)
(* ================================================================== *)

(** Facts on the operations of [SpecFloat], the specification of the
    primitive floats, then on the floats themselves. *)
Section binary64.
Import Floats.

Lemma digits2_pos_bounds (m : positive) :
  2 ^ (Zpos (digits2_pos m) - 1) <= Zpos m < 2 ^ Zpos (digits2_pos m).
Proof.
  induction m as [p IH|p IH|]; cbn [digits2_pos].
  - rewrite Pos2Z.inj_succ, Z.pow_succ_r by lia.
    replace (Z.succ (Zpos (digits2_pos p)) - 1) with (Z.succ (Zpos (digits2_pos p) - 1)) by lia.
    rewrite Z.pow_succ_r by lia. lia.
  - rewrite Pos2Z.inj_succ, Z.pow_succ_r by lia.
    replace (Z.succ (Zpos (digits2_pos p)) - 1) with (Z.succ (Zpos (digits2_pos p) - 1)) by lia.
    rewrite Z.pow_succ_r by lia. lia.
  - cbn. lia.
Qed.

Lemma digits2_pos_le (m1 m2 : positive) :
  Zpos m1 <= Zpos m2 -> Zpos (digits2_pos m1) <= Zpos (digits2_pos m2).
Proof.
  intros H. pose proof (digits2_pos_bounds m1) as [H1 _].
  pose proof (digits2_pos_bounds m2) as [_ H2].
  destruct (Z.le_gt_cases (Zpos (digits2_pos m1)) (Zpos (digits2_pos m2))) as [|Hgt];
    [done|].
  assert (2 ^ Zpos (digits2_pos m2) <= 2 ^ (Zpos (digits2_pos m1) - 1))
    by (apply Z.pow_le_mono_r; lia).
  lia.
Qed.

Lemma digits2_pos_unique (m : positive) (d : Z) :
  2 ^ (d - 1) <= Zpos m < 2 ^ d -> Zpos (digits2_pos m) = d.
Proof.
  intros [H1 H2]. pose proof (digits2_pos_bounds m) as [H3 H4].
  assert (0 < d).
  { destruct (Z.lt_ge_cases 0 d) as [|Hd]; [done|].
    assert (2 ^ d <= 2 ^ 0) by (apply Z.pow_le_mono_r_iff; lia).
    destruct (Z.eq_dec d 0) as [->|]; [cbn in *; lia|].
    rewrite Z.pow_neg_r in H2 by lia. lia. }
  destruct (Z.lt_trichotomy (Zpos (digits2_pos m)) d) as [Hlt|[|Hgt]]; [|done|].
  - assert (2 ^ Zpos (digits2_pos m) <= 2 ^ (d - 1)) by (apply Z.pow_le_mono_r; lia).
    lia.
  - assert (2 ^ d <= 2 ^ (Zpos (digits2_pos m) - 1)) by (apply Z.pow_le_mono_r; lia).
    lia.
Qed.

Lemma iter_xO (m k : positive) : Zpos (Pos.iter xO m k) = Zpos m * 2 ^ Zpos k.
Proof.
  induction k as [|k IH] using Pos.peano_ind.
  - cbn. lia.
  - rewrite Pos.iter_succ, Pos2Z.inj_succ, Z.pow_succ_r by lia.
    rewrite Pos2Z.inj_xO, IH. lia.
Qed.

Lemma shl_align_spec (m : positive) (e e' : Z) :
  e' <= e ->
  snd (shl_align m e e') = e'
  /\ Zpos (fst (shl_align m e e')) = Zpos m * 2 ^ (e - e').
Proof.
  intros H. unfold shl_align. destruct (e' - e) as [|p|p] eqn:E; cbn [fst snd].
  - assert (e = e') as -> by lia. rewrite Z.sub_diag. cbn. lia.
  - lia.
  - rewrite iter_xO. split; [done|]. f_equal. f_equal. lia.
Qed.

Lemma shl_align_id (m : positive) (e e' : Z) :
  e <= e' -> shl_align m e e' = (m, e).
Proof.
  intros H. unfold shl_align. destruct (e' - e) as [|p|p] eqn:E; try done. lia.
Qed.

Lemma pow2_xO (n : positive) : 2 ^ Zpos n~0 = 2 ^ Zpos n * 2 ^ Zpos n.
Proof.
  rewrite <- Z.pow_add_r by lia. f_equal. lia.
Qed.

Lemma pow2_xI (n : positive) : 2 ^ Zpos n~1 = 2 * (2 ^ Zpos n * 2 ^ Zpos n).
Proof.
  rewrite <- Z.pow_add_r by lia. rewrite <- Z.pow_succ_r by lia. f_equal. lia.
Qed.

(** shifting right *)
Lemma shr_1_m (mrs : shr_record) :
  0 <= shr_m mrs -> shr_m (shr_1 mrs) = shr_m mrs / 2 /\ 0 <= shr_m (shr_1 mrs).
Proof.
  destruct mrs as [m r s]. cbn [shr_m shr_1]. intros H.
  destruct m as [|[p|p|]|p]; cbn [shr_m]; try lia.
  - split; [reflexivity|lia].
  - split; [|lia]. apply (Z.div_unique _ _ _ 1); lia.
  - split; [|lia]. apply (Z.div_unique _ _ _ 0); lia.
  - split; [reflexivity|lia].
Qed.

Lemma iter_shr_1_m (n : positive) (mrs : shr_record) :
  0 <= shr_m mrs ->
  shr_m (iter_pos shr_1 n mrs) = shr_m mrs / 2 ^ Zpos n
  /\ 0 <= shr_m (iter_pos shr_1 n mrs).
Proof.
  revert mrs. induction n as [n IH|n IH|]; intros mrs H; cbn [iter_pos].
  - destruct (shr_1_m mrs H) as [E1 H1].
    destruct (IH _ H1) as [E2 H2]. destruct (IH _ H2) as [E3 H3].
    split; [|done]. rewrite E3, E2, E1.
    rewrite !Z.div_div by lia. f_equal.
    symmetry. apply pow2_xI.
  - destruct (IH _ H) as [E2 H2]. destruct (IH _ H2) as [E3 H3].
    split; [|done]. rewrite E3, E2.
    rewrite !Z.div_div by lia. f_equal.
    symmetry. apply pow2_xO.
  - apply shr_1_m. done.
Qed.


Lemma fexp_eq (e : Z) : fexp prec emax e = Z.max (e - 53) (-1074).
Proof. reflexivity. Qed.

Lemma shr_fexp_noshift (m e : Z) :
  fexp prec emax (Zdigits2 m + e) <= e ->
  shr_fexp prec emax m e loc_Exact
  = ({| shr_m := m; shr_r := false; shr_s := false |}, e).
Proof.
  intros H. unfold shr_fexp, shr. cbn [shr_record_of_loc].
  destruct (fexp prec emax (Zdigits2 m + e) - e) as [|p|p] eqn:E; try done. lia.
Qed.

Lemma shr_fexp_shift (m e : Z) :
  0 <= m -> e < fexp prec emax (Zdigits2 m + e) ->
  exists mrs,
    shr_fexp prec emax m e loc_Exact = (mrs, fexp prec emax (Zdigits2 m + e))
    /\ shr_m mrs = m / 2 ^ (fexp prec emax (Zdigits2 m + e) - e).
Proof.
  intros Hm H. unfold shr_fexp, shr. cbn [shr_record_of_loc].
  destruct (fexp prec emax (Zdigits2 m + e) - e) as [|p|p] eqn:E; try lia.
  eexists. split.
  - f_equal. lia.
  - by apply iter_shr_1_m.
Qed.

Lemma round_nearest_even_bounds (m : Z) (l : location) :
  m <= round_nearest_even m l <= m + 1.
Proof.
  unfold round_nearest_even. destruct l as [|[]]; try lia.
  destruct (Z.even m); lia.
Qed.

(** A mantissa already at its exponent is left alone. *)
Lemma binary_round_aux_canonical (s : bool) (m : positive) (e : Z) :
  fexp prec emax (Zpos (digits2_pos m) + e) <= e ->
  binary_round_aux prec emax s (Zpos m) e loc_Exact
  = if e <=? 971 then S754_finite s m e else S754_infinity s.
Proof.
  intros H. unfold binary_round_aux.
  rewrite shr_fexp_noshift by done. cbn [shr_m loc_of_shr_record round_nearest_even].
  rewrite shr_fexp_noshift by done. cbn [shr_m]. reflexivity.
Qed.

Lemma digits2_pos_shift (m m' : positive) (k : Z) :
  0 <= k -> Zpos m' = Zpos m * 2 ^ k ->
  Zpos (digits2_pos m') = Zpos (digits2_pos m) + k.
Proof.
  intros Hk E. apply digits2_pos_unique. rewrite E.
  pose proof (digits2_pos_bounds m) as [H1 H2].
  replace (Zpos (digits2_pos m) + k - 1) with (Zpos (digits2_pos m) - 1 + k) by lia.
  rewrite !Z.pow_add_r by lia.
  assert (0 < 2 ^ k) by (apply Z.pow_pos_nonneg; lia).
  split; [apply Z.mul_le_mono_nonneg_r; lia|apply Z.mul_lt_mono_pos_r; lia].
Qed.

(** What [binary_round] returns, from an exponent not below [emin]. *)
Lemma binary_round_shape (s : bool) (M : positive) (ez : Z) :
  -1074 <= ez ->
  let f := fexp prec emax (Zpos (digits2_pos M) + ez) in
  exists (m' : positive) (e' : Z),
    binary_round prec emax s M ez
    = (if e' <=? 971 then S754_finite s m' e' else S754_infinity s)
    /\ ((f <= ez /\ e' = f /\ Zpos m' = Zpos M * 2 ^ (ez - f))
        \/ (ez < f /\ e' = f
            /\ Zpos M / 2 ^ (f - ez) <= Zpos m' <= Zpos M / 2 ^ (f - ez) + 1
            /\ Zpos m' < 2 ^ 53)
        \/ (ez < f /\ e' = f + 1 /\ Zpos m' = 2 ^ 52
            /\ Zpos M / 2 ^ (f - ez) + 1 = 2 ^ 53)).
Proof.
  intros Hez f. unfold binary_round. fold f.
  destruct (Z.le_gt_cases f ez) as [Hle|Hgt].
  - destruct (shl_align_spec M ez f Hle) as [E1 E2].
    destruct (shl_align M ez f) as [mz ez'] eqn:E. cbn [fst snd] in E1, E2. subst ez'.
    exists mz, f. split; [|left; done].
    apply binary_round_aux_canonical.
    rewrite (digits2_pos_shift M mz (ez - f)) by (done || lia).
    replace (Zpos (digits2_pos M) + (ez - f) + f) with (Zpos (digits2_pos M) + ez) by lia.
    fold f. lia.
  - rewrite shl_align_id by lia.
    assert (Hf : f = Zpos (digits2_pos M) + ez - 53).
    { unfold f in *. rewrite fexp_eq in *. lia. }
    pose proof (digits2_pos_bounds M) as [HM1 HM2].
    set (d := Zpos (digits2_pos M)) in *.
    assert (Hp : 2 ^ d = 2 ^ 53 * 2 ^ (f - ez)).
    { rewrite <- Z.pow_add_r by lia. f_equal. lia. }
    assert (Hp' : 2 ^ (d - 1) = 2 ^ 52 * 2 ^ (f - ez)).
    { rewrite <- Z.pow_add_r by lia. f_equal. lia. }
    assert (Hpos : 0 < 2 ^ (f - ez)) by (apply Z.pow_pos_nonneg; lia).
    set (q := Zpos M / 2 ^ (f - ez)).
    assert (Hq : 2 ^ 52 <= q < 2 ^ 53).
    { unfold q. split.
      - apply Z.div_le_lower_bound; lia.
      - apply Z.div_lt_upper_bound; lia. }
    unfold binary_round_aux.
    destruct (shr_fexp_shift (Zpos M) ez) as (mrs & E & Em); [lia| |].
    { cbn [Zdigits2]. fold d. fold f. lia. }
    cbn [Zdigits2] in E, Em. fold d in E, Em. fold f in E, Em. fold q in Em.
    rewrite E.
    pose proof (round_nearest_even_bounds (shr_m mrs) (loc_of_shr_record mrs)) as Hr.
    set (m1 := round_nearest_even (shr_m mrs) (loc_of_shr_record mrs)) in *.
    rewrite Em in Hr.
    destruct m1 as [|m1p|m1p] eqn:Em1; try lia.
    destruct (Z.eq_dec (Zpos m1p) (2 ^ 53)) as [Hc|Hc].
    + (* the carry *)
      assert (Hd : Zpos (digits2_pos m1p) = 54).
      { apply digits2_pos_unique. rewrite Hc. change (54 - 1) with 53.
        split; [lia|]. apply Z.pow_lt_mono_r; lia. }
      destruct (shr_fexp_shift (Zpos m1p) f) as (mrs2 & E2 & Em2); [lia| |].
      { cbn [Zdigits2]. rewrite Hd, fexp_eq. lia. }
      cbn [Zdigits2] in E2, Em2. rewrite Hd in E2, Em2.
      assert (Hf1 : fexp prec emax (54 + f) = f + 1) by (rewrite fexp_eq; lia).
      rewrite Hf1 in E2, Em2. rewrite E2.
      replace (f + 1 - f) with 1 in Em2 by lia.
      rewrite Hc in Em2. change (2 ^ 53 / 2 ^ 1) with (2 ^ 52) in Em2.
      rewrite Em2. change (2 ^ 52) with (Zpos (2 ^ 52)%positive).
      exists (2 ^ 52)%positive, (f + 1). split; [reflexivity|].
      right. right. repeat split; try done. lia.
    + assert (Hd : Zpos (digits2_pos m1p) = 53).
      { apply digits2_pos_unique. change (53 - 1) with 52. lia. }
      rewrite shr_fexp_noshift.
      2:{ cbn [Zdigits2]. rewrite Hd, fexp_eq. lia. }
      cbn [shr_m]. exists m1p, f. split; [reflexivity|].
      right. left. repeat split; try done; lia.
Qed.


(** The order of [SFcompare] on finite numbers of one sign. *)
Lemma SFleb_finite_false (m1 m2 : positive) (e1 e2 : Z) :
  e1 < e2 \/ (e1 = e2 /\ Zpos m1 <= Zpos m2) ->
  SFleb (S754_finite false m1 e1) (S754_finite false m2 e2) = true.
Proof.
  unfold SFleb, SFcompare. intros [H|[-> H]].
  - by rewrite (proj2 (Z.compare_lt_iff _ _) H).
  - rewrite Z.compare_refl.
    change (Pos.compare_cont Eq m1 m2) with (Pos.compare m1 m2).
    destruct (Pos.compare_spec m1 m2); try done. lia.
Qed.

Lemma SFleb_finite_true (m1 m2 : positive) (e1 e2 : Z) :
  e2 < e1 \/ (e1 = e2 /\ Zpos m2 <= Zpos m1) ->
  SFleb (S754_finite true m1 e1) (S754_finite true m2 e2) = true.
Proof.
  unfold SFleb, SFcompare. intros [H|[-> H]].
  - by rewrite (proj2 (Z.compare_gt_iff _ _) H).
  - rewrite Z.compare_refl.
    change (Pos.compare_cont Eq m1 m2) with (Pos.compare m1 m2).
    destruct (Pos.compare_spec m1 m2); try done. lia.
Qed.

Lemma SFleb_refl (x : spec_float) : x <> S754_nan -> SFleb x x = true.
Proof.
  destruct x as [s|s| |s m e]; try done; intros _.
  - by destruct s.
  - destruct s; [apply SFleb_finite_true|apply SFleb_finite_false]; lia.
Qed.

Lemma valid_finite (s : bool) (m : positive) (e : Z) :
  valid_binary (S754_finite s m e) = true ->
  fexp prec emax (Zpos (digits2_pos m) + e) = e /\ e <= 971.
Proof.
  cbn [SpecFloat.valid_binary]. unfold bounded, canonical_mantissa.
  intros [H1 H2]%andb_true_iff. apply Z.eqb_eq in H1. apply Z.leb_le in H2.
  split; [done|]. exact H2.
Qed.

(** Adding a positive number to a positive one. *)
Lemma SFadd_finite_up (ma mb : positive) (ea eb : Z) :
  valid_binary (S754_finite false ma ea) = true ->
  valid_binary (S754_finite false mb eb) = true ->
  SFleb (S754_finite false ma ea)
        (SF64add (S754_finite false ma ea) (S754_finite false mb eb)) = true.
Proof.
  intros [Ha Ha']%valid_finite [Hb Hb']%valid_finite.
  unfold SF64add, SFadd. cbn [cond_Zopp].
  set (ez := Z.min ea eb).
  destruct (shl_align_spec ma ea ez) as [_ EMa]; [lia|].
  destruct (shl_align_spec mb eb ez) as [_ EMb]; [lia|].
  set (Ma := (shl_align ma ea ez).1) in *. set (Mb := (shl_align mb eb ez).1) in *.
  change (Zpos Ma + Zpos Mb) with (Zpos (Ma + Mb)). cbn [binary_normalize].
  assert (Hez : -1074 <= ez) by (rewrite fexp_eq in Ha, Hb; lia).
  destruct (binary_round_shape false (Ma + Mb) ez Hez) as (m' & e' & -> & Hshape).
  destruct (e' <=? 971); [|done].
  apply SFleb_finite_false.
  set (f := fexp prec emax (Zpos (digits2_pos (Ma + Mb)) + ez)) in *.
  assert (Hpos : 0 < 2 ^ (ea - ez)) by (apply Z.pow_pos_nonneg; lia).
  assert (Hf : ea <= f).
  { assert (Zpos (digits2_pos Ma) <= Zpos (digits2_pos (Ma + Mb)))
      by (apply digits2_pos_le; lia).
    rewrite (digits2_pos_shift ma Ma (ea - ez)) in H by (done || lia).
    unfold f. rewrite fexp_eq in Ha |- *. lia. }
  destruct Hshape as [(H1 & -> & H3)|[(H1 & -> & H3 & H4)|(H1 & -> & H3 & H4)]].
  - right. assert (ea = ez) by lia. assert (f = ez) by lia.
    split; [lia|]. rewrite H3.
    replace (ez - f) with 0 by lia. replace (ea - ez) with 0 in EMa by lia.
    rewrite Pos2Z.inj_add. change (2 ^ 0) with 1 in *. lia.
  - destruct (Z.eq_dec ea f) as [E|]; [|left; lia].
    right. split; [done|]. etrans; [|apply H3].
    apply Z.div_le_lower_bound; [apply Z.pow_pos_nonneg; lia|].
    rewrite <- E. rewrite Pos2Z.inj_add, EMa. lia.
  - left. lia.
Qed.

(** Adding a positive number to a negative one that is larger in size. *)
Lemma SFadd_finite_down (ma : positive) (ea ez : Z) (M : positive) :
  valid_binary (S754_finite true ma ea) = true ->
  -1074 <= ez <= ea ->
  Zpos M < Zpos ma * 2 ^ (ea - ez) ->
  SFleb (S754_finite true ma ea) (binary_round prec emax true M ez) = true.
Proof.
  intros [Ha Ha']%valid_finite Hez HM.
  destruct (binary_round_shape true M ez) as (m' & e' & -> & Hshape); [lia|].
  set (f := fexp prec emax (Zpos (digits2_pos M) + ez)) in *.
  assert (Hpos : 0 < 2 ^ (ea - ez)) by (apply Z.pow_pos_nonneg; lia).
  pose proof (digits2_pos_bounds ma) as [Hma1 Hma2].
  assert (Hda : Zpos (digits2_pos ma) <= 53) by (rewrite fexp_eq in Ha; lia).
  assert (Hma3 : Zpos ma < 2 ^ 53).
  { eapply Z.lt_le_trans; [apply Hma2|]. apply Z.pow_le_mono_r; lia. }
  assert (Hf : f <= ea).
  { assert (Zpos (digits2_pos M) <= Zpos (digits2_pos ma) + (ea - ez)).
    { assert (exists Ma : positive, Zpos Ma = Zpos ma * 2 ^ (ea - ez)) as [Ma EMa].
      { exists (Z.to_pos (Zpos ma * 2 ^ (ea - ez))). rewrite Z2Pos.id; lia. }
      rewrite <- (digits2_pos_shift ma Ma (ea - ez)) by (done || lia).
      apply digits2_pos_le. lia. }
    unfold f. rewrite fexp_eq in Ha |- *. lia. }
  assert (He' : e' <= ea /\ (e' < ea \/ Zpos m' <= Zpos ma)).
  { destruct Hshape as [(H1 & -> & H3)|[(H1 & -> & H3 & H4)|(H1 & -> & H3 & H4)]].
    - split; [done|]. destruct (Z.eq_dec f ea) as [E|]; [|left; lia].
      right. assert (ez = ea) by lia. subst ez. rewrite H3.
      replace (ea - f) with 0 by lia. replace (ea - ea) with 0 in HM by lia.
      change (2 ^ 0) with 1 in *. lia.
    - split; [done|]. destruct (Z.eq_dec f ea) as [E|]; [|left; lia].
      right. rewrite E in H3.
      assert (Zpos M / 2 ^ (ea - ez) < Zpos ma)
        by (apply Z.div_lt_upper_bound; lia).
      lia.
    - destruct (Z.eq_dec f ea) as [E|].
      + rewrite E in H4.
        assert (Zpos M / 2 ^ (ea - ez) < Zpos ma)
          by (apply Z.div_lt_upper_bound; lia).
        lia.
      + split; [lia|]. destruct (Z.eq_dec (f + 1) ea) as [E1|]; [|left; lia].
        right. rewrite H3.
        assert (-1074 <= f) by (unfold f; rewrite fexp_eq; lia).
        assert (Zpos (digits2_pos ma) = 53) by (rewrite fexp_eq in Ha; lia).
        rewrite H0 in Hma1. exact Hma1. }
  destruct He' as [He1 He2].
  rewrite (proj2 (Z.leb_le e' 971)) by lia.
  apply SFleb_finite_true. lia.
Qed.

(** Adding a number that is not negative does not go down. *)
Lemma SFadd_ge (a b : spec_float) :
  valid_binary a = true -> valid_binary b = true -> sign_false b ->
  SF64add a b <> S754_nan -> SFleb a (SF64add a b) = true.
Proof.
  intros Ha Hb Hs Hn.
  destruct b as [sb|sb| |sb mb eb]; cbn in Hs; try done; subst sb.
  - (* b is +0 *)
    destruct a as [sa|sa| |sa ma ea]; try done.
    + by destruct sa.
    + by destruct sa.
    + by apply SFleb_refl.
  - (* b is +Infinity *)
    destruct a as [sa|sa| |sa ma ea]; try done. by destruct sa.
  - destruct a as [sa|sa| |sa ma ea]; try done.
    + by destruct sa.
    + destruct sa; [|by apply SFadd_finite_up].
      unfold SF64add, SFadd. cbn [cond_Zopp].
      set (ez := Z.min ea eb).
      destruct (valid_finite _ _ _ Ha) as [Ha1 Ha2].
      destruct (valid_finite _ _ _ Hb) as [Hb1 Hb2].
      assert (Hez : -1074 <= ez <= ea) by (rewrite fexp_eq in Ha1, Hb1; lia).
      destruct (shl_align_spec ma ea ez) as [_ EMa]; [lia|].
      destruct (shl_align_spec mb eb ez) as [_ EMb]; [lia|].
      set (Ma := (shl_align ma ea ez).1) in *. set (Mb := (shl_align mb eb ez).1) in *.
      destruct (- Zpos Ma + Zpos Mb) as [|M|M] eqn:E; cbn [binary_normalize].
      * done.
      * destruct (binary_round_shape false M ez) as (m' & e' & -> & _); [lia|].
        by destruct (e' <=? 971).
      * apply SFadd_finite_down; [done|done|]. lia.
Qed.


(** *** The order *)

Lemma SFleb_rank (x y : spec_float) :
  SFleb x y = true <-> x <> S754_nan /\ y <> S754_nan /\ lex_le (rank x) (rank y).
Proof.
  unfold lex_le.
  destruct x as [[]|[]| |[] m1 e1], y as [[]|[]| |[] m2 e2];
    cbn [rank fst snd SFleb SFcompare];
    try (split; [intros _; repeat split; (done || lia) | done]);
    try (split; [done | intros (H1 & H2 & H3); (done || lia)]);
    change (Pos.compare_cont Eq m1 m2) with (Pos.compare m1 m2);
    destruct (Z.compare_spec e1 e2); destruct (Pos.compare_spec m1 m2);
    cbn [CompOpp];
    (split; [intros H'; repeat split; (done || lia) | intros (H1 & H2 & H3); (done || lia)]).
Qed.

Lemma SFleb_trans (x y z : spec_float) :
  SFleb x y = true -> SFleb y z = true -> SFleb x z = true.
Proof.
  rewrite !SFleb_rank. unfold lex_le.
  intros (H1 & H2 & H3) (_ & H4 & H5). repeat split; [done..|]. lia.
Qed.

Lemma SFltb_not_nan (x y : spec_float) : SFltb x y = true -> x <> S754_nan.
Proof. by destruct x. Qed.

Lemma SFltb_rank (x y : spec_float) :
  SFltb x y = true <-> x <> S754_nan /\ y <> S754_nan /\ lex_lt (rank x) (rank y).
Proof.
  unfold lex_lt.
  destruct x as [[]|[]| |[] m1 e1], y as [[]|[]| |[] m2 e2];
    cbn [rank fst snd SFltb SFcompare];
    try (split; [intros _; repeat split; (done || lia) | done]);
    try (split; [done | intros (H1 & H2 & H3); (done || lia)]);
    change (Pos.compare_cont Eq m1 m2) with (Pos.compare m1 m2);
    destruct (Z.compare_spec e1 e2); destruct (Pos.compare_spec m1 m2);
    cbn [CompOpp];
    (split; [intros H'; repeat split; (done || lia) | intros (H1 & H2 & H3); (done || lia)]).
Qed.

Lemma SFleb_ltb_trans (x y z : spec_float) :
  SFleb x y = true -> SFltb y z = true -> SFltb x z = true.
Proof.
  rewrite SFleb_rank, !SFltb_rank. unfold lex_le, lex_lt.
  intros (H1 & H2 & H3) (_ & H4 & H5). repeat split; [done..|]. lia.
Qed.

Lemma SFleb_infinity (x : spec_float) :
  x <> S754_nan -> SFleb x (S754_infinity false) = true.
Proof. by destruct x as [[]|[]| |[] m e]. Qed.

Lemma SFltb_zero (x : spec_float) : nonneg x -> SFltb x (S754_zero false) = false.
Proof. by destruct x as [[]|[]| |[] m e]. Qed.

(** *** Signs *)

Lemma nonneg_ge0 (x : spec_float) : nonneg x -> ge0 x.
Proof. by destruct x. Qed.

Lemma sign_false_nonneg (x : spec_float) : sign_false x -> nonneg x.
Proof. by destruct x. Qed.

Lemma nonneg_sign_false (x : spec_float) : nonneg x -> x <> S754_nan -> sign_false x.
Proof. by destruct x. Qed.

Lemma binary_round_aux_nonneg (m e : Z) (l : location) :
  nonneg (binary_round_aux prec emax false m e l).
Proof.
  unfold binary_round_aux.
  destruct (shr_fexp prec emax m e l) as [mrs' e'].
  destruct (shr_fexp prec emax _ e' loc_Exact) as [mrs'' e''].
  destruct (shr_m mrs''); try done. by destruct (_ <=? _).
Qed.

Lemma binary_round_nonneg (m : positive) (e : Z) :
  nonneg (binary_round prec emax false m e).
Proof.
  unfold binary_round. destruct (shl_align _ _ _). apply binary_round_aux_nonneg.
Qed.

Lemma binary_normalize_nonneg (m e : Z) :
  0 <= m -> nonneg (binary_normalize prec emax m e false).
Proof.
  destruct m; cbn [binary_normalize]; try done.
  intros _. apply binary_round_nonneg.
Qed.

Lemma SFmul_ge0 (x y : spec_float) :
  ge0 x -> sign_false y -> ge0 (SF64mul x y).
Proof.
  destruct x as [sx|sx| |sx mx ex], y as [sy|sy| |sy my ey]; cbn; try done;
    intros Hx Hy; subst; try done.
  apply nonneg_ge0, binary_round_aux_nonneg.
Qed.

Lemma SFmul_nonneg (x y : spec_float) :
  nonneg x -> nonneg y -> nonneg (SF64mul x y).
Proof.
  destruct x as [sx|sx| |sx mx ex], y as [sy|sy| |sy my ey]; cbn; try done;
    intros Hx Hy; subst; try done.
  apply binary_round_aux_nonneg.
Qed.

Lemma SFdiv_nonneg (x y : spec_float) :
  nonneg x -> nonneg y -> nonneg (SF64div x y).
Proof.
  destruct x as [sx|sx| |sx mx ex], y as [sy|sy| |sy my ey]; cbn; try done;
    intros Hx Hy; subst; try done.
  unfold SFdiv. cbn [xorb].
  destruct (SFdiv_core_binary _ _ _ _ _ _) as [[mz ez] lz].
  apply binary_round_aux_nonneg.
Qed.

Lemma SFadd_nonneg (x y : spec_float) :
  ge0 x -> nonneg y -> y <> S754_zero false -> nonneg (SF64add x y).
Proof.
  destruct x as [sx|sx| |sx mx ex], y as [sy|sy| |sy my ey]; cbn; try done;
    intros Hx Hy Hz; subst; try done.
  unfold SFadd. cbn [cond_Zopp]. apply binary_normalize_nonneg. lia.
Qed.

Lemma SFadd_nonneg_sum (x y : spec_float) :
  nonneg x -> nonneg y -> nonneg (SF64add x y).
Proof.
  destruct x as [sx|sx| |sx mx ex], y as [sy|sy| |sy my ey]; cbn; try done;
    intros Hx Hy; subst; try done.
  unfold SFadd. cbn [cond_Zopp]. apply binary_normalize_nonneg. lia.
Qed.

(** The sum of two numbers that are not negative is a number. *)
Lemma SFadd_not_nan (x y : spec_float) :
  valid_binary x = true -> valid_binary y = true ->
  sign_false x -> sign_false y -> SF64add x y <> S754_nan.
Proof.
  destruct x as [sx|sx| |sx mx ex], y as [sy|sy| |sy my ey]; cbn; try done;
    intros Hx Hy Hsx Hsy; subst; try done.
  unfold SFadd. cbn [cond_Zopp].
  destruct (valid_finite false mx ex Hx) as [Hx1 _].
  destruct (valid_finite false my ey Hy) as [Hy1 _].
  match goal with
  | |- binary_normalize _ _ (Zpos ?a + Zpos ?b) ?ez _ <> _ =>
      change (Zpos a + Zpos b) with (Zpos (a + b)); cbn [binary_normalize];
      destruct (binary_round_shape false (a + b) ez) as (m' & e' & -> & _)
  end.
  - rewrite fexp_eq in Hx1, Hy1. lia.
  - by destruct (e' <=? 971).
Qed.

Lemma SFldexp_nonneg (x : spec_float) (e : Z) :
  nonneg x -> nonneg (SFldexp prec emax x e).
Proof.
  destruct x as [sx|sx| |sx mx ex]; cbn; try done. intros ->.
  apply binary_round_nonneg.
Qed.

End binary64.

(** *** The primitive floats *)

Section floats.
Import Floats Float64.
Local Open Scope float_scope.

Lemma add_nan_l (a b : float) :
  Prim2SF (a + b) <> S754_nan -> Prim2SF a <> S754_nan.
Proof. rewrite add_spec. intros H E. by rewrite E in H. Qed.

(** Adding a number that is not negative does not go down. *)
Lemma add_ge (a b : float) :
  nonneg (Prim2SF b) -> Prim2SF (a + b) <> S754_nan -> (a <=? a + b) = true.
Proof.
  intros Hb Hn. rewrite leb_spec. rewrite add_spec in *.
  apply SFadd_ge; try apply Prim2SF_valid; [|done].
  apply nonneg_sign_false; [done|]. intros E. rewrite E in Hn.
  by destruct (Prim2SF a).
Qed.

Lemma leb_trans (a b c : float) :
  (a <=? b) = true -> (b <=? c) = true -> (a <=? c) = true.
Proof. rewrite !leb_spec. apply SFleb_trans. Qed.

Lemma ltb_not_nan (x y : float) : (x <? y) = true -> Prim2SF x <> S754_nan.
Proof. rewrite ltb_spec. apply SFltb_not_nan. Qed.

Lemma mul_nonneg (a b : float) :
  nonneg (Prim2SF a) -> nonneg (Prim2SF b) -> nonneg (Prim2SF (a * b)).
Proof. rewrite mul_spec. apply SFmul_nonneg. Qed.

Lemma div_nonneg (a b : float) :
  nonneg (Prim2SF a) -> nonneg (Prim2SF b) -> nonneg (Prim2SF (a / b)).
Proof. rewrite div_spec. apply SFdiv_nonneg. Qed.

Lemma add_nonneg (a b : float) :
  nonneg (Prim2SF a) -> nonneg (Prim2SF b) -> nonneg (Prim2SF (a + b)).
Proof. rewrite add_spec. apply SFadd_nonneg_sum. Qed.

Lemma of_int_nonneg (n : Z) : nonneg (Prim2SF (of_int n)).
Proof.
  unfold of_int. rewrite of_uint63_spec. apply binary_normalize_nonneg.
  apply Uint63.to_Z_bounded.
Qed.

(** The remainder has the sign of the dividend. *)
Lemma rem_nonneg (x y : float) :
  nonneg (Prim2SF x) -> nonneg (Prim2SF (rem x y)).
Proof.
  intros Hx. unfold rem.
  destruct (Prim2SF x) as [sx|sx| |sx mx ex] eqn:Ex,
           (Prim2SF y) as [sy|sy| |sy my ey] eqn:Ey;
    try reflexivity; try (by rewrite Ex).
  cbn in Hx. subst sx. rewrite Z_ldexp_spec.
  apply SFldexp_nonneg, of_int_nonneg.
Qed.

Lemma leb_ltb_trans (a b c : float) :
  (a <=? b) = true -> (b <? c) = true -> (a <? c) = true.
Proof. rewrite leb_spec, !ltb_spec. apply SFleb_ltb_trans. Qed.

Lemma leb_infinity (x : float) :
  Prim2SF x <> S754_nan -> (x <=? infinity) = true.
Proof. rewrite leb_spec. apply SFleb_infinity. Qed.

Lemma ltb_zero_nonneg (x : float) : nonneg (Prim2SF x) -> (x <? 0) = false.
Proof. rewrite ltb_spec. apply SFltb_zero. Qed.

(** A counter that is a number not negative stays one. *)
Lemma counter_number (i : float) :
  sign_false (Prim2SF i) -> sign_false (Prim2SF (i + 1)).
Proof.
  intros H. apply nonneg_sign_false.
  - apply add_nonneg; [by apply sign_false_nonneg|done].
  - rewrite add_spec. by apply SFadd_not_nan; try apply Prim2SF_valid.
Qed.

Lemma leb_zero_ge0 (x : float) : (0 <=? x) = true -> ge0 (Prim2SF x).
Proof.
  rewrite leb_spec. change (Prim2SF 0) with (S754_zero false).
  by destruct (Prim2SF x) as [s|[]| |[] m e].
Qed.

Lemma ltb_zero_sign_false (x : float) : (0 <? x) = true -> sign_false (Prim2SF x).
Proof.
  rewrite ltb_spec. change (Prim2SF 0) with (S754_zero false).
  by destruct (Prim2SF x) as [s|[]| |[] m e].
Qed.

(** From a state that is not negative the generator returns a number that
    is not negative and stays in such a state. *)
Lemma random_nonneg (l : nat) (h : Spots.heap) :
  ge0 (Prim2SF (default nan (h !! l))) ->
  nonneg (Prim2SF (Spots.random l h).1)
  /\ ge0 (Prim2SF (default nan ((Spots.random l h).2 !! l))).
Proof.
  intros H. unfold Spots.random. cbn [fst snd]. rewrite lookup_insert_eq.
  cbn [default from_option id].
  set (state := default nan (h !! l)) in *.
  assert (Hs : nonneg (Prim2SF (rem (state * 1664525 + 1013904223) 4294967296))).
  { apply rem_nonneg. rewrite add_spec, mul_spec.
    apply SFadd_nonneg; [|done|done].
    by apply SFmul_ge0. }
  split; [|by apply nonneg_ge0].
  by apply div_nonneg.
Qed.

End floats.

(** *** Exact sums of small integers *)

Section binary64_integers.
Import Floats.

Lemma shr_1_double (c : Z) :
  0 <= c ->
  shr_1 {| shr_m := c * 2; shr_r := false; shr_s := false |}
  = {| shr_m := c; shr_r := false; shr_s := false |}.
Proof.
  intros Hc. destruct c as [|c|c]; [reflexivity| |lia].
  replace (Zpos c * 2) with (Zpos c~0) by lia. reflexivity.
Qed.

Lemma iter_shr_1_mul (n : positive) (c : Z) :
  0 <= c ->
  iter_pos shr_1 n {| shr_m := c * 2 ^ Zpos n; shr_r := false; shr_s := false |}
  = {| shr_m := c; shr_r := false; shr_s := false |}.
Proof.
  revert c. induction n as [n IH|n IH|]; intros c Hc; cbn [iter_pos].
  - rewrite pow2_xI.
    replace (c * (2 * (2 ^ Zpos n * 2 ^ Zpos n)))
      with (c * 2 ^ Zpos n * 2 ^ Zpos n * 2) by ring.
    assert (0 <= 2 ^ Zpos n) by (apply Z.pow_nonneg; lia).
    rewrite shr_1_double by (apply Z.mul_nonneg_nonneg; [apply Z.mul_nonneg_nonneg|]; lia).
    rewrite IH by (apply Z.mul_nonneg_nonneg; lia). by apply IH.
  - rewrite pow2_xO.
    replace (c * (2 ^ Zpos n * 2 ^ Zpos n)) with (c * 2 ^ Zpos n * 2 ^ Zpos n) by ring.
    assert (0 <= 2 ^ Zpos n) by (apply Z.pow_nonneg; lia).
    rewrite IH by (apply Z.mul_nonneg_nonneg; lia). by apply IH.
  - change (2 ^ 1) with 2. by apply shr_1_double.
Qed.

(** Rounding a number that needs no rounding. *)
Lemma binary_round_exact (s : bool) (M c : positive) (ez f : Z) :
  -1074 <= ez ->
  f = fexp prec emax (Zpos (digits2_pos M) + ez) ->
  (f <= ez /\ Zpos c = Zpos M * 2 ^ (ez - f))
  \/ (ez < f /\ Zpos M = Zpos c * 2 ^ (f - ez)) ->
  binary_round prec emax s M ez
  = if f <=? 971 then S754_finite s c f else S754_infinity s.
Proof.
  intros Hez Hf [[Hle Hc]|[Hlt Hc]].
  - destruct (binary_round_shape s M ez Hez) as (m' & e' & -> & Hshape).
    rewrite <- Hf in Hshape.
    destruct Hshape as [(_ & -> & H3)|[(H1 & _)|(H1 & _)]]; try lia.
    assert (m' = c) as -> by lia. done.
  - unfold binary_round. rewrite <- Hf. rewrite shl_align_id by lia.
    unfold binary_round_aux, shr_fexp at 1. cbn [Zdigits2 shr_record_of_loc].
    rewrite <- Hf. unfold shr.
    destruct (f - ez) as [|p|p] eqn:Ep; try lia.
    rewrite Hc, iter_shr_1_mul by lia.
    cbn [shr_m loc_of_shr_record round_nearest_even].
    assert (Hd : Zpos (digits2_pos c) = 53).
    { pose proof (digits2_pos_shift c M (Zpos p)) as Hs.
      rewrite Hs in Hf by (lia || done). rewrite fexp_eq in Hf. lia. }
    rewrite shr_fexp_noshift.
    2:{ cbn [Zdigits2]. rewrite Hd, fexp_eq.
        assert (-1074 <= f) by (rewrite Hf, fexp_eq; lia). lia. }
    cbn [shr_m]. replace (ez + Zpos p) with f by lia. reflexivity.
Qed.

(** A whole number up to [2^53], given with an exponent, rounds to what it
    rounds to when given as it is. *)
Lemma binary_round_int (s : bool) (K M : positive) (ez : Z) :
  -1074 <= ez <= 0 -> Zpos M = Zpos K * 2 ^ (- ez) -> Zpos K <= 2 ^ 53 ->
  binary_round prec emax s M ez = binary_round prec emax s K 0.
Proof.
  intros Hez HM HK.
  assert (HdM : Zpos (digits2_pos M) = Zpos (digits2_pos K) + - ez)
    by (apply digits2_pos_shift; [lia|done]).
  pose proof (digits2_pos_bounds K) as [HK1 HK2].
  set (dK := Zpos (digits2_pos K)) in *.
  assert (HdK : dK <= 54).
  { destruct (Z.le_gt_cases dK 54) as [|Hgt]; [done|].
    assert (2 ^ 54 <= 2 ^ (dK - 1)) by (apply Z.pow_le_mono_r; lia).
    assert (2 ^ 53 < 2 ^ 54) by (apply Z.pow_lt_mono_r; lia). lia. }
  set (f := fexp prec emax dK).
  assert (Hf : f = Z.max (dK - 53) (-1074)) by apply fexp_eq.
  assert (Hpow : forall a b, 0 <= a -> 0 <= b -> 2 ^ (a + b) = 2 ^ a * 2 ^ b)
    by (intros; apply Z.pow_add_r; lia).
  assert (Hpos : forall a, 0 <= a -> 0 < 2 ^ a)
    by (intros; apply Z.pow_pos_nonneg; lia).
  assert (HfM : f = fexp prec emax (Zpos (digits2_pos M) + ez))
    by (unfold f; f_equal; lia).
  assert (HfK : f = fexp prec emax (Zpos (digits2_pos K) + 0))
    by (unfold f; f_equal; lia).
  destruct (Z.le_gt_cases f 0) as [Hf0|Hf0].
  - (* the common mantissa is K * 2^(-f) *)
    set (c := Z.to_pos (Zpos K * 2 ^ (- f))).
    assert (Hc : Zpos c = Zpos K * 2 ^ (- f)).
    { unfold c. rewrite Z2Pos.id; [done|]. specialize (Hpos (- f)). lia. }
    assert (E1 : binary_round prec emax s M ez
                 = if f <=? 971 then S754_finite s c f else S754_infinity s).
    { apply binary_round_exact; [lia|done|].
      destruct (Z.le_gt_cases f ez) as [Hfe|Hfe]; [left|right]; (split; [done|]).
      - rewrite Hc, HM. replace (- f) with (- ez + (ez - f)) by lia.
        rewrite Hpow by lia. ring.
      - rewrite Hc, HM. replace (- ez) with (- f + (f - ez)) by lia.
        rewrite Hpow by lia. ring. }
    assert (E2 : binary_round prec emax s K 0
                 = if f <=? 971 then S754_finite s c f else S754_infinity s).
    { apply binary_round_exact; [lia|done|].
      left. split; [done|]. rewrite Hc. f_equal. }
    by rewrite E1, E2.
  - (* K is 2^53 *)
    assert (dK = 54) by lia.
    assert (HK53 : Zpos K = 2 ^ 53).
    { replace (dK - 1) with 53 in HK1 by lia. lia. }
    assert (f = 1) by lia.
    assert (E1 : binary_round prec emax s M ez
                 = if f <=? 971 then S754_finite s (2 ^ 52) f else S754_infinity s).
    { apply binary_round_exact; [lia|done|].
      right. split; [lia|]. rewrite HM, HK53.
      replace (f - ez) with (1 + - ez) by lia. rewrite Hpow by lia.
      change (Zpos (2 ^ 52)%positive) with (2 ^ 52).
      change (2 ^ 53) with (2 ^ 52 * 2 ^ 1). ring. }
    assert (E2 : binary_round prec emax s K 0
                 = if f <=? 971 then S754_finite s (2 ^ 52) f else S754_infinity s).
    { apply binary_round_exact; [lia|done|].
      right. split; [lia|]. rewrite HK53. replace (f - 0) with 1 by lia. done. }
    by rewrite E1, E2.
Qed.

(** One more than a whole number below [2^53]. *)
Lemma SFadd_int_one (k : Z) :
  0 <= k < 2 ^ 53 ->
  SF64add (binary_normalize prec emax k 0 false)
          (binary_normalize prec emax 1 0 false)
  = binary_normalize prec emax (k + 1) 0 false.
Proof.
  intros Hk. destruct k as [|k|k]; [reflexivity| |lia].
  replace (Zpos k + 1) with (Zpos (k + 1)) by lia. cbn [binary_normalize].
  change (binary_round prec emax false 1 0) with (S754_finite false (2 ^ 52) (-52)).
  pose proof (digits2_pos_bounds k) as [Hk1 Hk2].
  set (dk := Zpos (digits2_pos k)) in *.
  assert (Hdk : 1 <= dk <= 53).
  { split; [unfold dk; lia|].
    destruct (Z.le_gt_cases dk 53) as [|Hgt]; [done|].
    assert (2 ^ 53 <= 2 ^ (dk - 1)) by (apply Z.pow_le_mono_r; lia). lia. }
  set (fk := dk - 53).
  assert (Hpos : 0 < 2 ^ (- fk)) by (apply Z.pow_pos_nonneg; lia).
  set (ck := Z.to_pos (Zpos k * 2 ^ (- fk))).
  assert (Hck : Zpos ck = Zpos k * 2 ^ (- fk)) by (unfold ck; rewrite Z2Pos.id; lia).
  rewrite (binary_round_exact false k ck 0 fk); [|lia| |].
  2:{ fold dk. rewrite Z.add_0_r, fexp_eq. lia. }
  2:{ left. split; [lia|]. rewrite Hck. f_equal. }
  rewrite (proj2 (Z.leb_le fk 971)) by lia.
  unfold SF64add, SFadd. cbn [cond_Zopp].
  replace (Z.min fk (-52)) with (-52) by lia.
  destruct (shl_align_spec ck fk (-52)) as [_ EMa]; [lia|].
  destruct (shl_align_spec (2 ^ 52) (-52) (-52)) as [_ EMb]; [lia|].
  set (Ma := (shl_align ck fk (-52)).1) in *.
  set (Mb := (shl_align (2 ^ 52) (-52) (-52)).1) in *.
  change (Zpos Ma + Zpos Mb) with (Zpos (Ma + Mb)). cbn [binary_normalize].
  apply binary_round_int; [lia| |lia].
  rewrite Pos2Z.inj_add, EMa, EMb, Hck.
  assert (E52 : 2 ^ (- fk) * 2 ^ (fk - -52) = 2 ^ 52)
    by (rewrite <- Z.pow_add_r by lia; f_equal; lia).
  replace (Zpos k * 2 ^ (- fk) * 2 ^ (fk - -52))
    with (Zpos k * (2 ^ (- fk) * 2 ^ (fk - -52))) by ring.
  rewrite E52. change (-52 - -52) with 0. change (- -52) with 52.
  change (Zpos (2 ^ 52)%positive) with (2 ^ 52). change (2 ^ 0) with 1.
  rewrite Pos2Z.inj_add. ring.
Qed.

End binary64_integers.

Section floats_integers.
Import Floats Float64.
Local Open Scope float_scope.

Lemma Prim2SF_of_int (k : Z) :
  (0 <= k < 2 ^ 63)%Z -> Prim2SF (of_int k) = binary_normalize prec emax k 0 false.
Proof.
  intros Hk. unfold of_int. rewrite of_uint63_spec, Uint63.of_Z_spec.
  rewrite Z.mod_small; [done|]. exact Hk.
Qed.

(** The counter of a loop counts: one more than a whole number below
    [2^53] is the next whole number. *)
Lemma of_int_succ (k : Z) :
  (0 <= k < 2 ^ 53)%Z -> of_int k + 1 = of_int (k + 1).
Proof.
  intros Hk. apply Prim2SF_inj.
  assert (2 ^ 53 < 2 ^ 63)%Z by (apply Z.pow_lt_mono_r; lia).
  rewrite add_spec, !Prim2SF_of_int by lia.
  change (Prim2SF 1) with (binary_normalize prec emax 1 0 false).
  by apply SFadd_int_one.
Qed.

End floats_integers.

(* ================================================================== *)
(** ** Properties of the spot-sounding grid *)
(* ================================================================== *)

Section spots_facts.
Import Floats Float64 Spots.
Local Open Scope float_scope.

(** What holds before a loop and is kept by its body holds when it ends. *)
Lemma for_le_invariant {S : Type} (P : S -> Prop) (fuel : nat) (n : float)
    (body : float -> S -> option S) (i : float) (s r : S) :
  (forall i s s', P s -> body i s = Some s' -> P s') ->
  P s -> for_le fuel n body i s = Some r -> P r.
Proof.
  intros Hbody. revert i s.
  induction fuel as [|fuel IH]; intros i s Hs; cbn [for_le];
    destruct (i <=? n); try congruence.
  destruct (body i s) as [s'|] eqn:E; [|done].
  apply IH. by apply (Hbody i s).
Qed.

(** Two loops whose bodies keep two states related end in related states,
    or both do not end. *)
Lemma for_le_related {S S' : Type} (R : S -> S' -> Prop) (fuel : nat) (n : float)
    (body : float -> S -> option S) (body' : float -> S' -> option S')
    (i : float) (s : S) (s' : S') :
  (forall i s s', R s s' -> option_Forall2 R (body i s) (body' i s')) ->
  R s s' ->
  option_Forall2 R (for_le fuel n body i s) (for_le fuel n body' i s').
Proof.
  intros Hbody. revert i s s'.
  induction fuel as [|fuel IH]; intros i s s' Hs; cbn [for_le];
    destruct (i <=? n); try by constructor.
  destruct (Hbody i s s' Hs) as [t t' Ht|]; [|constructor]. by apply IH.
Qed.

(** A loop that has ended ends in the same state with more fuel. *)
Lemma for_le_fuel {S : Type} (fuel fuel' : nat) (n : float)
    (body body' : float -> S -> option S) (i : float) (s r : S) :
  (fuel <= fuel')%nat ->
  (forall i s r, body i s = Some r -> body' i s = Some r) ->
  for_le fuel n body i s = Some r -> for_le fuel' n body' i s = Some r.
Proof.
  intros Hle Hbody. revert fuel' Hle i s.
  induction fuel as [|fuel IH]; intros fuel' Hle i s; cbn [for_le].
  - destruct fuel'; cbn [for_le]; destruct (i <=? n); congruence.
  - destruct fuel' as [|fuel']; [lia|]. cbn [for_le].
    destruct (i <=? n); [|done].
    destruct (body i s) as [s'|] eqn:E; [|done].
    rewrite (Hbody _ _ _ E). apply IH. lia.
Qed.

(** Two generators in the same state return the same number and stay in the
    same state, wherever their variables are. *)
Lemma random_related (l l' : nat) (h h' : heap) :
  h !! l = h' !! l' ->
  (random l h).1 = (random l' h').1
  /\ (random l h).2 !! l = (random l' h').2 !! l'.
Proof.
  intros H. unfold random. cbn [fst snd]. rewrite H.
  by rewrite !lookup_insert_eq.
Qed.

Lemma cell_related (minx miny maxx maxy spacing : float) (l l' : nat) (i j : float)
    (s s' : list point * heap) :
  s.1 = s'.1 /\ s.2 !! l = s'.2 !! l' ->
  (cell minx miny maxx maxy spacing (random l) i j s).1
  = (cell minx miny maxx maxy spacing (random l') i j s').1
  /\ (cell minx miny maxx maxy spacing (random l) i j s).2 !! l
     = (cell minx miny maxx maxy spacing (random l') i j s').2 !! l'.
Proof.
  destruct s as [points h], s' as [points' h']. cbn [fst snd].
  intros [<- H]. unfold cell.
  destruct (random_related l l' h h' H) as [E1 H1].
  destruct (random l h) as [r1 h1], (random l' h') as [r1' h1'].
  cbn [fst snd] in E1, H1. subst r1'.
  destruct (random_related l l' h1 h1' H1) as [E2 H2].
  destruct (random l h1) as [r2 h2], (random l' h1') as [r2' h2'].
  cbn [fst snd] in E2, H2. subst r2'.
  by destruct (_ && _).
Qed.

(** A call leaves the variables that were there as they were. *)
Lemma random_frame (l k : nat) (h : heap) :
  k <> l -> (random l h).2 !! k = h !! k.
Proof. intros Hk. unfold random. cbn [snd]. by rewrite lookup_insert_ne. Qed.

Lemma cell_frame (minx miny maxx maxy spacing : float) (l k : nat) (i j : float)
    (s : list point * heap) :
  k <> l ->
  (cell minx miny maxx maxy spacing (random l) i j s).2 !! k = s.2 !! k.
Proof.
  intros Hk. destruct s as [points h]. unfold cell.
  pose proof (random_frame l k h Hk) as H1.
  destruct (random l h) as [r1 h1]. cbn [snd] in H1.
  pose proof (random_frame l k h1 Hk) as H2.
  destruct (random l h1) as [r2 h2]. cbn [snd] in H2.
  destruct (_ && _); cbn [snd]; congruence.
Qed.

(** A point is pushed only after the two tests. *)
Lemma cell_below (minx miny maxx maxy spacing : float)
    (random : heap -> float * heap) (i j : float) (s : list point * heap) :
  Forall (fun p => (p.1 <? maxx) = true /\ (p.2 <? maxy) = true) s.1 ->
  Forall (fun p => (p.1 <? maxx) = true /\ (p.2 <? maxy) = true)
         (cell minx miny maxx maxy spacing random i j s).1.
Proof.
  destruct s as [points h]. cbn [fst]. intros H. unfold cell.
  destruct (random h) as [r1 h1]. destruct (random h1) as [r2 h2].
  destruct (_ && _) eqn:E; cbn [fst]; [|done].
  apply andb_true_iff in E. apply Forall_app. split; [done|].
  by constructor.
Qed.

(** The same with a property of the counter. *)
Lemma for_le_invariant_counter {S : Type} (I : float -> Prop) (P : S -> Prop)
    (fuel : nat) (n : float) (body : float -> S -> option S) (i : float) (s r : S) :
  (forall i, I i -> I (i + 1)) ->
  (forall i s s', I i -> P s -> body i s = Some s' -> P s') ->
  I i -> P s -> for_le fuel n body i s = Some r -> P r.
Proof.
  intros HI Hbody. revert i s.
  induction fuel as [|fuel IH]; intros i s Hi Hs; cbn [for_le];
    destruct (i <=? n); try congruence.
  destruct (body i s) as [s'|] eqn:E; [|done].
  apply IH; [by apply HI|]. by apply (Hbody i s).
Qed.

Lemma counter_nonneg (i : float) :
  nonneg (Prim2SF i) -> nonneg (Prim2SF (i + 1)).
Proof. intros H. by apply add_nonneg. Qed.

(** A coordinate that passed the test against the upper bound is not below
    the lower bound: each of the three additions adds a number that is not
    negative. *)
Lemma jitter_ge (lo hi spacing i r : float) :
  sign_false (Prim2SF spacing) -> nonneg (Prim2SF i) -> nonneg (Prim2SF r) ->
  (lo + i * spacing + (r * spacing) / 2 + spacing / 4 <? hi) = true ->
  (lo <=? lo + i * spacing + (r * spacing) / 2 + spacing / 4) = true.
Proof.
  intros Hs Hi Hr Hlt. apply sign_false_nonneg in Hs.
  apply ltb_not_nan in Hlt.
  pose proof (add_nan_l _ _ Hlt) as H2. pose proof (add_nan_l _ _ H2) as H1.
  eapply leb_trans; [|eapply leb_trans].
  - apply add_ge; [|exact H1]. by apply mul_nonneg.
  - apply add_ge; [|exact H2]. apply div_nonneg; [by apply mul_nonneg|done].
  - apply add_ge; [|exact Hlt]. by apply div_nonneg.
Qed.

Lemma cell_inside (minx miny maxx maxy spacing : float) (l : nat) (i j : float)
    (s : list point * heap) :
  sign_false (Prim2SF spacing) -> nonneg (Prim2SF i) -> nonneg (Prim2SF j) ->
  Forall (fun p => (minx <=? p.1) = true /\ (miny <=? p.2) = true) s.1
  /\ ge0 (Prim2SF (default nan (s.2 !! l))) ->
  Forall (fun p => (minx <=? p.1) = true /\ (miny <=? p.2) = true)
         (cell minx miny maxx maxy spacing (random l) i j s).1
  /\ ge0 (Prim2SF (default nan
            ((cell minx miny maxx maxy spacing (random l) i j s).2 !! l))).
Proof.
  intros Hs Hi Hj. destruct s as [points h]. cbn [fst snd]. intros [HF Hh].
  unfold cell.
  destruct (random_nonneg l h Hh) as [Hr1 Hh1].
  destruct (random l h) as [r1 h1]. cbn [fst snd] in Hr1, Hh1.
  destruct (random_nonneg l h1 Hh1) as [Hr2 Hh2].
  destruct (random l h1) as [r2 h2]. cbn [fst snd] in Hr2, Hh2.
  destruct (_ && _) eqn:E; cbn [fst snd]; [|done].
  apply andb_true_iff in E as [Ex Ey]. split; [|done].
  apply Forall_app. split; [done|]. constructor; [|constructor].
  cbn [fst snd]. split; by eapply jitter_ge.
Qed.

(** The points of a call that returns are below the upper bounds. *)
Lemma grid_below (fuel : nat)
    (minx miny maxx maxy spacing tileX tileY tileZ : float)
    (h h' : heap) (points : list point) :
  generateJitteredGrid fuel minx miny maxx maxy spacing tileX tileY tileZ h
    = Some (points, h') ->
  Forall (fun p => (p.1 <? maxx) = true /\ (p.2 <? maxy) = true) points.
Proof.
  unfold generateJitteredGrid, seededRandom. cbn zeta. intros H.
  apply (for_le_invariant
           (fun s => Forall (fun p => (p.1 <? maxx) = true
                                      /\ (p.2 <? maxy) = true) s.1))
    in H; [done| |by constructor].
  intros i s s' Hs Hinner.
  apply (for_le_invariant
           (fun s => Forall (fun p => (p.1 <? maxx) = true
                                      /\ (p.2 <? maxy) = true) s.1))
    in Hinner; [done| |done].
  intros j t t' Ht [= <-]. by apply cell_below.
Qed.

(** With a positive spacing and a seed that is not negative they are not
    below the lower bounds. *)
Lemma grid_above (fuel : nat)
    (minx miny maxx maxy spacing tileX tileY tileZ : float)
    (h h' : heap) (points : list point) :
  (0 <? spacing) = true ->
  (0 <=? tileZ * 1000000 + tileX * 1000 + tileY) = true ->
  generateJitteredGrid fuel minx miny maxx maxy spacing tileX tileY tileZ h
    = Some (points, h') ->
  Forall (fun p => (minx <=? p.1) = true /\ (miny <=? p.2) = true) points.
Proof.
  intros Hspacing Hseed.
  unfold generateJitteredGrid, seededRandom. cbn zeta.
  set (l := fresh (dom h)). intros H.
  apply ltb_zero_sign_false in Hspacing. apply leb_zero_ge0 in Hseed.
  set (P := fun s : list point * heap =>
    Forall (fun p => (minx <=? p.1) = true /\ (miny <=? p.2) = true) s.1
    /\ ge0 (Prim2SF (default nan (s.2 !! l)))).
  apply (for_le_invariant_counter (fun i => nonneg (Prim2SF i)) P) in H.
  - apply H.
  - apply counter_nonneg.
  - intros i s s' Hi Hs Hinner.
    apply (for_le_invariant_counter (fun j => nonneg (Prim2SF j)) P) in Hinner;
      [done|apply counter_nonneg| |done|done].
    intros j t t' Hj Ht [= <-]. by apply cell_inside.
  - done.
  - split; [by constructor|]. cbn [snd]. by rewrite lookup_insert_eq.
Qed.

(** A loop up to [Infinity] does not end. *)
Lemma for_le_infinity {S : Type} (fuel : nat) (body : float -> S -> option S)
    (i : float) (s : S) :
  sign_false (Prim2SF i) -> for_le fuel infinity body i s = None.
Proof.
  revert i s. induction fuel as [|fuel IH]; intros i s Hi; cbn [for_le];
    (rewrite leb_infinity; [|by destruct (Prim2SF i)]); [done|].
  destruct (body i s) as [s'|]; [|done]. by apply IH, counter_number.
Qed.

End spots_facts.

Section spots_claims.
Import Floats.
Local Open Scope float_scope.




(** C5.  The points returned are a function of the bounds, the spacing and
    the seed [tileZ * 1000000 + tileX * 1000 + tileY] alone: the generator
    works on a variable of its own, so two calls whose arguments give the
    same seed (in particular two calls with the same arguments) return the
    same points in the same order whatever the heaps they run in, and
    whatever the number of rounds they are given to end. *)
Theorem generateJitteredGrid_deterministic (fuel fuel' : nat)
    (minx miny maxx maxy spacing : float)
    (tileX tileY tileZ tileX' tileY' tileZ' : float)
    (h h' : Spots.heap) :
  (tileZ * 1000000 + tileX * 1000 + tileY
   = tileZ' * 1000000 + tileX' * 1000 + tileY') ->
  fst <$> Spots.generateJitteredGrid fuel minx miny maxx maxy spacing
            tileX tileY tileZ h
  = fst <$> Spots.generateJitteredGrid fuel minx miny maxx maxy spacing
              tileX' tileY' tileZ' h'
  /\
  forall points points' h1 h1',
    Spots.generateJitteredGrid fuel minx miny maxx maxy spacing
      tileX tileY tileZ h = Some (points, h1) ->
    Spots.generateJitteredGrid fuel' minx miny maxx maxy spacing
      tileX' tileY' tileZ' h' = Some (points', h1') ->
    points = points'.
Proof.
  intros Hseed.
  assert (Hsame : forall fuel,
    fst <$> Spots.generateJitteredGrid fuel minx miny maxx maxy spacing
              tileX tileY tileZ h
    = fst <$> Spots.generateJitteredGrid fuel minx miny maxx maxy spacing
                tileX' tileY' tileZ' h').
  { intros n. unfold Spots.generateJitteredGrid, Spots.seededRandom. cbn zeta.
    rewrite <- Hseed.
    set (l := fresh (dom h)). set (l' := fresh (dom h')).
    set (R := fun s s' : list Spots.point * Spots.heap =>
                s.1 = s'.1 /\ s.2 !! l = s'.2 !! l').
    match goal with
    | |- fst <$> ?a = fst <$> ?b => assert (HR : option_Forall2 R a b)
    end.
    { apply for_le_related.
      - intros i s s' Hs. apply for_le_related; [|done].
        intros j t t' Ht. constructor. by apply cell_related.
      - split; [done|]. cbn [snd]. by rewrite !lookup_insert_eq. }
    destruct HR as [s s' [Hs _]|]; cbn; [by rewrite Hs|done]. }
  split; [apply Hsame|].
  intros points points' h1 h1' H1 H2.
  assert (Hmore : forall n m minx miny maxx maxy spacing tileX tileY tileZ h r,
    (n <= m)%nat ->
    Spots.generateJitteredGrid n minx miny maxx maxy spacing tileX tileY tileZ h
      = Some r ->
    Spots.generateJitteredGrid m minx miny maxx maxy spacing tileX tileY tileZ h
      = Some r).
  { clear. intros n m minx miny maxx maxy spacing tileX tileY tileZ h r Hle.
    unfold Spots.generateJitteredGrid. cbn zeta.
    destruct (Spots.seededRandom _ h) as [random h0].
    apply for_le_fuel; [done|].
    intros i s r'. by apply for_le_fuel. }
  apply (Hmore _ (Nat.max fuel fuel')) in H1; [|lia].
  apply (Hmore _ (Nat.max fuel fuel')) in H2; [|lia].
  pose proof (Hsame (Nat.max fuel fuel')) as E.
  rewrite H1, H2 in E. by injection E.
Qed.

Lemma generateJitteredGrid_deterministic_witness :
  fst <$> Spots.generateJitteredGrid 5 0 0 4 4 1.5 1 2 3 ∅
  = fst <$> Spots.generateJitteredGrid 5 0 0 4 4 1.5 0 1002 3 {[ 0%nat := 7 ]}.
Proof.
  apply (generateJitteredGrid_deterministic 5 5 0 0 4 4 1.5 1 2 3 0 1002 3).
  reflexivity.
Defined.

(** A second call in the heap that the first one left returns the same
    points: the first generator's variable is not the second's. *)
Example generateJitteredGrid_twice :
  exists points h1 h2,
    Spots.generateJitteredGrid 5 0 0 4 4 1.5 1 2 3 ∅ = Some (points, h1)
    /\ Spots.generateJitteredGrid 5 0 0 4 4 1.5 1 2 3 h1 = Some (points, h2)
    /\ size h1 = 1%nat /\ size h2 = 2%nat.
Proof.
  eexists _, _, _. split; [vm_compute; reflexivity|].
  split; [vm_compute; reflexivity|]. split; by vm_compute.
Qed.

End spots_claims.

(* ================================================================== *)
(** ** More on the spot-sounding grid *)
(* ================================================================== *)

Section spots_more.
Import Floats Float64 Spots.
Local Open Scope float_scope.

Lemma random_stream_nonneg (n : nat) (l : nat) (h : heap) :
  ge0 (Prim2SF (default nan (h !! l))) ->
  Forall (fun r => nonneg (Prim2SF r)) (random_stream n (random l) h).
Proof.
  revert h. induction n as [|n IH]; intros h Hh; cbn [random_stream];
    [by constructor|].
  destruct (random_nonneg l h Hh) as [Hr Hh']. constructor; [done|by apply IH].
Qed.

(** X1.  After [seededRandom(seed)] with a seed that is not negative, no
    number that the generator returns is negative: each is a number that
    is at least zero, or [NaN] (as for the seeds whose product with 1664525
    overflows). *)
Theorem seededRandom_not_negative (seed : float) (h : heap) (n : nat) :
  (0 <=? seed) = true ->
  Forall (fun r => (r <? 0) = false)
         (random_stream n (seededRandom seed h).1 (seededRandom seed h).2).
Proof.
  intros Hseed. apply leb_zero_ge0 in Hseed.
  unfold seededRandom. cbn [fst snd].
  eapply Forall_impl; [apply random_stream_nonneg|].
  - by rewrite lookup_insert_eq.
  - intros r. apply ltb_zero_nonneg.
Qed.

Lemma seededRandom_not_negative_witness :
  Forall (fun r => (r <? 0) = false)
         (random_stream 3 (seededRandom 3001002 ∅).1 (seededRandom 3001002 ∅).2).
Proof. apply seededRandom_not_negative. reflexivity. Defined.

(** The first three numbers for the seed 3001002, and for a seed that makes
    the product overflow. *)
Example seededRandom_3001002 :
  random_stream 3 (seededRandom 3001002 ∅).1 (seededRandom 3001002 ∅).2
  = [1209793025 / 4294967296; 1972374380 / 4294967296; 3067645915 / 4294967296].
Proof. by vm_compute. Qed.

Example seededRandom_overflow :
  random_stream 2 (seededRandom 0x1p+1010 ∅).1 (seededRandom 0x1p+1010 ∅).2
  = [nan; nan].
Proof. by vm_compute. Qed.

(** X2.  When the quotient [(maxx - minx) / spacing] is so large that its
    floor is [Infinity] (a tiny spacing, or a spacing of zero), the call
    does not return: the outer loop does not end, whatever the number of
    rounds it is given. *)
Theorem generateJitteredGrid_never_returns (fuel : nat)
    (minx miny maxx maxy spacing tileX tileY tileZ : float) (h : heap) :
  Math_floor ((maxx - minx) / spacing) = infinity ->
  generateJitteredGrid fuel minx miny maxx maxy spacing tileX tileY tileZ h = None.
Proof.
  intros Hnx. unfold generateJitteredGrid, seededRandom. cbn zeta. rewrite Hnx.
  by apply for_le_infinity.
Qed.

Lemma generateJitteredGrid_never_returns_witness :
  generateJitteredGrid 1000 0 0 4 4 0x1p-1074 1 2 3 ∅ = None
  /\ generateJitteredGrid 1000 0 0 4 4 0 1 2 3 ∅ = None.
Proof.
  split; apply generateJitteredGrid_never_returns; by vm_compute.
Defined.

(** X3.  The generator of a call works on a variable of its own: the call
    creates one variable and leaves every variable that was on the heap as
    it was. *)
Theorem generateJitteredGrid_frame (fuel : nat)
    (minx miny maxx maxy spacing tileX tileY tileZ : float)
    (h h' : heap) (points : list point) :
  generateJitteredGrid fuel minx miny maxx maxy spacing tileX tileY tileZ h
    = Some (points, h') ->
  h !! fresh (dom h) = None
  /\ is_Some (h' !! fresh (dom h))
  /\ forall k, k <> fresh (dom h) -> h' !! k = h !! k.
Proof.
  unfold generateJitteredGrid, seededRandom. cbn zeta.
  set (l := fresh (dom h)). intros H.
  split; [apply not_elem_of_dom, is_fresh|].
  set (P := fun s : list point * heap =>
    is_Some (s.2 !! l) /\ forall k, k <> l -> s.2 !! k = h !! k).
  apply (for_le_invariant P) in H; [exact H| |].
  - intros i s s' Hs Hinner.
    apply (for_le_invariant P) in Hinner; [done| |done].
    intros j t t' [Ht1 Ht2] [= <-]. split.
    + destruct t as [pts ht]. unfold cell, random. cbn [fst snd].
      destruct (_ && _); cbn [snd]; by rewrite lookup_insert_eq.
    + intros k Hk. rewrite cell_frame by done. by apply Ht2.
  - split; cbn [snd]; [by rewrite lookup_insert_eq|].
    intros k Hk. by rewrite lookup_insert_ne.
Qed.

Lemma generateJitteredGrid_frame_witness :
  exists points h',
    generateJitteredGrid 5 0 0 4 4 1.5 1 2 3 {[ 0%nat := 7 ]} = Some (points, h')
    /\ h' !! 0%nat = Some 7.
Proof.
  eexists _, _. split; [vm_compute; reflexivity|].
  edestruct (generateJitteredGrid_frame 5 0 0 4 4 1.5 1 2 3 {[ 0%nat := 7 ]})
    as (_ & _ & H).
  { vm_compute. reflexivity. }
  rewrite H; [reflexivity|]. by vm_compute.
Defined.

(** X4.  With a positive spacing and a seed that is not negative, a call
    that returns for bounds that hold nothing ([minx < maxx] or
    [miny < maxy] is false) returns no point. *)
Theorem generateJitteredGrid_empty_bounds (fuel : nat)
    (minx miny maxx maxy spacing tileX tileY tileZ : float)
    (h h' : heap) (points : list point) :
  (0 <? spacing) = true ->
  (0 <=? tileZ * 1000000 + tileX * 1000 + tileY) = true ->
  (minx <? maxx) = false \/ (miny <? maxy) = false ->
  generateJitteredGrid fuel minx miny maxx maxy spacing tileX tileY tileZ h
    = Some (points, h') ->
  points = [].
Proof.
  intros Hspacing Hseed Hempty H.
  pose proof (grid_below _ _ _ _ _ _ _ _ _ _ _ _ H) as Hb.
  pose proof (grid_above _ _ _ _ _ _ _ _ _ _ _ _ Hspacing Hseed H) as Ha.
  destruct points as [|p points]; [done|]. exfalso.
  apply Forall_cons in Hb as [[Hb1 Hb2] _].
  apply Forall_cons in Ha as [[Ha1 Ha2] _].
  pose proof (leb_ltb_trans _ _ _ Ha1 Hb1).
  pose proof (leb_ltb_trans _ _ _ Ha2 Hb2).
  destruct Hempty; congruence.
Qed.

Lemma generateJitteredGrid_empty_bounds_witness :
  exists h', generateJitteredGrid 5 4 0 4 4 1.5 1 2 3 ∅ = Some ([], h').
Proof.
  assert (H : exists points h',
    generateJitteredGrid 5 4 0 4 4 1.5 1 2 3 ∅ = Some (points, h'))
    by (eexists _, _; vm_compute; reflexivity).
  destruct H as (points & h' & H). exists h'.
  by rewrite (generateJitteredGrid_empty_bounds 5 4 0 4 4 1.5 1 2 3 ∅ h' points)
    in H by (reflexivity || (left; reflexivity) || exact H).
Defined.

(** A loop whose bound is below a whole number [B] ends within [B + 1]
    rounds, when its body does. *)
Lemma for_le_counts {S : Type} (n : float) (body : float -> S -> option S)
    (B : Z) (d : nat) :
  (of_int B <=? n) = false -> (B <= 2 ^ 53)%Z ->
  (forall i s, is_Some (body i s)) ->
  forall (k : Z) (fuel : nat) (s : S),
    (0 <= k)%Z -> (k + Z.of_nat d = B)%Z -> (d < fuel)%nat ->
    is_Some (for_le fuel n body (of_int k) s).
Proof.
  intros HB HB' Hbody. induction d as [|d IH]; intros k fuel s Hk Hd Hfuel.
  - assert (k = B) as -> by lia. destruct fuel; cbn [for_le]; by rewrite HB.
  - destruct fuel as [|fuel]; [lia|]. cbn [for_le].
    destruct (of_int k <=? n); [|done].
    destruct (Hbody (of_int k) s) as [s' ->].
    rewrite of_int_succ by lia. apply IH; lia.
Qed.

(** X12.  When the floors of the two quotients are below 1024 (or are not
    numbers), the call returns: the counters count 0, 1, 2, ... exactly, so
    both loops end. *)
Theorem generateJitteredGrid_returns
    (minx miny maxx maxy spacing tileX tileY tileZ : float) (h : heap) :
  (1024 <=? Math_floor ((maxx - minx) / spacing)) = false ->
  (1024 <=? Math_floor ((maxy - miny) / spacing)) = false ->
  exists fuel points h',
    generateJitteredGrid fuel minx miny maxx maxy spacing tileX tileY tileZ h
    = Some (points, h').
Proof.
  intros Hx Hy.
  set (d := Z.to_nat 1024).
  assert (Hd : (0 + Z.of_nat d = 1024)%Z) by (unfold d; lia).
  clearbody d.
  assert (H53 : (1024 <= 2 ^ 53)%Z) by (by vm_compute).
  exists (S d). unfold generateJitteredGrid, seededRandom. cbn zeta.
  match goal with
  | |- exists points h', ?run = Some (points, h') =>
      assert (Hrun : is_Some run); [|destruct Hrun as [[points h'] ->]; by eauto]
  end.
  change 0 with (of_int 0).
  apply (for_le_counts _ _ 1024 d); [exact Hx|done| |lia|done|lia].
  intros i s.
  apply (for_le_counts _ _ 1024 d); [exact Hy|done| |lia|done|lia].
  by eexists.
Qed.

Lemma generateJitteredGrid_returns_witness :
  exists fuel points h',
    generateJitteredGrid fuel 0 0 4 4 (3 / 2) 1 2 3 ∅ = Some (points, h').
Proof. apply generateJitteredGrid_returns; by vm_compute. Defined.

(** [Math.floor] and [%] on some numbers. *)
Example Math_floor_examples :
  Math_floor (1 / (1 / 10)) = 10 /\ Math_floor (5 / 2) = 2
  /\ Math_floor (-5 / 2) = -3 /\ Math_floor (-1 / 2) = -1
  /\ Math_floor (1 / 2) = 0 /\ Math_floor (-0) = (-0)
  /\ Math_floor infinity = infinity /\ Math_floor nan = nan
  /\ Math_floor (4 / 0x1p-1074) = infinity.
Proof. by vm_compute. Qed.

Example rem_examples :
  rem (11 / 2) 2 = 3 / 2 /\ rem (-11 / 2) 2 = -3 / 2 /\ rem (-4) 2 = (-0)
  /\ rem 7 infinity = 7 /\ rem infinity 2 = nan /\ rem 3 0 = nan
  /\ rem (8411408000 * 1664525 + 1013904223) 4294967296 = 3530598368.
Proof. by vm_compute. Qed.

End spots_more.

(* ================================================================== *)
(** ** More on [withTimeout] *)
(* ================================================================== *)

Section abortable_more.
Import Abortable.
Context {T : Type}.

(** A cleared or fired timer stays so. *)
Lemma step_timeout_off (st : state T) (e : event T) :
  timeout st = false -> timeout (step st e) = false.
Proof.
  intros H. destruct st as [tm c l cp v r]. cbn in H. subst tm.
  destruct e as [| |o']; destruct cp, c as [[]|], l, v, r; reflexivity.
Qed.

(** With the timer off, only a call of [abort] changes the controller. *)
Lemma step_controller_kept (st : state T) (e : event T) :
  timeout st = false -> is_abort e = false ->
  controller (step st e) = controller st.
Proof.
  intros H He. destruct st as [tm c l cp v r]. cbn in H. subst tm.
  destruct e as [| |o']; [|done|]; destruct cp, c as [[]|], l, v, r; reflexivity.
Qed.

Lemma run_timeout_off (st : state T) (trace : list (event T)) :
  timeout st = false ->
  timeout (run st trace) = false
  /\ (forallb (fun e => negb (is_abort e)) trace = true ->
      controller (run st trace) = controller st).
Proof.
  revert st. induction trace as [|e tr IH]; intros st H; [done|].
  rewrite run_cons. destruct (IH (step st e) (step_timeout_off st e H)) as [H1 H2].
  split; [done|]. cbn [forallb]. intros [He Htr]%andb_true_iff.
  rewrite (H2 Htr). apply step_controller_kept; [done|].
  by apply negb_true_iff in He.
Qed.

(** Without a controller that can still be aborted, a call of [abort]
    changes nothing. *)
Lemma step_abort_noop (st : state T) :
  controller st <> Some false -> step st AbortCalled = st.
Proof.
  destruct st as [tm c l cp v r]. cbn. by destruct c as [[]|].
Qed.

Lemma step_not_abortable (st : state T) (e : event T) :
  controller st <> Some false -> controller (step st e) <> Some false.
Proof.
  destruct st as [tm c l cp v r]. cbn. intros H.
  destruct e as [| |o']; destruct tm, cp, c as [[]|], l, v, r; cbn; congruence.
Qed.

Lemma run_abort_noop (st : state T) (trace : list (event T)) :
  controller st <> Some false ->
  run st trace = run st (List.filter (fun e => negb (is_abort e)) trace).
Proof.
  revert st. induction trace as [|e tr IH]; intros st H; [done|].
  cbn [List.filter]. destruct e as [| |o']; cbn [is_abort negb].
  - rewrite !run_cons. apply IH. by apply step_not_abortable.
  - rewrite run_cons, step_abort_noop by done. by apply IH.
  - rewrite !run_cons. apply IH. by apply step_not_abortable.
Qed.

Lemma outcome_source_mono (c : option bool) (seen more : list (event T))
    (r : outcome T) :
  outcome_source c seen r -> outcome_source c (seen ++ more) r.
Proof.
  unfold outcome_source. rewrite !in_app_iff. tauto.
Qed.

Lemma step_source_inv (c : option bool) (seen : list (event T)) (st : state T)
    (e : event T) :
  source_inv c seen st -> source_inv c (seen ++ [e]) (step st e).
Proof.
  intros (Hc & Hl & Hr).
  assert (Hr' : forall r, returned st = Some r -> outcome_source c (seen ++ [e]) r).
  { intros r Hret. by apply outcome_source_mono, Hr. }
  clear Hr. destruct st as [tm c0 l cp v r0]. cbn in Hc, Hl, Hr'.
  assert (Hnew : forall r,
    (r = Rejected "aborted" /\ c0 = Some false /\ e = AbortCalled)
    \/ (r = Rejected "timed out" /\ e = TimerExpires)
    \/ e = ValueSettles r ->
    outcome_source c (seen ++ [e]) r).
  { unfold outcome_source. intros r. rewrite !in_app_iff. cbn.
    intros [(-> & -> & ->)|[(-> & ->)| ->]]; [left|right; left|right; right]; auto. }
  unfold source_inv.
  destruct e as [| |o']; destruct tm, cp, c0 as [[]|], l, v, r0; cbn;
    (split; [by auto|]); (split; [by auto|]);
    intros r [= <-]; first [ by apply Hr' | apply Hnew; by auto ].
Qed.

Lemma run_source_inv (c : option bool) (trace seen : list (event T)) (st : state T) :
  source_inv c seen st -> source_inv c (seen ++ trace) (run st trace).
Proof.
  revert seen st. induction trace as [|e tr IH]; intros seen st H.
  - by rewrite app_nil_r.
  - rewrite run_cons, (cons_middle e seen tr), app_assoc.
    apply IH. by apply step_source_inv.
Qed.

End abortable_more.

(** X5.  When the value settles before anything else and nobody calls
    [abort] afterwards, the returned promise settles as the value does, the
    timer is cleared and the controller stays as it was at the call: the
    timeout no longer rejects the promise or aborts the controller. *)
Theorem withTimeout_value_settles_first (T : Type) (c : option bool)
    (o : Abortable.outcome T) (trace : list (Abortable.event T)) :
  forallb (fun e => negb (is_abort e)) trace = true ->
  let st := Abortable.run (Abortable.withTimeout c)
                          (Abortable.ValueSettles o :: trace) in
  Abortable.returned st = Some o
  /\ Abortable.timeout st = false
  /\ Abortable.controller st = c.
Proof.
  intros Htr st. unfold st. rewrite run_cons.
  set (st1 := Abortable.step (Abortable.withTimeout c) (Abortable.ValueSettles o)).
  assert (H1 : Abortable.returned st1 = Some o) by (by destruct c).
  assert (H2 : Abortable.timeout st1 = false) by (by destruct c).
  assert (H3 : Abortable.controller st1 = c) by (by destruct c).
  split; [by apply run_returned|].
  destruct (run_timeout_off st1 trace H2) as [H4 H5].
  split; [done|]. by rewrite (H5 Htr).
Qed.

Lemma withTimeout_value_settles_first_witness :
  let st := Abortable.run (Abortable.withTimeout (Some false))
       [Abortable.ValueSettles (Abortable.Fulfilled 7); Abortable.TimerExpires] in
  Abortable.returned st = Some (Abortable.Fulfilled 7)
  /\ Abortable.timeout st = false
  /\ Abortable.controller st = Some false.
Proof. apply withTimeout_value_settles_first. reflexivity. Defined.

(** X6.  Without a controller, or with one that was aborted before the
    call, calls of [abort] have no effect on what [withTimeout] does: the
    run is the same as without them. *)
Theorem withTimeout_abort_ignored (T : Type) (trace : list (Abortable.event T)) :
  Abortable.run (Abortable.withTimeout None) trace
  = Abortable.run (Abortable.withTimeout None)
      (List.filter (fun e => negb (is_abort e)) trace)
  /\
  Abortable.run (Abortable.withTimeout (Some true)) trace
  = Abortable.run (Abortable.withTimeout (Some true))
      (List.filter (fun e => negb (is_abort e)) trace).
Proof. split; by apply run_abort_noop. Qed.

(** X7.  Whatever happens after the call, the returned promise is pending
    or has one of three outcomes: the error [aborted], only with a controller
    that was not aborted at the call and after a call of [abort]; the error
    [timed out], only after the timer expired; or the outcome of the value. *)
Theorem withTimeout_outcomes (T : Type) (c : option bool)
    (trace : list (Abortable.event T)) :
  match Abortable.returned (Abortable.run (Abortable.withTimeout c) trace) with
  | Some r => outcome_source c trace r
  | None => True
  end.
Proof.
  pose proof (run_source_inv c trace [] (Abortable.withTimeout c)) as H.
  cbn [app] in H. destruct H as (_ & _ & H).
  - by destruct c as [[]|].
  - destruct (Abortable.returned _) as [r|]; [by apply H|done].
Qed.

(* ================================================================== *)
(** ** More on the isoline and isoband generators *)
(* ================================================================== *)

Section contour_more.
Import JS Contour.

Lemma num_char_not_ws :
  forall a, implb (is_num_char a) (negb (is_ws a)) = true.
Proof. apply ascii_forall. by vm_compute. Qed.

Lemma trim_ToString (n : number) : trim (ToString n) = ToString n.
Proof.
  apply trim_id. eapply all_chars_weaken; [|apply ToString_chars].
  intros c Hc. pose proof (num_char_not_ws c) as H. by rewrite Hc in H.
Qed.

Lemma colon_not_num_char : is_num_char ":" = false.
Proof. reflexivity. Qed.

Lemma comma_not_num_char : is_num_char "," = false.
Proof. reflexivity. Qed.

Lemma split_rangeKey (lower upper : Z) :
  split ":" (rangeKey lower upper) = [ToString (Int lower); ToString (Int upper)].
Proof.
  unfold rangeKey.
  change (ToString (Int lower) ++ ":" ++ ToString (Int upper))
    with (join ":" [ToString (Int lower); ToString (Int upper)]).
  apply (split_join ":"); [done|].
  repeat constructor; apply ToString_lacks, colon_not_num_char.
Qed.

Lemma rangeKey_inj (lo up lo' up' : Z) :
  rangeKey lo up = rangeKey lo' up' -> lo = lo' /\ up = up'.
Proof.
  intros H. apply (f_equal (split ":")) in H. rewrite !split_rangeKey in H.
  assert (H1 : ToString (Int lo) = ToString (Int lo')) by congruence.
  assert (H2 : ToString (Int up) = ToString (Int up')) by congruence.
  apply ToString_inj in H1, H2. by simplify_eq.
Qed.

Variable isoLines :
  list (list Q) -> list Z -> MSOptions -> option (list (list (list Coord))).
Variable isoBands :
  list (list Q) -> list Z -> list Z -> MSOptions ->
  option (list (list (list Coord))).

Lemma isoline_step_entry tile extent result level :
  isoline_step isoLines tile extent (tile_data tile) result level
  = match isoline_entry isoLines tile extent level with
    | Some g => <[level := g]> result
    | None => result
    end.
Proof.
  unfold isoline_step, isoline_entry.
  destruct (isoLines _ _ _) as [[|lines rest]|]; try done.
  by destruct (collect 4 _ lines).
Qed.

Lemma isoline_fold_lookup tile extent (levels : list Z) result (z : Z) :
  fold_left (isoline_step isoLines tile extent (tile_data tile)) levels result !! z
  = if decide (z ∈ levels)
    then match isoline_entry isoLines tile extent z with
         | Some g => Some g
         | None => result !! z
         end
    else result !! z.
Proof.
  revert result. induction levels as [|a l IH]; intros result; cbn [fold_left].
  - by rewrite decide_False by apply not_elem_of_nil.
  - rewrite IH, isoline_step_entry.
    destruct (decide (a = z)) as [->|Hne].
    + rewrite (decide_True (P := z ∈ z :: l)) by (by left).
      destruct (isoline_entry isoLines tile extent z) as [g|] eqn:E.
      * rewrite lookup_insert_eq. by destruct (decide (z ∈ l)).
      * by destruct (decide (z ∈ l)).
    + assert (Hz : (if isoline_entry isoLines tile extent a is Some g
                    then <[a := g]> result else result) !! z = result !! z).
      { destruct (isoline_entry isoLines tile extent a); [|done].
        by rewrite lookup_insert_ne. }
      destruct (decide (z ∈ l)) as [Hin|Hnin].
      * rewrite (decide_True (P := z ∈ a :: l)) by (by right).
        destruct (isoline_entry isoLines tile extent z); [done|].
        destruct (isoline_entry isoLines tile extent a); [|done].
        by rewrite lookup_insert_ne.
      * rewrite (decide_False (P := z ∈ a :: l)).
        -- destruct (isoline_entry isoLines tile extent a); [|done].
           by rewrite lookup_insert_ne.
        -- intros [?|?]%elem_of_cons; congruence.
Qed.

Lemma isoband_step_entry tile extent result range :
  isoband_step isoBands tile extent (tile_data tile) result range
  = match isoband_entry isoBands tile extent range with
    | Some g => <[rangeKey range.1 range.2 := g]> result
    | None => result
    end.
Proof.
  unfold isoband_step, isoband_entry. destruct range as [lo up]. cbn [fst snd].
  destruct (isoBands _ _ _ _) as [[|[|p paths] rest]|]; try done.
  by destruct (collect 6 _ (p :: paths)).
Qed.

Lemma isoband_fold_lookup tile extent (ranges : list (Z * Z)) result (range : Z * Z) :
  fold_left (isoband_step isoBands tile extent (tile_data tile)) ranges result
    !! rangeKey range.1 range.2
  = if decide (range ∈ ranges)
    then match isoband_entry isoBands tile extent range with
         | Some g => Some g
         | None => result !! rangeKey range.1 range.2
         end
    else result !! rangeKey range.1 range.2.
Proof.
  revert result. induction ranges as [|a l IH]; intros result; cbn [fold_left].
  - by rewrite decide_False by apply not_elem_of_nil.
  - rewrite IH, isoband_step_entry.
    destruct (decide (a = range)) as [->|Hne].
    + rewrite (decide_True (P := range ∈ range :: l)) by (by left).
      destruct (isoband_entry isoBands tile extent range) as [g|] eqn:E.
      * rewrite lookup_insert_eq. by destruct (decide (range ∈ l)).
      * by destruct (decide (range ∈ l)).
    + assert (Hk : rangeKey a.1 a.2 <> rangeKey range.1 range.2).
      { intros [H1 H2]%rangeKey_inj. apply Hne.
        destruct a, range. cbn in *. congruence. }
      destruct (decide (range ∈ l)) as [Hin|Hnin].
      * rewrite (decide_True (P := range ∈ a :: l)) by (by right).
        destruct (isoband_entry isoBands tile extent range); [done|].
        destruct (isoband_entry isoBands tile extent a); [|done].
        by rewrite lookup_insert_ne.
      * rewrite (decide_False (P := range ∈ a :: l)).
        -- destruct (isoband_entry isoBands tile extent a); [|done].
           by rewrite lookup_insert_ne.
        -- intros [?|?]%elem_of_cons; congruence.
Qed.

End contour_more.

Section contour_more_theorems.
Import JS Contour.

Variable isoLines :
  list (list Q) -> list Z -> MSOptions -> option (list (list (list Coord))).
Variable isoBands :
  list (list Q) -> list Z -> list Z -> MSOptions ->
  option (list (list (list Coord))).

(** X8.  The mapping returned by [generateIsolinesMS] holds, for each
    requested level, exactly what that level alone produces: the surviving
    lines of its own [isoLines] call, and nothing when that call throws or
    no line survives.  Levels that were not requested have no entry; other
    levels, repeated levels and failing levels do not change an entry. *)
Theorem generateIsolinesMS_lookup (levels : string + list Z) (tile : HeightTile)
    (extent : Q) (z : Z) :
  generateIsolinesMS isoLines levels tile extent !! z
  = if decide (z ∈ levelArray_of levels)
    then isoline_entry isoLines tile extent z
    else None.
Proof.
  unfold generateIsolinesMS.
  destruct (levelArray_of levels) as [|a l] eqn:E.
  - rewrite lookup_empty. by rewrite decide_False by apply not_elem_of_nil.
  - rewrite isoline_fold_lookup, lookup_empty.
    destruct (decide (z ∈ sort_levels (a :: l))) as [Hin|Hnin].
    + rewrite sort_levels_perm in Hin. rewrite decide_True by done.
      by destruct (isoline_entry isoLines tile extent z).
    + rewrite sort_levels_perm in Hnin. by rewrite decide_False.
Qed.

(** X9.  The mapping returned by [generateIsobands] holds, under the key of
    each pair of adjacent sorted levels, exactly what that range alone
    produces: the surviving rings of its own [isoBands] call, and nothing
    when that call throws or no ring survives; the key of any other pair has
    no entry. *)
Theorem generateIsobands_lookup (levels : string + list Z) (tile : HeightTile)
    (extent : Q) (lower upper : Z) :
  generateIsobands isoBands levels tile extent !! rangeKey lower upper
  = if decide ((lower, upper) ∈ adjacent_pairs (sort_levels (levelArray_of levels)))
    then isoband_entry isoBands tile extent (lower, upper)
    else None.
Proof.
  unfold generateIsobands.
  destruct (levelArray_of levels) as [|a l] eqn:E.
  - rewrite lookup_empty. by rewrite decide_False by apply not_elem_of_nil.
  - pose proof (isoband_fold_lookup isoBands tile extent
                  (adjacent_pairs (sort_levels (a :: l))) ∅ (lower, upper)) as H.
    cbn [fst snd] in H. rewrite H, lookup_empty.
    destruct (decide _); [|done].
    by destruct (isoband_entry isoBands tile extent (lower, upper)).
Qed.

End contour_more_theorems.

(** X10.  A range key splits at its colon into the two bounds it was made
    from, negative bounds included: two ranges have the same key only if
    they have the same bounds. *)
Theorem rangeKey_parse (lower upper : Z) :
  map JS.Number (JS.split ":" (Contour.rangeKey lower upper))
  = [JS.Int lower; JS.Int upper].
Proof.
  rewrite split_rangeKey. cbn [map]. by rewrite !Number_ToString.
Qed.

(** X11.  A non-empty array of levels written as a comma-separated string
    is read back as the same array by the string branch of the generators. *)
Theorem level_string_round_trip (levels : list Z) :
  levels <> [] ->
  Contour.levelArray_of
    (inl (JS.join "," (map (fun z => JS.ToString (JS.Int z)) levels)))
  = levels.
Proof.
  intros Hne. cbn [Contour.levelArray_of]. rewrite finite_parse_levels.
  rewrite (split_join ",").
  - induction levels as [|z l IH]; [done|].
    cbn [map]. change (omap ?f (?e :: ?r)) with
      (match f e with Some y => y :: omap f r | None => omap f r end).
    cbv beta. rewrite trim_ToString, Number_ToString. cbn [JS.number_to_option].
    f_equal. destruct l as [|z' l']; [done|]. by apply IH.
  - intros E. apply map_eq_nil in E. done.
  - apply Forall_forall. intros s Hs.
    apply list_elem_of_In, in_map_iff in Hs as (z & <- & _).
    apply ToString_lacks, comma_not_num_char.
Qed.

Lemma level_string_round_trip_witness :
  Contour.levelArray_of
    (inl (JS.join "," (map (fun z => JS.ToString (JS.Int z)) [-100; -75; 0])))
  = [-100; -75; 0].
Proof. apply level_string_round_trip. discriminate. Defined.

(** The empty array is written as the empty string, which reads as [[0]]. *)
Example level_string_empty :
  Contour.levelArray_of (inl (JS.join "," [])) = [0].
Proof. reflexivity. Qed.

(* ================================================================== *)
(** ** More on [getOptionsForZoom] *)
(* ================================================================== *)

Section zoom_more.
Import JS Utils.

Lemma selected_between {W} (m : option (gmap number W)) (z1 z2 : Z) (r : option W) :
  z1 <= z2 -> no_key_between m z1 z2 ->
  selected m z1 r -> selected m z2 r.
Proof.
  intros Hz Hno. destruct r as [w|]; cbn.
  - intros (m' & k & -> & Hw & Hk & Hmax). exists m', k.
    split; [done|]. split; [done|]. split; [lia|].
    intros k' Hk' Hle. apply Hmax; [done|].
    pose proof (Hno m' k' eq_refl Hk'). lia.
  - intros Hnone m' k' -> Hk'.
    pose proof (Hnone m' k' eq_refl Hk'). pose proof (Hno m' k' eq_refl Hk'). lia.
Qed.

Lemma selected_fmap {W W'} (f : W -> W') (m : gmap number W) (zoom : Z)
    (r : option W) :
  selected (Some m) zoom r -> selected (Some (f <$> m)) zoom (f <$> r).
Proof.
  destruct r as [w|]; cbn.
  - intros (m' & k & [= <-] & Hw & Hk & Hmax). exists (f <$> m), k.
    split; [done|]. split; [by rewrite lookup_fmap, Hw|]. split; [done|].
    intros k' Hk' Hle. apply Hmax; [|done].
    rewrite lookup_fmap in Hk'. by apply fmap_is_Some in Hk'.
  - intros Hnone m' k' [= <-] Hk'. apply (Hnone m k' eq_refl).
    rewrite lookup_fmap in Hk'. by apply fmap_is_Some in Hk'.
Qed.

(** The loop gives the same result at two zooms that select the same. *)
Lemma zoom_scan_same_selection {W V} (conv : W -> V) (init : V)
    (m : gmap number W) (z1 z2 : Z) :
  (forall r, selected (Some m) z1 r -> selected (Some m) z2 r) ->
  zoom_scan conv (Int z1) init m = zoom_scan conv (Int z2) init m.
Proof.
  intros H.
  destruct (zoom_scan_selected conv z1 init m) as (r1 & Hs1 & ->).
  destruct (zoom_scan_selected conv z2 init m) as (r2 & Hs2 & ->).
  by rewrite (selected_unique _ _ _ _ (H _ Hs1) Hs2).
Qed.

(** Mapping the values of a level map commutes with the loop. *)
Lemma zoom_scan_fmap {W W' V} (f : W -> W') (conv : W -> V) (conv' : W' -> V)
    (init : V) (m : gmap number W) (zoom : number) :
  (forall w, conv' (f w) = conv w) ->
  zoom_scan conv' zoom init (f <$> m) = zoom_scan conv zoom init m.
Proof.
  intros Hconv. destruct zoom as [|z].
  - unfold zoom_scan.
    assert (G : forall {A B} (g : A -> B) (l : list (string * A)) st,
              fold_left (zoom_step g NaN) l st = st).
    { intros A B g l. induction l as [|e l IH]; intros st; [done|].
      cbn [fold_left]. rewrite IH. unfold zoom_step. by destruct (Number e.1). }
    by rewrite !G.
  - destruct (zoom_scan_selected conv z init m) as (r & Hs & ->).
    destruct (zoom_scan_selected conv' z init (f <$> m)) as (r' & Hs' & ->).
    rewrite (selected_unique _ _ _ _ Hs' (selected_fmap f m z r Hs)).
    destruct r; cbn; [apply Hconv|done].
Qed.

(** What [decodeThresholds] reads back from [encodeThresholds]. *)
Lemma decode_encodeThresholds_arrays (t : gmap number tvalue) :
  t <> ∅ ->
  decodeThresholds (encodeThresholds t)
  = (fun v => TArr (threshold_numbers v)) <$> t.
Proof.
  intros Hne. unfold decodeThresholds, encodeThresholds.
  rewrite <- (decode_encode_map threshold_numbers TArr t Hne).
  f_equal. apply map_ext. intros part. by destruct (decode_part part).
Qed.

End zoom_more.

(** X13.  The resolution is a staircase: between two zooms with no zoom key
    of any of the three level maps in between (above the lower, up to the
    higher), [getOptionsForZoom] returns the same options. *)
Theorem getOptionsForZoom_staircase_step (options : Utils.GlobalContourTileOptions)
    (z1 z2 : Z) :
  z1 <= z2 ->
  no_key_between (Utils.thresholds options) z1 z2 ->
  no_key_between (Utils.lineLevels options) z1 z2 ->
  no_key_between (Utils.polygonLevels options) z1 z2 ->
  Utils.getOptionsForZoom options (JS.Int z1)
  = Utils.getOptionsForZoom options (JS.Int z2).
Proof.
  intros Hz HT HL HP. destruct options as [t l p rs].
  unfold Utils.getOptionsForZoom.
  cbn [Utils.thresholds Utils.lineLevels Utils.polygonLevels Utils.rest] in *.
  assert (ET : match t with
               | Some t' => Utils.zoom_scan Utils.threshold_numbers (JS.Int z1) [] t'
               | None => []
               end
             = match t with
               | Some t' => Utils.zoom_scan Utils.threshold_numbers (JS.Int z2) [] t'
               | None => []
               end).
  { destruct t as [t'|]; [|done]. apply zoom_scan_same_selection.
    intros r. by apply selected_between. }
  rewrite ET. f_equal.
  - destruct l as [l'|]; [|done]. apply zoom_scan_same_selection.
    intros r. by apply selected_between.
  - destruct p as [p'|]; [|done]. apply zoom_scan_same_selection.
    intros r. by apply selected_between.
Qed.

Lemma getOptionsForZoom_staircase_step_witness :
  Utils.getOptionsForZoom bathymetry_options (JS.Int 9)
  = Utils.getOptionsForZoom bathymetry_options (JS.Int 10).
Proof.
  apply getOptionsForZoom_staircase_step; [lia| | |].
  - by intros m' k [=].
  - intros m' k [= <-] Hk [H1 H2].
    assert (k = 10) as -> by lia. vm_compute in Hk. by destruct Hk.
  - intros m' k [= <-] Hk [H1 H2].
    assert (k = 10) as -> by lia. vm_compute in Hk. by destruct Hk.
Defined.

(** X14.  Thresholds written by [encodeThresholds] and read back by
    [decodeThresholds] resolve as the original ones at every zoom, also when
    an entry is a single number (which reads back as a one-element array):
    [getOptionsForZoom] returns the same options for both. *)
Theorem getOptionsForZoom_decoded_thresholds
    (t : gmap JS.number Utils.tvalue)
    (l p : option (gmap JS.number (list JS.number)))
    (rest : gmap string Utils.scalar) (zoom : JS.number) :
  t <> ∅ ->
  Utils.getOptionsForZoom
    (Utils.mkGlobal (Some (Utils.decodeThresholds (Utils.encodeThresholds t)))
                    l p rest) zoom
  = Utils.getOptionsForZoom (Utils.mkGlobal (Some t) l p rest) zoom.
Proof.
  intros Hne. unfold Utils.getOptionsForZoom.
  cbn [Utils.thresholds Utils.lineLevels Utils.polygonLevels Utils.rest].
  rewrite decode_encodeThresholds_arrays by done.
  by rewrite (zoom_scan_fmap _ Utils.threshold_numbers).
Qed.

Lemma getOptionsForZoom_decoded_thresholds_witness :
  Utils.getOptionsForZoom
    (Utils.mkGlobal
       (Some (Utils.decodeThresholds
                (Utils.encodeThresholds {[ JS.Int 11 := Utils.TNum (JS.Int 50) ]})))
       None None ∅) (JS.Int 12)
  = Utils.getOptionsForZoom
      (Utils.mkGlobal (Some {[ JS.Int 11 := Utils.TNum (JS.Int 50) ]}) None None ∅)
      (JS.Int 12).
Proof.
  apply getOptionsForZoom_decoded_thresholds.
  apply (bool_decide_unpack _). by vm_compute.
Defined.

(* ================================================================== *)
(** ** More on the option codec *)
(* ================================================================== *)

Section codec_more.
Import JS Utils.

(** *** The order of strings is a total order *)

Lemma string_leb_trans (s1 s2 s3 : string) :
  String.leb s1 s2 = true -> String.leb s2 s3 = true -> String.leb s1 s3 = true.
Proof.
  unfold String.leb. revert s2 s3.
  induction s1 as [|a s1 IH]; intros [|b s2] [|c s3]; cbn [String.compare];
    try done.
  unfold Ascii.compare.
  destruct (N.compare_spec (N_of_ascii a) (N_of_ascii b)) as [E1|L1|G1];
    destruct (N.compare_spec (N_of_ascii b) (N_of_ascii c)) as [E2|L2|G2];
    destruct (N.compare_spec (N_of_ascii a) (N_of_ascii c)) as [E3|L3|G3];
    try done; try lia.
  apply IH.
Qed.

#[local] Instance entry_le_trans {V} : Transitive (@entry_le V).
Proof. intros x y z. unfold entry_le. apply string_leb_trans. Qed.

#[local] Instance entry_le_total {V} : Total (@entry_le V).
Proof. intros x y. unfold entry_le. apply String.leb_total. Qed.

Lemma sortedEntries_sorted {V} (l : list (string * V)) :
  Sorted entry_le (sortedEntries l).
Proof. apply (Sorted_merge_sort entry_le). Qed.

Lemma sortedEntries_proper {V} (l1 l2 : list (string * V)) :
  NoDup (l1.*1) -> l1 ≡ₚ l2 -> sortedEntries l1 = sortedEntries l2.
Proof.
  intros Hnd Hp.
  apply (Sorted_unique_strong entry_le); try apply sortedEntries_sorted.
  - intros [k1 v1] [k2 v2] H1 H2 Hle Hge.
    rewrite sortedEntries_perm in H1. rewrite sortedEntries_perm, <- Hp in H2.
    unfold entry_le in Hle, Hge. cbn in Hle, Hge.
    pose proof (String.leb_antisym _ _ Hle Hge) as ->. f_equal.
    apply list_elem_of_lookup in H1 as [i Hi], H2 as [j Hj].
    assert (i = j) as ->; [|congruence].
    eapply NoDup_lookup; [exact Hnd| |]; rewrite list_lookup_fmap.
    + by rewrite Hi.
    + by rewrite Hj.
  - by rewrite !sortedEntries_perm.
Qed.

(** *** [split] at a separator in the middle *)

Lemma split_ne_middle (c : ascii) (a b : string) :
  split_ne c (a ++ String c b)
  = ((split_ne c a).1,
     ((split_ne c a).2 ++ (split_ne c b).1 :: (split_ne c b).2)%list).
Proof.
  induction a as [|x a IH].
  - change (EmptyString ++ String c b) with (String c b). cbn [split_ne].
    rewrite Ascii.eqb_refl. by destruct (split_ne c b).
  - change (String x a ++ String c b) with (String x (a ++ String c b)).
    cbn [split_ne]. rewrite IH. destruct (split_ne c a) as [h t].
    by destruct (Ascii.eqb x c).
Qed.

Lemma split_middle (c : ascii) (a b : string) :
  split c (a ++ String c b) = (split c a ++ split c b)%list.
Proof.
  unfold split. rewrite split_ne_middle.
  by destruct (split_ne c a), (split_ne c b).
Qed.

Lemma mapM_app_opt {A B} (f : A -> option B) (l1 l2 : list A) :
  mapM f (l1 ++ l2)%list
  = match mapM f l1, mapM f l2 with
    | Some r1, Some r2 => Some (r1 ++ r2)%list
    | _, _ => None
    end.
Proof.
  induction l1 as [|x l1 IH]; cbn.
  - by destruct (mapM f l2).
  - destruct (f x) as [y|]; cbn; [|done]. rewrite IH.
    by destruct (mapM f l1), (mapM f l2).
Qed.

Lemma fromEntries_app {K V} `{Countable K} (l1 l2 : list (K * V)) :
  fromEntries (l1 ++ l2)%list = fromEntries l2 ∪ fromEntries l1.
Proof. by rewrite !fromEntries_rev, rev_app_distr, list_to_map_app. Qed.

(** *** The string of [encodeOptions] *)

Lemma encodeOptions_lacks (c : ascii) (o : GlobalContourTileOptions) :
  is_uri_char c = false -> Ascii.eqb "=" c = false -> Ascii.eqb "&" c = false ->
  lacks c (encodeOptions o).
Proof.
  intros H1 H2 H3. unfold encodeOptions. apply lacks_join.
  - unfold lacks. cbn [all_chars]. by rewrite H3.
  - apply Forall_forall. intros s Hs.
    apply list_elem_of_In, in_map_iff in Hs as (kv & <- & _).
    by apply encode_entry_lacks.
Qed.

Lemma after_last_question_app (p s : string) :
  all_chars (fun a => negb (is_line_terminator a)) p = true ->
  lacks "?" s ->
  after_last_question (p ++ String "?" s) = Some s.
Proof.
  intros Hp Hs.
  assert (Hnone : after_last_question s = None).
  { clear Hp. induction s as [|a s IH]; [done|]. cbn in Hs |- *.
    apply andb_true_iff in Hs as [Ha Hs]. rewrite (IH Hs).
    apply negb_true_iff in Ha. rewrite Ha. by destruct (is_line_terminator a). }
  induction p as [|a p IH].
  - change (EmptyString ++ String "?" s) with (String "?" s).
    cbn [after_last_question]. rewrite Hnone. done.
  - change (String a p ++ String "?" s) with (String a (p ++ String "?" s)).
    cbn [all_chars] in Hp. apply andb_true_iff in Hp as [Ha Hp].
    cbn [after_last_question]. apply negb_true_iff in Ha. rewrite Ha.
    by rewrite (IH Hp).
Qed.

(** *** The object of the options *)

Lemma decode_encode_object (o : GlobalContourTileOptions) :
  round_trip_domain o ->
  decodeOptions (encodeOptions o) = Some (options_object o).
Proof.
  intros Hdom.
  assert (Hne : encoded_object o <> ∅) by apply Hdom.
  destruct (decodeOptions_lookup o Hne) as (r & -> & Hr). f_equal.
  apply map_eq. intros k. rewrite Hr. by apply object_lookup.
Qed.

Lemma options_object_lookup (o : GlobalContourTileOptions) (k : string) :
  options_object o !! k
  = match (if decide (k = "polygonLevels")
           then (fun l => VMap (TArr <$> l)) <$> polygonLevels o
           else if decide (k = "lineLevels")
           then (fun l => VMap (TArr <$> l)) <$> lineLevels o
           else if decide (k = "thresholds") then VMap <$> thresholds o
           else None) with
    | Some v => Some v
    | None => scalar_value <$> rest o !! k
    end.
Proof.
  destruct o as [t l p rs]. unfold options_object.
  cbn [thresholds lineLevels polygonLevels rest].
  destruct t as [t|], l as [l|], p as [p|]; cbn [fmap option_fmap option_map];
    repeat case_decide; subst;
    rewrite ?lookup_insert_eq, ?lookup_insert_ne by done;
    rewrite ?lookup_insert_eq, ?lookup_insert_ne by done;
    rewrite ?lookup_insert_eq, ?lookup_insert_ne by done;
    by rewrite ?lookup_fmap.
Qed.

Lemma rest_no_level_key (o : GlobalContourTileOptions) (k : string) :
  round_trip_domain o -> k ∈ level_keys -> rest o !! k = None.
Proof.
  intros (_ & _ & _ & Hrs & _) Hk.
  destruct (rest o !! k) as [v|] eqn:E; [|done].
  by destruct (Hrs _ _ E).
Qed.

Lemma scalar_value_inj (a b : scalar) : scalar_value a = scalar_value b -> a = b.
Proof. destruct a, b; cbn; congruence. Qed.

Ltac decide_keys L :=
  repeat match type of L with
         | context [decide (?a = ?b)] =>
             let E := fresh "E" in
             destruct (decide (a = b)) as [E|E];
             [try discriminate E | try (exfalso; by apply E)]
         end.

#[local] Instance TArr_inj : Inj (=) (=) TArr.
Proof. by intros a b [=]. Qed.

Lemma options_object_inj (o1 o2 : GlobalContourTileOptions) :
  round_trip_domain o1 -> round_trip_domain o2 ->
  options_object o1 = options_object o2 -> o1 = o2.
Proof.
  intros D1 D2 Heq.
  assert (L : forall k, options_object o1 !! k = options_object o2 !! k)
    by (by rewrite Heq).
  assert (HT : thresholds o1 = thresholds o2).
  { specialize (L "thresholds"). rewrite !options_object_lookup in L.
    decide_keys L.
    rewrite !(rest_no_level_key _ "thresholds") in L
      by (done || (unfold level_keys; set_solver)).
    destruct (thresholds o1), (thresholds o2); cbn in L; congruence. }
  assert (HL : lineLevels o1 = lineLevels o2).
  { specialize (L "lineLevels"). rewrite !options_object_lookup in L.
    decide_keys L.
    rewrite !(rest_no_level_key _ "lineLevels") in L
      by (done || (unfold level_keys; set_solver)).
    destruct (lineLevels o1) as [l1|], (lineLevels o2) as [l2|]; cbn in L;
      try congruence.
    f_equal. injection L as L. by apply (inj (fmap TArr)) in L. }
  assert (HP : polygonLevels o1 = polygonLevels o2).
  { specialize (L "polygonLevels"). rewrite !options_object_lookup in L.
    decide_keys L.
    rewrite !(rest_no_level_key _ "polygonLevels") in L
      by (done || (unfold level_keys; set_solver)).
    destruct (polygonLevels o1) as [l1|], (polygonLevels o2) as [l2|]; cbn in L;
      try congruence.
    f_equal. injection L as L. by apply (inj (fmap TArr)) in L. }
  assert (HR : rest o1 = rest o2).
  { apply map_eq. intros k.
    destruct (decide (k ∈ level_keys)) as [Hk|Hk].
    { by rewrite !rest_no_level_key. }
    specialize (L k). rewrite !options_object_lookup in L.
    assert (k <> "polygonLevels" /\ k <> "lineLevels" /\ k <> "thresholds")
      as (N1 & N2 & N3).
    { unfold level_keys in Hk. set_solver. }
    rewrite !decide_False in L by done.
    destruct (rest o1 !! k) as [a|], (rest o2 !! k) as [b|]; cbn in L;
      try congruence.
    f_equal. apply scalar_value_inj. congruence. }
  destruct o1, o2. cbn in *. congruence.
Qed.

End codec_more.

(** X15.  A level map with at least one zoom entry, written by
    [encodeLevels], is read back unchanged by [decodeLevels]; negative
    levels, empty level lists and any zoom keys are included. *)
Theorem encodeLevels_round_trip (levels : gmap JS.number (list JS.number)) :
  levels <> ∅ -> Utils.decodeLevels (Utils.encodeLevels levels) = levels.
Proof. apply decode_encodeLevels. Qed.

Lemma encodeLevels_round_trip_witness :
  Utils.decodeLevels
    (Utils.encodeLevels {[ JS.Int 9 := [JS.Int (-100); JS.Int 0];
                           JS.Int 11 := [] ]})
  = {[ JS.Int 9 := [JS.Int (-100); JS.Int 0]; JS.Int 11 := [] ]}.
Proof.
  apply encodeLevels_round_trip. apply (bool_decide_unpack _). by vm_compute.
Defined.

(** X16.  Thresholds with at least one zoom entry, written by
    [encodeThresholds], are read back by [decodeThresholds] with the same
    zoom keys and the same numbers, every entry as an array: an entry that
    was a single number comes back as a one-element array. *)
Theorem encodeThresholds_round_trip (thresholds : gmap JS.number Utils.tvalue) :
  thresholds <> ∅ ->
  Utils.decodeThresholds (Utils.encodeThresholds thresholds)
  = (fun v => Utils.TArr (Utils.threshold_numbers v)) <$> thresholds.
Proof. apply decode_encodeThresholds_arrays. Qed.

Lemma encodeThresholds_round_trip_witness :
  Utils.decodeThresholds
    (Utils.encodeThresholds {[ JS.Int 8 := Utils.TNum (JS.Int 50);
                               JS.Int 11 := Utils.TArr [JS.Int 50; JS.Int 100] ]})
  = (fun v => Utils.TArr (Utils.threshold_numbers v))
      <$> {[ JS.Int 8 := Utils.TNum (JS.Int 50);
             JS.Int 11 := Utils.TArr [JS.Int 50; JS.Int 100] ]}.
Proof.
  apply encodeThresholds_round_trip. apply (bool_decide_unpack _). by vm_compute.
Defined.

(** X17.  On the options of [round_trip_domain], [encodeOptions] is
    injective: two options with the same encoded string are the same
    options. *)
Theorem encodeOptions_injective (o1 o2 : Utils.GlobalContourTileOptions) :
  round_trip_domain o1 -> round_trip_domain o2 ->
  Utils.encodeOptions o1 = Utils.encodeOptions o2 -> o1 = o2.
Proof.
  intros D1 D2 Heq. apply options_object_inj; [done..|].
  pose proof (decode_encode_object o1 D1) as H1.
  pose proof (decode_encode_object o2 D2) as H2.
  rewrite Heq in H1. congruence.
Qed.

Lemma encodeOptions_injective_witness :
  bathymetry_options = bathymetry_options.
Proof.
  apply encodeOptions_injective;
    [apply (bool_decide_unpack _); by vm_compute
    |apply (bool_decide_unpack _); by vm_compute
    |reflexivity].
Defined.

(** X18.  [decodeOptions] reads the options from a whole URL: on the
    options of [round_trip_domain], whatever precedes the question mark (on
    one line) is dropped. *)
Theorem decodeOptions_of_url (url : string) (o : Utils.GlobalContourTileOptions) :
  all_chars (fun a => negb (JS.is_line_terminator a)) url = true ->
  round_trip_domain o ->
  Utils.decodeOptions (url ++ "?" ++ Utils.encodeOptions o)
  = Some (Utils.options_object o).
Proof.
  intros Hurl Hdom. rewrite <- (decode_encode_object o Hdom).
  unfold Utils.decodeOptions at 1 2.
  change ("?" ++ ?s) with (String "?" s).
  assert (Hq : lacks "?" (Utils.encodeOptions o)) by (by apply encodeOptions_lacks).
  unfold JS.strip_query at 1.
  by rewrite after_last_question_app, (strip_query_lacks _ Hq).
Qed.

Lemma decodeOptions_of_url_witness :
  Utils.decodeOptions
    ("contour://{z}/{x}/{y}" ++ "?" ++ Utils.encodeOptions bathymetry_options)
  = Some (Utils.options_object bathymetry_options).
Proof.
  apply decodeOptions_of_url;
    [by vm_compute | apply (bool_decide_unpack _); by vm_compute].
Defined.

(** X19.  [decodeOptions] of two option strings joined by an ampersand is
    the union of what each decodes to, the second one winning on the keys
    they share; it throws when either part does. *)
Theorem decodeOptions_ampersand (a b : string) :
  lacks "?" a -> lacks "?" b ->
  Utils.decodeOptions (a ++ "&" ++ b)
  = match Utils.decodeOptions a, Utils.decodeOptions b with
    | Some ra, Some rb => Some (rb ∪ ra)
    | _, _ => None
    end.
Proof.
  intros Ha Hb. unfold Utils.decodeOptions.
  change ("&" ++ b) with (String "&" b).
  assert (Hab : lacks "?" (a ++ String "&" b)).
  { apply lacks_app; [done|]. unfold lacks. cbn [all_chars]. by rewrite Hb. }
  rewrite !strip_query_lacks by done.
  rewrite split_middle, mapM_app_opt.
  destruct (mapM Utils.decode_entry (JS.split "&" a)) as [ra|]; [|done].
  destruct (mapM Utils.decode_entry (JS.split "&" b)) as [rb|]; [|done].
  cbn. by rewrite fromEntries_app.
Qed.

Lemma decodeOptions_ampersand_witness :
  Utils.decodeOptions ("extent=4096&buffer=1" ++ "&" ++ "extent=512")
  = match Utils.decodeOptions "extent=4096&buffer=1",
          Utils.decodeOptions "extent=512" with
    | Some ra, Some rb => Some (rb ∪ ra)
    | _, _ => None
    end.
Proof. apply decodeOptions_ampersand; by vm_compute. Defined.

(** X20.  [sortedEntries] gives the entries in ascending order of their
    keys, and the order in which the entries of an object are given does not
    matter: two orderings of the same entries, with distinct keys, are sorted
    to the same list. *)
Theorem sortedEntries_canonical {V} (l1 l2 : list (string * V)) :
  NoDup (l1.*1) -> l1 ≡ₚ l2 ->
  Sorted (fun x y => String.leb x.1 y.1 = true) (Utils.sortedEntries l1)
  /\ Utils.sortedEntries l1 ≡ₚ l1
  /\ Utils.sortedEntries l1 = Utils.sortedEntries l2.
Proof.
  intros Hnd Hp. split; [apply sortedEntries_sorted|].
  split; [apply sortedEntries_perm|]. by apply sortedEntries_proper.
Qed.

Lemma sortedEntries_canonical_witness :
  Sorted (fun x y => String.leb x.1 y.1 = true)
         (Utils.sortedEntries [("extent", 1); ("buffer", 2)])
  /\ Utils.sortedEntries [("extent", 1); ("buffer", 2)]
     ≡ₚ [("extent", 1); ("buffer", 2)]
  /\ Utils.sortedEntries [("extent", 1); ("buffer", 2)]
     = Utils.sortedEntries [("buffer", 2); ("extent", 1)].
Proof.
  apply sortedEntries_canonical.
  - apply (bool_decide_unpack _). by vm_compute.
  - apply perm_swap.
Defined.

(* ================================================================== *)
(** ** [encodeIndividualOptions] as a cache key *)
(* ================================================================== *)

Section individual_facts.
Import JS Utils.

Lemma comma_not_uri_char : is_uri_char "," = false.
Proof. reflexivity. Qed.

Lemma encode_pair_lacks (c : ascii) (kv : string * string) :
  is_uri_char c = false -> Ascii.eqb "=" c = false ->
  lacks c (encodeURIComponent kv.1 ++ "=" ++ encodeURIComponent kv.2).
Proof.
  intros Hc Heq.
  apply lacks_app; [by apply encodeURIComponent_lacks|].
  apply lacks_app; [|by apply encodeURIComponent_lacks].
  unfold lacks. cbn [all_chars]. by rewrite Heq.
Qed.

Lemma encodeURIComponent_inj (s t : string) :
  encodeURIComponent s = encodeURIComponent t -> s = t.
Proof.
  intros H. apply (f_equal decodeURIComponent) in H.
  rewrite !decode_encodeURIComponent in H. congruence.
Qed.

Lemma encode_pair_inj (kv kv' : string * string) :
  encodeURIComponent kv.1 ++ "=" ++ encodeURIComponent kv.2
  = encodeURIComponent kv'.1 ++ "=" ++ encodeURIComponent kv'.2 ->
  kv = kv'.
Proof.
  intros H. apply (f_equal (split_ne "=")) in H.
  change ("=" ++ ?s) with (String "=" s) in H.
  rewrite !split_ne_app in H by apply encodeURIComponent_lacks, equals_not_uri_char.
  rewrite !split_ne_lacks in H by apply encodeURIComponent_lacks, equals_not_uri_char.
  cbn [fst snd] in H. injection H as H1 H2.
  apply encodeURIComponent_inj in H1, H2. destruct kv, kv'. cbn in *. congruence.
Qed.

Lemma encode_pair_nonempty (kv : string * string) :
  encodeURIComponent kv.1 ++ "=" ++ encodeURIComponent kv.2 <> EmptyString.
Proof.
  intros H. apply (f_equal (split_ne "=")) in H.
  change ("=" ++ ?s) with (String "=" s) in H.
  rewrite split_ne_app in H by apply encodeURIComponent_lacks, equals_not_uri_char.
  cbn in H. congruence.
Qed.

(** The joined entries determine the entries. *)
Lemma joined_entries_inj (L1 L2 : list (string * string)) :
  join "," (map (fun kv => encodeURIComponent kv.1 ++ "=" ++ encodeURIComponent kv.2) L1)
  = join "," (map (fun kv => encodeURIComponent kv.1 ++ "=" ++ encodeURIComponent kv.2) L2)
  -> L1 = L2.
Proof.
  set (f := fun kv : string * string =>
              encodeURIComponent kv.1 ++ "=" ++ encodeURIComponent kv.2).
  assert (Hlacks : forall L, Forall (lacks ",") (map f L)).
  { intros L. apply Forall_forall. intros s Hs.
    apply list_elem_of_In, in_map_iff in Hs as (kv & <- & _).
    by apply encode_pair_lacks. }
  assert (Hsplit : forall L, L <> [] -> split "," (join "," (map f L)) = map f L).
  { intros L HL. apply (split_join ","); [|apply Hlacks].
    intros E. by apply map_eq_nil in E. }
  assert (Hinj : forall A B, map f A = map f B -> A = B).
  { induction A as [|a A IH]; intros [|b B]; cbn; try done.
    intros [= Hab HAB]. f_equal; [by apply encode_pair_inj|by apply IH]. }
  assert (Hempty : forall L, L <> [] -> join "," (map f L) <> EmptyString).
  { intros L HL E. apply (f_equal (split ",")) in E. rewrite Hsplit in E by done.
    destruct L as [|kv L]; [done|]. cbn in E. injection E as E _.
    by apply (encode_pair_nonempty kv). }
  intros H. destruct L1 as [|a L1], L2 as [|b L2]; [done| | |].
  - exfalso. symmetry in H. by apply (Hempty (b :: L2)).
  - exfalso. by apply (Hempty (a :: L1)).
  - apply Hinj.
    rewrite <- (Hsplit (a :: L1)), <- (Hsplit (b :: L2)) by done. by rewrite H.
Qed.

Lemma encodeIndividualOptions_entries (o1 o2 : IndividualContourTileOptions) :
  encodeIndividualOptions o1 = encodeIndividualOptions o2 ->
  individual_entries o1 = individual_entries o2.
Proof.
  intros H%joined_entries_inj. apply map_to_list_inj.
  by rewrite <- (sortedEntries_perm (map_to_list (individual_entries o1))), H,
     sortedEntries_perm.
Qed.

(** *** [String(array)] determines the array *)

Lemma array_to_string_chars (l : list number) :
  all_chars (fun c => is_num_char c || Ascii.eqb c ",") (array_to_string l) = true.
Proof.
  unfold array_to_string.
  assert (G : forall (s : string) (ps : list string),
    Forall (fun s => all_chars (fun c => is_num_char c || Ascii.eqb c ",") s = true) ps ->
    all_chars (fun c => is_num_char c || Ascii.eqb c ",") (join "," ps) = true).
  { intros _ ps. induction 1 as [|p ps Hp Hps IH]; [done|].
    destruct ps as [|q ps]; [done|].
    change (join "," (p :: q :: ps)) with (p ++ "," ++ join "," (q :: ps)).
    rewrite !all_chars_app, Hp, IH. done. }
  apply (G EmptyString). apply Forall_forall. intros s Hs.
  apply list_elem_of_In, in_map_iff in Hs as (n & <- & _).
  eapply all_chars_weaken; [|apply ToString_chars].
  intros c Hc. by rewrite Hc.
Qed.

Lemma ToString_nonempty (n : number) : ToString n <> EmptyString.
Proof.
  destruct n as [|z]; [done|]. unfold ToString.
  destruct (z <? 0); [done|]. apply N_to_string_nonempty.
Qed.

Lemma array_to_string_inj (l1 l2 : list number) :
  array_to_string l1 = array_to_string l2 -> l1 = l2.
Proof.
  unfold array_to_string.
  assert (Hsplit : forall l, l <> [] ->
            split "," (join "," (map ToString l)) = map ToString l).
  { intros l Hl. apply (split_join ",").
    - intros E. by apply map_eq_nil in E.
    - apply Forall_forall. intros s Hs.
      apply list_elem_of_In, in_map_iff in Hs as (n & <- & _).
      apply ToString_lacks, comma_not_num_char. }
  assert (Hinj : forall A B, map ToString A = map ToString B -> A = B).
  { induction A as [|a A IH]; intros [|b B]; cbn; try done.
    intros [= Hab HAB]. f_equal; [by apply ToString_inj|by apply IH]. }
  assert (Hempty : forall l, l <> [] -> join "," (map ToString l) <> EmptyString).
  { intros l Hl E. apply (f_equal (split ",")) in E. rewrite Hsplit in E by done.
    destruct l as [|n l]; [done|]. cbn in E. injection E as E _.
    by apply (ToString_nonempty n). }
  intros H. destruct l1 as [|a l1], l2 as [|b l2]; [done| | |].
  - exfalso. symmetry in H. by apply (Hempty (b :: l2)).
  - exfalso. by apply (Hempty (a :: l1)).
  - apply Hinj.
    rewrite <- (Hsplit (a :: l1)), <- (Hsplit (b :: l2)) by done. by rewrite H.
Qed.

Lemma array_to_string_not_undefined (l : list number) :
  array_to_string l <> "undefined".
Proof.
  intros H. pose proof (array_to_string_chars l) as Hc. rewrite H in Hc.
  by vm_compute in Hc.
Qed.

Lemma individual_entries_lookup (o : IndividualContourTileOptions) (k : string) :
  individual_entries o !! k
  = match scalar_to_string <$> ind_rest o !! k with
    | Some s => Some s
    | None =>
        if decide (k = "lineLevels") then Some (array_to_string (ind_lineLevels o))
        else if decide (k = "polygonLevels")
        then Some (match ind_polygonLevels o with
                   | Some l => array_to_string l
                   | None => "undefined"
                   end)
        else None
    end.
Proof.
  unfold individual_entries. rewrite lookup_union, lookup_fmap.
  destruct (ind_rest o !! k) as [v|]; cbn [fmap option_fmap option_map].
  - by destruct (_ !! k).
  - rewrite (left_id None _).
    destruct (decide (k = "lineLevels")) as [->|N1].
    { by rewrite lookup_insert_eq. }
    rewrite lookup_insert_ne by done.
    destruct (decide (k = "polygonLevels")) as [->|N2].
    + by rewrite lookup_singleton_eq.
    + by rewrite lookup_singleton_ne.
Qed.

End individual_facts.

(** X21.  The string of [encodeIndividualOptions] determines the resolved
    options it was made from: when the other fields contain no [lineLevels]
    or [polygonLevels] of their own, two resolved options with the same
    string have the same line levels, the same polygon levels ([undefined]
    being different from every list) and other fields that are written the
    same. *)
Theorem encodeIndividualOptions_injective
    (o1 o2 : Utils.IndividualContourTileOptions) :
  Utils.ind_rest o1 !! "lineLevels" = None ->
  Utils.ind_rest o1 !! "polygonLevels" = None ->
  Utils.ind_rest o2 !! "lineLevels" = None ->
  Utils.ind_rest o2 !! "polygonLevels" = None ->
  Utils.encodeIndividualOptions o1 = Utils.encodeIndividualOptions o2 ->
  Utils.ind_lineLevels o1 = Utils.ind_lineLevels o2
  /\ Utils.ind_polygonLevels o1 = Utils.ind_polygonLevels o2
  /\ Utils.scalar_to_string <$> Utils.ind_rest o1
     = Utils.scalar_to_string <$> Utils.ind_rest o2.
Proof.
  intros L1 P1 L2 P2 Heq%encodeIndividualOptions_entries.
  assert (H : forall k, Utils.individual_entries o1 !! k
                        = Utils.individual_entries o2 !! k) by (by rewrite Heq).
  split; [|split].
  - specialize (H "lineLevels"). rewrite !individual_entries_lookup, L1, L2 in H.
    cbn [fmap option_fmap option_map] in H.
    destruct (decide ("lineLevels" = "lineLevels")); [|done].
    apply array_to_string_inj. congruence.
  - specialize (H "polygonLevels").
    rewrite !individual_entries_lookup, P1, P2 in H.
    cbn [fmap option_fmap option_map] in H.
    destruct (decide ("polygonLevels" = "lineLevels")); [done|].
    destruct (decide ("polygonLevels" = "polygonLevels")); [|done].
    injection H as H.
    destruct (Utils.ind_polygonLevels o1) as [l1|],
             (Utils.ind_polygonLevels o2) as [l2|]; try done.
    + f_equal. by apply array_to_string_inj.
    + by apply array_to_string_not_undefined in H.
    + symmetry in H. by apply array_to_string_not_undefined in H.
  - apply map_eq. intros k. specialize (H k).
    rewrite !individual_entries_lookup in H. rewrite !lookup_fmap.
    destruct (decide (k = "lineLevels")) as [->|N1].
    { by rewrite L1, L2. }
    destruct (decide (k = "polygonLevels")) as [->|N2].
    { by rewrite P1, P2. }
    by destruct (Utils.ind_rest o1 !! k), (Utils.ind_rest o2 !! k).
Qed.

Lemma encodeIndividualOptions_injective_witness :
  let o := Utils.getOptionsForZoom bathymetry_options (JS.Int 11) in
  Utils.ind_lineLevels o = Utils.ind_lineLevels o
  /\ Utils.ind_polygonLevels o = Utils.ind_polygonLevels o
  /\ Utils.scalar_to_string <$> Utils.ind_rest o
     = Utils.scalar_to_string <$> Utils.ind_rest o.
Proof.
  apply encodeIndividualOptions_injective; by vm_compute.
Defined.

Example encodeIndividualOptions_bathymetry :
  Utils.encodeIndividualOptions
    (Utils.getOptionsForZoom bathymetry_options (JS.Int 10))
  = "extent=4096,lineLevels=,polygonLayer=depth%20%26%20area%3D1,polygonLevels=-100%2C0".
Proof. by vm_compute. Qed.
